(** * ConfigFixService: a shallow embedding and its verified properties

    The development embeds [UI/src/app/_services/config-fix.service.ts]:
    the synthesis of fixes from schema-validation errors
    ([generateFixes], [generateFixForError], [convertType],
    [getDefaultValue]) and the patch applicator ([applyFix],
    [setProperty], [removeProperty], [getNestedObject], [generateDiff],
    [getNestedValue]).

    Layout:
    - [JS]: the fragment of the host language the service relies on
      (numbers, strings, dynamic values, property access, coercions,
      the JSON printer and the JSON round trip);
    - the service itself, over immutable trees, with exceptions made
      explicit in a result monad;
    - [Store]: the applicator once more over a mutable object store, so
      that aliasing and in-place updates can be talked about;
    - the theorems. *)

From Stdlib Require Import ZArith Ascii String.
From stdpp Require Import base option list strings gmap.

Set Default Proof Using "Type".

(** ** Exceptions as values *)

Inductive exn : Type := TypeError | RangeError | SyntaxError.

Inductive result (A : Type) : Type :=
| Ok (a : A)
| Throw (e : exn).
Arguments Ok {A} a.
Arguments Throw {A} e.

#[global] Instance result_ret : MRet result := λ A a, Ok a.
#[global] Instance result_bind : MBind result :=
  λ A B f m, match m with Ok a => f a | Throw e => Throw e end.

Module JS.

(** *** Characters and strings

    A JavaScript string is a sequence of 16-bit code units; the model
    keeps the code units below 256, one [ascii] each. *)

Definition chr (n : nat) : string := String (ascii_of_nat n) EmptyString.

Definition is_digit (c : ascii) : bool :=
  (48 <=? nat_of_ascii c) && (nat_of_ascii c <=? 57).

Fixpoint all_digits (s : string) : bool :=
  match s with
  | EmptyString => true
  | String c r => is_digit c && all_digits r
  end.

(** [/^\d+$/.test(s)] *)
Definition test_digits (s : string) : bool :=
  match s with
  | EmptyString => false
  | _ => all_digits s
  end.

Fixpoint digits_value (base : N) (acc : N) (cs : list ascii) : N :=
  match cs with
  | [] => acc
  | c :: r =>
      let n := N_of_ascii c in
      let d := if (n <? 58)%N then (n - 48)%N
               else if (n <? 91)%N then (n - 55)%N else (n - 87)%N in
      digits_value base (base * acc + d)%N r
  end.

(** [parseInt(s)] for an [s] that passed [test_digits]: its value, as
    the array index it is then used for.  (Array lengths stay below
    2^32, and every natural below 2^53 is a number of the host language,
    so comparing the exact value with a length agrees with comparing
    the rounded one.) *)
Definition parseInt (s : string) : nat :=
  N.to_nat (digits_value 10 0 (list_ascii_of_string s)).

Fixpoint N_digits_go (fuel : nat) (n : N) (acc : string) : string :=
  match fuel with
  | O => acc
  | S f =>
      let acc' := String (ascii_of_N (48 + n mod 10)) acc in
      if (n <? 10)%N then acc' else N_digits_go f (n / 10)%N acc'
  end.

Definition N_to_string (n : N) : string :=
  N_digits_go (S (N.size_nat n)) n EmptyString.

Fixpoint str_split (sep : ascii) (s : string) : list string :=
  match s with
  | EmptyString => [EmptyString]
  | String c r =>
      if Ascii.eqb c sep then EmptyString :: str_split sep r
      else match str_split sep r with
           | h :: t => String c h :: t
           | [] => [String c EmptyString]
           end
  end.

Fixpoint str_join (sep : string) (l : list string) : string :=
  match l with
  | [] => EmptyString
  | [x] => x
  | x :: r => x +:+ sep +:+ str_join sep r
  end.

Fixpoint str_repeat (s : string) (n : nat) : string :=
  match n with
  | O => EmptyString
  | S k => s +:+ str_repeat s k
  end.

Definition str_take (n : nat) (s : string) : string :=
  String.substring 0 n s.

Definition str_drop (n : nat) (s : string) : string :=
  String.substring n (String.length s - n) s.

Definition lower_char (c : ascii) : ascii :=
  let n := nat_of_ascii c in
  if (65 <=? n) && (n <=? 90) then ascii_of_nat (n + 32) else c.

(** [s.toLowerCase()], on the letters A to Z. *)
Fixpoint toLowerCase (s : string) : string :=
  match s with
  | EmptyString => EmptyString
  | String c r => String (lower_char c) (toLowerCase r)
  end.

(** *** Numbers

    A number is not-a-number, an infinity, or a finite value
    [m * 10^e]; this is the decimal that the host language prints for
    it.  Overflow to an infinity and underflow to zero on parsing are
    modelled, the rounding of the mantissa to 53 bits and the sign of
    zero are not: a numeric text is read as the host language reads it
    when it is [exact] (see [unrounded]). *)

Inductive number : Type :=
| NaN
| Inf (neg : bool)
| Fin (m : Z) (e : Z).

Definition num_of_nat (n : nat) : number := Fin (Z.of_nat n) 0.

Definition isNaN (n : number) : bool :=
  match n with NaN => true | _ => false end.

Definition num_is_zero (n : number) : bool :=
  match n with Fin m _ => (m =? 0)%Z | _ => false end.

(** [a < b]; false as soon as one side is not a number. *)
Definition num_ltb (a b : number) : bool :=
  match a, b with
  | NaN, _ | _, NaN => false
  | Inf true, Inf true => false
  | Inf true, _ => true
  | _, Inf true => false
  | Inf false, _ => false
  | _, Inf false => true
  | Fin m1 e1, Fin m2 e2 =>
      let e := Z.min e1 e2 in
      (m1 * 10 ^ (e1 - e) <? m2 * 10 ^ (e2 - e))%Z
  end.

(** The integer part, as [ToIntegerOrInfinity] computes it; the
    infinities are kept apart. *)
Inductive integer_or_inf : Type :=
| IInt (z : Z)
| IInf (neg : bool).

Definition ToIntegerOrInfinity (n : number) : integer_or_inf :=
  match n with
  | NaN => IInt 0
  | Inf s => IInf s
  | Fin m e => if (0 <=? e)%Z then IInt (m * 10 ^ e)
               else IInt (Z.quot m (10 ^ (- e)))
  end.

Fixpoint strip_zeros (fuel : nat) (m e : Z) : Z * Z :=
  match fuel with
  | O => (m, e)
  | S f => if (m mod 10 =? 0)%Z then strip_zeros f (m / 10)%Z (e + 1)%Z
           else (m, e)
  end.

(** [Number::toString], radix 10. *)
Definition num_to_string (x : number) : string :=
  match x with
  | NaN => "NaN"
  | Inf false => "Infinity"
  | Inf true => "-Infinity"
  | Fin m e =>
      if (m =? 0)%Z then "0"
      else
        let '(m', e') := strip_zeros (Z.to_nat (Z.log2 (Z.abs m))) m e in
        let sign := if (m' <? 0)%Z then "-" else EmptyString in
        let ds := N_to_string (Z.to_N (Z.abs m')) in
        let k := Z.of_nat (String.length ds) in
        let n := (e' + k)%Z in
        sign +:+
        (if (k <=? n)%Z && (n <=? 21)%Z then
           ds +:+ str_repeat "0" (Z.to_nat (n - k))
         else if (0 <? n)%Z && (n <=? 21)%Z then
           str_take (Z.to_nat n) ds +:+ "." +:+ str_drop (Z.to_nat n) ds
         else if (-6 <? n)%Z && (n <=? 0)%Z then
           "0." +:+ str_repeat "0" (Z.to_nat (- n)) +:+ ds
         else
           let ex := (n - 1)%Z in
           let es := (if (ex <? 0)%Z then "-" else "+")
                     +:+ N_to_string (Z.to_N (Z.abs ex)) in
           if (k =? 1)%Z then ds +:+ "e" +:+ es
           else str_take 1 ds +:+ "." +:+ str_drop 1 ds +:+ "e" +:+ es)
  end.

(** Range of the binary64 format: magnitudes from [2^1024 - 2^970] on
    become an infinity, magnitudes up to [2^-1075] become zero. *)
Definition in_double_range (m e : Z) : number :=
  let a := Z.abs m in
  let top := (2 ^ 1024 - 2 ^ 970)%Z in
  if (0 <=? e)%Z then
    if (top <=? a * 10 ^ e)%Z then Inf (m <? 0)%Z else Fin m e
  else if (top * 10 ^ (- e) <=? a)%Z then Inf (m <? 0)%Z
  else if (a * 2 ^ 1075 <=? 10 ^ (- e))%Z then Fin 0 0
  else Fin m e.

Definition is_ws (c : ascii) : bool :=
  let n := nat_of_ascii c in
  ((9 <=? n) && (n <=? 13)) || (n =? 32) || (n =? 160).

Fixpoint drop_ws (cs : list ascii) : list ascii :=
  match cs with
  | c :: r => if is_ws c then drop_ws r else cs
  | [] => []
  end.

Definition trim (cs : list ascii) : list ascii :=
  rev (drop_ws (rev (drop_ws cs))).

Fixpoint span_digits (cs : list ascii) : list ascii * list ascii :=
  match cs with
  | c :: r => if is_digit c then
                let '(d, t) := span_digits r in (c :: d, t)
              else ([], cs)
  | [] => ([], [])
  end.

Definition is_base_digit (base : N) (c : ascii) : bool :=
  let n := N_of_ascii c in
  let d := if (48 <=? n)%N && (n <? 58)%N then (n - 48)%N
           else if (65 <=? n)%N && (n <? 91)%N then (n - 55)%N
           else if (97 <=? n)%N && (n <? 123)%N then (n - 87)%N
           else 99%N in
  (d <? base)%N.

Definition radix_literal (base : N) (cs : list ascii) : number :=
  match cs with
  | [] => NaN
  | _ => if forallb (is_base_digit base) cs
         then in_double_range (Z.of_N (digits_value base 0 cs)) 0
         else NaN
  end.

Definition dec_value (cs : list ascii) : Z := Z.of_N (digits_value 10 0 cs).

(** An unsigned [StrDecimalLiteral]. *)
Definition unsigned_decimal (neg : bool) (cs : list ascii) : number :=
  if decide (cs = list_ascii_of_string "Infinity") then Inf neg
  else
    let '(ip, r1) := span_digits cs in
    let '(fp, r2) := match r1 with
                     | "."%char :: r => span_digits r
                     | _ => ([], r1)
                     end in
    let sg := if neg then (-1)%Z else 1%Z in
    let mk ex := in_double_range (sg * dec_value (ip ++ fp))
                   (ex - Z.of_nat (length fp)) in
    match ip ++ fp with
    | [] => NaN
    | _ =>
        match r2 with
        | [] => mk 0%Z
        | c :: r3 =>
            if decide (c = "e"%char ∨ c = "E"%char) then
              let '(eneg, r4) := match r3 with
                                 | "-"%char :: r => (true, r)
                                 | "+"%char :: r => (false, r)
                                 | _ => (false, r3)
                                 end in
              let '(ed, r5) := span_digits r4 in
              match ed, r5 with
              | _ :: _, [] => mk (if eneg then (- dec_value ed)%Z
                                  else dec_value ed)
              | _, _ => NaN
              end
            else NaN
        end
    end.

(** [StringToNumber]: the value of a string as a [StringNumericLiteral]. *)
Definition StringToNumber (s : string) : number :=
  match trim (list_ascii_of_string s) with
  | [] => Fin 0 0
  | "0"%char :: x :: r =>
      if decide (x = "x"%char ∨ x = "X"%char) then radix_literal 16 r
      else if decide (x = "o"%char ∨ x = "O"%char) then radix_literal 8 r
      else if decide (x = "b"%char ∨ x = "B"%char) then radix_literal 2 r
      else unsigned_decimal false ("0"%char :: x :: r)
  | "-"%char :: r => unsigned_decimal true r
  | "+"%char :: r => unsigned_decimal false r
  | cs => unsigned_decimal false cs
  end.


(** *** Dynamic values

    Arrays carry their elements and, apart from them, the named
    properties that an assignment such as [xs["note"] = v] puts on an
    array object; a hole of an array is an [VUndef] element.  Objects
    list their own properties in the order in which the host language
    enumerates them; they are objects as an object literal or the JSON
    parser makes them, with the prototype of all objects above them.
    Properties inherited from the built-in prototypes (methods,
    [constructor], [__proto__]) are outside the model: path segments
    and property names are taken not to name them, which the statements
    say with [inherits] and [plain_path]. *)

#[local] Unset Elimination Schemes.
Inductive value : Type :=
| VUndef
| VNull
| VBool (b : bool)
| VNum (n : number)
| VStr (s : string)
| VArr (elems : list value) (props : list (string * value))
| VObj (fields : list (string * value)).
#[local] Set Elimination Schemes.

Definition arr (xs : list value) : value := VArr xs [].

Definition is_undefined (v : value) : bool :=
  match v with VUndef => true | _ => false end.

Definition is_nullish (v : value) : bool :=
  match v with VUndef | VNull => true | _ => false end.

Definition isArray (v : value) : bool :=
  match v with VArr _ _ => true | _ => false end.

(** [typeof v === 'object'] *)
Definition typeof_object (v : value) : bool :=
  match v with VNull | VArr _ _ | VObj _ => true | _ => false end.

(** [Boolean(v)], the truthiness of [v]. *)
Definition truthy (v : value) : bool :=
  match v with
  | VUndef | VNull => false
  | VBool b => b
  | VNum n => negb (isNaN n || num_is_zero n)
  | VStr s => negb (String.eqb s EmptyString)
  | VArr _ _ | VObj _ => true
  end.

(** [v && typeof v === 'object'], as a condition. *)
Definition is_object (v : value) : bool := truthy v && typeof_object v.

(** [Array.isArray(v) && /^\d+$/.test(part)]: the elements of [v] when
    the condition holds. *)
Definition indexed (v : value) (part : string) : option (list value) :=
  match v with
  | VArr xs _ => if test_digits part then Some xs else None
  | _ => None
  end.

(** [ToString], where the conversion returns.  The host language
    throws a [TypeError] instead for a map or sequence that hides the
    inherited method [toString] behind an own property; the statements
    keep to the values that are [convertible]. *)
Fixpoint ToString (v : value) : string :=
  match v with
  | VUndef => "undefined"
  | VNull => "null"
  | VBool true => "true"
  | VBool false => "false"
  | VNum n => num_to_string n
  | VStr s => s
  | VArr xs _ =>
      str_join ","
        (List.map (λ x, match x with
                        | VUndef | VNull => EmptyString
                        | _ => ToString x
                        end) xs)
  | VObj _ => "[object Object]"
  end.

(** [ToNumber], where the conversion returns (as for [ToString]); an
    object goes through its string form. *)
Definition ToNumber (v : value) : number :=
  match v with
  | VUndef => NaN
  | VNull => Fin 0 0
  | VBool b => if b then Fin 1 0 else Fin 0 0
  | VNum n => n
  | VStr s => StringToNumber s
  | VArr _ _ | VObj _ => StringToNumber (ToString v)
  end.

(** *** Own properties *)

Fixpoint assoc {A} (k : string) (fs : list (string * A)) : option A :=
  match fs with
  | [] => None
  | (k', v) :: r => if String.eqb k k' then Some v else assoc k r
  end.

Definition field (k : string) (fs : list (string * value)) : value :=
  default VUndef (assoc k fs).

(** The array index that a property name denotes, if it is the
    canonical form of one. *)
Definition array_index (k : string) : option nat :=
  let n := digits_value 10 0 (list_ascii_of_string k) in
  if test_digits k && String.eqb (N_to_string n) k && (n <? 2 ^ 32 - 1)%N
  then Some (N.to_nat n) else None.

Definition elem (xs : list value) (i : nat) : value :=
  default VUndef (xs !! i).

(** [v[k]] for a [v] that is neither [undefined] nor [null], and a
    [k] that is an own property of [v] or no property at all. *)
Definition get (v : value) (k : string) : value :=
  match v with
  | VUndef | VNull | VBool _ | VNum _ => VUndef
  | VStr s =>
      if String.eqb k "length" then VNum (num_of_nat (String.length s))
      else match array_index k with
           | Some i => match String.get i s with
                       | Some c => VStr (String c EmptyString)
                       | None => VUndef
                       end
           | None => VUndef
           end
  | VArr xs ps =>
      if String.eqb k "length" then VNum (num_of_nat (length xs))
      else match array_index k with
           | Some i => elem xs i
           | None => field k ps
           end
  | VObj fs => field k fs
  end.

(** [v.k]: reading a property of [undefined] or [null] throws. *)
Definition getP (v : value) (k : string) : result value :=
  if is_nullish v then Throw TypeError else Ok (get v k).

(** [v?.k] *)
Definition getOpt (v : value) (k : string) : value :=
  if is_nullish v then VUndef else get v k.

(** Where the host language enumerates an integer-like key: before the
    other keys, in ascending order. *)
Fixpoint insert_index {A} (i : nat) (k : string) (v : A)
    (fs : list (string * A)) : list (string * A) :=
  match fs with
  | [] => [(k, v)]
  | (k', v') :: r =>
      match array_index k' with
      | Some j => if i <? j then (k, v) :: fs
                  else (k', v') :: insert_index i k v r
      | None => (k, v) :: fs
      end
  end.

Fixpoint replace_field {A} (k : string) (v : A)
    (fs : list (string * A)) : list (string * A) :=
  match fs with
  | [] => []
  | (k', v') :: r => if String.eqb k k' then (k, v) :: r
                     else (k', v') :: replace_field k v r
  end.

(** [fs[k] = v] on the own properties of an ordinary object. *)
Definition set_field {A} (k : string) (v : A)
    (fs : list (string * A)) : list (string * A) :=
  match assoc k fs with
  | Some _ => replace_field k v fs
  | None => match array_index k with
            | Some i => insert_index i k v fs
            | None => fs ++ [(k, v)]
            end
  end.

(** [delete fs[k]] *)
Fixpoint delete_field {A} (k : string)
    (fs : list (string * A)) : list (string * A) :=
  match fs with
  | [] => []
  | (k', v') :: r => if String.eqb k k' then r
                     else (k', v') :: delete_field k r
  end.

(** The array length that a number is, if it is one: an integer from 0
    to 2^32 - 1. *)
Definition array_length (n : number) : option nat :=
  match n with
  | Fin m e =>
      if (0 <=? e)%Z && (0 <=? m)%Z && (m * 10 ^ e <? 2 ^ 32)%Z then
        Some (Z.to_nat (m * 10 ^ e))
      else if (e <? 0)%Z && (0 <=? m)%Z && (m mod 10 ^ (- e) =? 0)%Z
              && (m / 10 ^ (- e) <? 2 ^ 32)%Z then
        Some (Z.to_nat (m / 10 ^ (- e)))
      else None
  | _ => None
  end.

(** The elements after [xs.length = n]: cut, or padded with holes. *)
Definition resize {A} (hole : A) (n : nat) (xs : list A) : list A :=
  take n xs ++ replicate (n - length xs) hole.

(** [xs.length = v]: the new length must be an array length. *)
Definition set_length {A} (hole : A) (xs : list A) (n : number)
    : result (list A) :=
  match array_length n with
  | Some l => Ok (resize hole l xs)
  | None => Throw RangeError
  end.

(** [xs[i] = v] *)
Definition set_elem {A} (hole : A) (i : nat) (v : A) (xs : list A) : list A :=
  if i <? length xs then <[i:=v]> xs
  else xs ++ replicate (i - length xs) hole ++ [v].

(** [o[k] = v], in strict code, for a [k] other than the inherited
    accessor [__proto__]. *)
Definition set (o : value) (k : string) (v : value) : result value :=
  match o with
  | VObj fs => Ok (VObj (set_field k v fs))
  | VArr xs ps =>
      if String.eqb k "length" then
        xs' ← set_length VUndef xs (ToNumber v); Ok (VArr xs' ps)
      else match array_index k with
           | Some i => Ok (VArr (set_elem VUndef i v xs) ps)
           | None => Ok (VArr xs (set_field k v ps))
           end
  | _ => Throw TypeError
  end.

(** [delete o[k]], in strict code: the length of an array cannot be
    deleted. *)
Definition delete (o : value) (k : string) : result value :=
  match o with
  | VObj fs => Ok (VObj (delete_field k fs))
  | VArr xs ps =>
      if String.eqb k "length" then Throw TypeError
      else match array_index k with
           | Some i => Ok (VArr (<[i:=VUndef]> xs) ps)
           | None => Ok (VArr xs (delete_field k ps))
           end
  | VUndef | VNull => Throw TypeError
  | _ => Ok o
  end.


(** *** Array and string methods *)

Definition clamp_end (len : nat) (end_ : value) (relative : bool) : nat :=
  let l := Z.of_nat len in
  let e := if is_undefined end_ then IInt l
           else ToIntegerOrInfinity (ToNumber end_) in
  Z.to_nat match e with
           | IInf true => 0
           | IInf false => l
           | IInt z => if (z <? 0)%Z
                       then (if relative then Z.max (l + z) 0 else 0)
                       else Z.min z l
           end%Z.

(** [xs.slice(0, end)]; a negative end counts from the back. *)
Definition slice0 (xs : list value) (end_ : value) : list value :=
  take (clamp_end (length xs) end_ true) xs.

(** [s.substring(0, end)]; a negative end is 0. *)
Definition substring0 (s : string) (end_ : value) : string :=
  str_take (clamp_end (String.length s) end_ false) s.

(** [xs.splice(i, 1)] *)
Definition splice1 {A} (xs : list A) (i : nat) : list A :=
  take i xs ++ drop (S i) xs.

(** *** JSON *)

Definition hex_digit (n : nat) : string :=
  chr (if n <? 10 then 48 + n else 87 + n).

Definition quote_char (c : ascii) : string :=
  let n := nat_of_ascii c in
  if n =? 8 then "\b"
  else if n =? 9 then "\t"
  else if n =? 10 then "\n"
  else if n =? 12 then "\f"
  else if n =? 13 then "\r"
  else if n =? 34 then "\" +:+ chr 34
  else if n =? 92 then "\\"
  else if n <? 32 then "\u00" +:+ hex_digit (n / 16) +:+ hex_digit (n mod 16)
  else String c EmptyString.

Fixpoint quote_body (s : string) : string :=
  match s with
  | EmptyString => EmptyString
  | String c r => quote_char c +:+ quote_body r
  end.

(** [QuoteJSONString] *)
Definition quote (s : string) : string := chr 34 +:+ quote_body s +:+ chr 34.

Definition nl : string := chr 10.

Definition bracket (opening closing indent inner : string)
    (items : list string) : string :=
  match items with
  | [] => opening +:+ closing
  | _ => opening +:+ nl +:+ inner
         +:+ str_join ("," +:+ nl +:+ inner) items
         +:+ nl +:+ indent +:+ closing
  end.

(** [JSON.stringify(v, null, 2)] with the current indentation;
    [None] is the result [undefined]. *)
Fixpoint stringify (indent : string) (v : value) : option string :=
  match v with
  | VUndef => None
  | VNull => Some "null"
  | VBool true => Some "true"
  | VBool false => Some "false"
  | VNum (Fin m e) => Some (num_to_string (Fin m e))
  | VNum _ => Some "null"
  | VStr s => Some (quote s)
  | VArr xs _ =>
      let inner := indent +:+ "  " in
      Some (bracket "[" "]" indent inner
              (List.map (λ x, default "null" (stringify inner x)) xs))
  | VObj fs =>
      let inner := indent +:+ "  " in
      Some (bracket "{" "}" indent inner
              ((fix members (l : list (string * value)) : list string :=
                  match l with
                  | [] => []
                  | (k, x) :: r =>
                      match stringify inner x with
                      | Some t => (quote k +:+ ": " +:+ t) :: members r
                      | None => members r
                      end
                  end) fs))
  end.

(** What [JSON.parse(JSON.stringify(v))] rebuilds of [v]; [None] when
    there is nothing to print. *)
Fixpoint json_copy (v : value) : option value :=
  match v with
  | VUndef => None
  | VNull => Some VNull
  | VBool b => Some (VBool b)
  | VNum (Fin m e) => Some (VNum (Fin m e))
  | VNum _ => Some VNull
  | VStr s => Some (VStr s)
  | VArr xs _ =>
      Some (VArr (List.map (λ x, default VNull (json_copy x)) xs) [])
  | VObj fs =>
      Some (VObj ((fix copy_fields (l : list (string * value)) :=
                     match l with
                     | [] => []
                     | (k, x) :: r =>
                         match json_copy x with
                         | Some y => (k, y) :: copy_fields r
                         | None => copy_fields r
                         end
                     end) fs))
  end.

(** [JSON.parse(JSON.stringify(v))]: parsing the text [undefined]
    fails. *)
Definition json_roundtrip (v : value) : result value :=
  match json_copy v with
  | Some w => Ok w
  | None => Throw SyntaxError
  end.

End JS.

Import JS.

(** ** The service: data *)

Inductive operation : Type := OpAdd | OpRemove | OpReplace | OpSet.

(** [ConfigFix['suggestion']]; an optional member that is left out
    reads as [VUndef]. *)
Record Suggestion : Type := {
  sg_operation : operation;
  sg_path : string;
  sg_value : value;
  sg_oldValue : value;
}.

Record ConfigFix : Type := {
  fix_id : string;
  fix_error : value;
  fix_path : string;
  fix_description : string;
  fix_suggestion : Suggestion;
}.

(** The readings of [Date.now()] and [Math.random()] at the successive
    calls of [generateFixForError]. *)
Definition clock : Type := nat → number * number.

(** ** The service: synthesis of fixes *)

(** [path.split('/').filter((p) => p)]; only a string has [split]. *)
Definition pathParts (path : string) : list string :=
  filter (λ p, p ≠ EmptyString) (str_split "/" path).

Definition splitPath (path : value) : result (list string) :=
  match path with
  | VStr s => Ok (pathParts s)
  | _ => Throw TypeError
  end.

(** [k === s] for a string literal [s]. *)
Definition is_str (k : value) (s : string) : bool :=
  match k with VStr t => String.eqb t s | _ => false end.

Definition getErrorPath (error : value) : result value :=
  instancePath ← getP error "instancePath";
  if truthy instancePath then Ok instancePath
  else
    dataPath ← getP error "dataPath";
    if truthy dataPath then Ok dataPath else Ok (VStr EmptyString).

(** [convertType], where [String(value)] and [Number(value)] return. *)
Definition convertType (v expectedType : value) : value :=
  if is_str expectedType "string" then VStr (ToString v)
  else if is_str expectedType "number" then
    let num := ToNumber v in
    if isNaN num then VUndef else VNum num
  else if is_str expectedType "boolean" then
    match v with
    | VStr s => VBool (String.eqb (toLowerCase s) "true")
    | _ => VBool (truthy v)
    end
  else if is_str expectedType "array" then
    if isArray v then v else arr [v]
  else if is_str expectedType "object" then
    match v with
    | VArr _ _ | VObj _ => v
    | _ => VObj []
    end
  else VUndef.

Definition typeDefault (type : value) : value :=
  if is_str type "string" then VStr EmptyString
  else if is_str type "number" then VNum (Fin 0 0)
  else if is_str type "boolean" then VBool false
  else if is_str type "array" then arr []
  else if is_str type "object" then VObj []
  else VNull.

Definition getDefaultValue (error propertyName : value) : result value :=
  schema ← getP error "schema";
  if negb (is_undefined (getOpt schema "default")) then
    Ok (get schema "default")
  else
    parentSchema ← getP error "parentSchema";
    let declared :=
      getOpt (getOpt (getOpt parentSchema "properties")
                     (ToString propertyName)) "default" in
    if negb (is_undefined declared) then Ok declared
    else
      params ← getP error "params";
      let type := if truthy (getOpt params "type") then getOpt params "type"
                  else getOpt schema "type" in
      Ok (typeDefault type).

(** The loop at the head of [generateFixForError]. *)
Fixpoint navigate (currentValue : value) (parts : list string) : value :=
  match parts with
  | [] => currentValue
  | part :: rest =>
      if is_object currentValue then
        match indexed currentValue part with
        | Some xs => navigate (elem xs (parseInt part)) rest
        | None => navigate (get currentValue part) rest
        end
      else VUndef
  end.

(** [error.params.name] *)
Definition param (error : value) (name : string) : result value :=
  params ← getP error "params"; getP params name.

Definition joinPath (path property : value) : string :=
  if truthy path then ToString path +:+ "/" +:+ ToString property
  else "/" +:+ ToString property.

Definition mkFix (id : string) (error : value) (path : string)
    (description : string) (s : Suggestion) : result (option ConfigFix) :=
  Ok (Some {| fix_id := id; fix_error := error; fix_path := path;
              fix_description := description; fix_suggestion := s |}).

(** [generateFixForError].  The description of a branch that returns
    no fix is left out; building it converts [params.limit], the
    elements of [params.allowedValues] or [message] to a string, which
    returns for records that are [convertible]. *)
Definition generateFixForError (stamp : number * number)
    (error config path : value) : result (option ConfigFix) :=
  keyword ← getP error "keyword";
  let id := ToString keyword +:+ "-" +:+ ToString path +:+ "-"
            +:+ num_to_string stamp.1 +:+ "-" +:+ num_to_string stamp.2 in
  parts ← splitPath path;
  let currentValue := navigate config parts in
  let spath := ToString path in
  if is_str keyword "required" then
    missingProperty ← param error "missingProperty";
    defaultValue ← getDefaultValue error missingProperty;
    mkFix id error spath
      ("Missing required property " +:+ chr 34 +:+ ToString missingProperty
       +:+ chr 34 +:+ ". Add with default value.")
      {| sg_operation := OpAdd; sg_path := joinPath path missingProperty;
         sg_value := defaultValue; sg_oldValue := VUndef |}
  else if is_str keyword "type" then
    expectedType ← param error "type";
    let convertedValue := convertType currentValue expectedType in
    if negb (is_undefined convertedValue) then
      mkFix id error spath
        ("Property has wrong type (expected " +:+ ToString expectedType
         +:+ "). Convert value.")
        {| sg_operation := OpReplace; sg_path := spath;
           sg_value := convertedValue; sg_oldValue := currentValue |}
    else
      defaultVal ← getDefaultValue error
                     (VStr (default EmptyString (last parts)));
      mkFix id error spath
        ("Property has wrong type (expected " +:+ ToString expectedType
         +:+ "). Set to default value.")
        {| sg_operation := OpReplace; sg_path := spath;
           sg_value := defaultVal; sg_oldValue := currentValue |}
  else if is_str keyword "additionalProperties" then
    invalidProperty ← param error "additionalProperty";
    mkFix id error spath
      ("Invalid property " +:+ chr 34 +:+ ToString invalidProperty
       +:+ chr 34 +:+ " is not allowed. Remove it.")
      {| sg_operation := OpRemove; sg_path := joinPath path invalidProperty;
         sg_value := VUndef;
         sg_oldValue := getOpt currentValue (ToString invalidProperty) |}
  else if is_str keyword "minItems" then
    limit ← param error "limit"; Ok None
  else if is_str keyword "maxItems" then
    match currentValue with
    | VArr xs _ =>
        limit ← param error "limit";
        if num_ltb (ToNumber limit) (num_of_nat (length xs)) then
          mkFix id error spath
            ("Array has too many items (max " +:+ ToString limit
             +:+ "). Remove excess items.")
            {| sg_operation := OpReplace; sg_path := spath;
               sg_value := arr (slice0 xs limit);
               sg_oldValue := currentValue |}
        else Ok None
    | _ => Ok None
    end
  else if is_str keyword "minLength" then
    limit ← param error "limit"; Ok None
  else if is_str keyword "maxLength" then
    match currentValue with
    | VStr s =>
        limit ← param error "limit";
        if num_ltb (ToNumber limit) (num_of_nat (String.length s)) then
          mkFix id error spath
            ("String is too long (max " +:+ ToString limit
             +:+ " characters). Truncate.")
            {| sg_operation := OpReplace; sg_path := spath;
               sg_value := VStr (substring0 s limit);
               sg_oldValue := currentValue |}
        else Ok None
    | _ => Ok None
    end
  else if is_str keyword "minimum" then
    match currentValue with
    | VNum n =>
        limit ← param error "limit";
        if num_ltb n (ToNumber limit) then
          mkFix id error spath
            ("Value is too small (minimum " +:+ ToString limit
             +:+ "). Set to minimum.")
            {| sg_operation := OpReplace; sg_path := spath;
               sg_value := limit; sg_oldValue := currentValue |}
        else Ok None
    | _ => Ok None
    end
  else if is_str keyword "maximum" then
    match currentValue with
    | VNum n =>
        limit ← param error "limit";
        if num_ltb (ToNumber limit) n then
          mkFix id error spath
            ("Value is too large (maximum " +:+ ToString limit
             +:+ "). Set to maximum.")
            {| sg_operation := OpReplace; sg_path := spath;
               sg_value := limit; sg_oldValue := currentValue |}
        else Ok None
    | _ => Ok None
    end
  else if is_str keyword "enum" then
    allowedValues ← param error "allowedValues";
    match allowedValues with
    | VArr _ _ => Ok None
    | _ => Throw TypeError
    end
  else Ok None.

(** [`${error.keyword}:${path}`] *)
Definition pathKey (keyword path : value) : string :=
  ToString keyword +:+ ":" +:+ ToString path.

(** The loop of [generateFixes]; [tick] counts the calls of
    [generateFixForError] made so far. *)
Fixpoint generateFixes_loop (clk : clock) (tick : nat) (config : value)
    (errors : list value) (fixes : list ConfigFix)
    (processedPaths : gset string) : result (list ConfigFix) :=
  match errors with
  | [] => Ok fixes
  | error :: rest =>
      path ← getErrorPath error;
      keyword ← getP error "keyword";
      if decide (pathKey keyword path ∈ processedPaths) then
        generateFixes_loop clk tick config rest fixes processedPaths
      else
        fix_ ← generateFixForError (clk tick) error config path;
        match fix_ with
        | Some f =>
            generateFixes_loop clk (S tick) config rest (fixes ++ [f])
              ({[pathKey keyword path]} ∪ processedPaths)
        | None =>
            generateFixes_loop clk (S tick) config rest fixes processedPaths
        end
  end.

Definition generateFixes (clk : clock) (errors : list value)
    (config : value) : result (list ConfigFix) :=
  generateFixes_loop clk 0 config errors [] ∅.

(** ** The service: applying a fix

    Over immutable trees a reference to a container inside the document
    is the access path that leads to it; an assignment through the
    reference rebuilds the document along that path. *)

Inductive step : Type :=
| SIdx (i : nat)
| SKey (k : string).

Definition loc : Type := list step.

Fixpoint read (root : value) (l : loc) : value :=
  match l with
  | [] => root
  | SIdx i :: r =>
      match root with
      | VArr xs _ => read (elem xs i) r
      | _ => VUndef
      end
  | SKey k :: r => read (get root k) r
  end.

(** Replaces the container at [l] by what [f] makes of it. *)
Fixpoint modify (root : value) (l : loc) (f : value → result value)
    : result value :=
  match l with
  | [] => f root
  | SIdx i :: r =>
      match root with
      | VArr xs ps =>
          x ← modify (elem xs i) r f; Ok (VArr (<[i:=x]> xs) ps)
      | _ => Ok root
      end
  | SKey k :: r =>
      match root with
      | VObj fs =>
          x ← modify (field k fs) r f; Ok (VObj (replace_field k x fs))
      | VArr xs ps =>
          x ← modify (field k ps) r f; Ok (VArr xs (replace_field k x ps))
      | _ => Ok root
      end
  end.

(** The container that [getNestedObject] puts in for a missing one. *)
Definition fresh_container (rest : list string) : value :=
  match rest with
  | nextPart :: _ => if test_digits nextPart then arr [] else VObj []
  | [] => VObj []
  end.

(** The loop of [getNestedObject]: [current] is the container at
    [here] in [root].  The result is the document as the loop leaves
    it, and where and what the returned container is, or [None] for
    [undefined]. *)
Fixpoint getNestedObject_loop (root : value) (here : loc) (current : value)
    (parts : list string) (createMissing : bool)
    : result (value * option (loc * value)) :=
  match parts with
  | [] => Ok (root, Some (here, current))
  | part :: rest =>
      match indexed current part with
      | Some xs =>
          let index := parseInt part in
          if index <? length xs then
            getNestedObject_loop root (here ++ [SIdx index])
              (elem xs index) rest createMissing
          else Ok (root, None)
      | None =>
          if is_object current then
            if is_undefined (get current part) then
              if createMissing then
                root' ← modify root here
                          (λ c, set c part (fresh_container rest));
                getNestedObject_loop root' (here ++ [SKey part])
                  (fresh_container rest) rest createMissing
              else Ok (root, None)
            else getNestedObject_loop root (here ++ [SKey part])
                   (get current part) rest createMissing
          else Ok (root, None)
      end
  end.

Definition getNestedObject (obj : value) (parts : list string)
    (createMissing : bool) : result (value * option (loc * value)) :=
  getNestedObject_loop obj [] obj parts createMissing.

Definition lastPart (parts : list string) : string :=
  default EmptyString (last parts).

Definition setProperty (obj : value) (parts : list string) (v : value)
    : result value :=
  match parts with
  | [] => Ok obj
  | _ =>
      '(obj', found) ← getNestedObject obj (removelast parts) true;
      match found with
      | Some (l, parent) =>
          if is_object parent then
            match parent with
            | VArr xs ps =>
                if test_digits (lastPart parts) then
                  let index := parseInt (lastPart parts) in
                  if index <? length xs then
                    modify obj' l (λ _, Ok (VArr (<[index:=v]> xs) ps))
                  else if index =? length xs then
                    modify obj' l (λ _, Ok (VArr (xs ++ [v]) ps))
                  else Ok obj'
                else modify obj' l (λ p, set p (lastPart parts) v)
            | _ => modify obj' l (λ p, set p (lastPart parts) v)
            end
          else Ok obj'
      | None => Ok obj'
      end
  end.

Definition removeProperty (obj : value) (parts : list string)
    : result value :=
  match parts with
  | [] => Ok obj
  | _ =>
      '(obj', found) ← getNestedObject obj (removelast parts) false;
      match found with
      | Some (l, parent) =>
          if is_object parent then
            match parent with
            | VArr xs ps =>
                if test_digits (lastPart parts) then
                  modify obj' l
                    (λ _, Ok (VArr (splice1 xs (parseInt (lastPart parts)))
                                   ps))
                else modify obj' l (λ p, delete p (lastPart parts))
            | _ => modify obj' l (λ p, delete p (lastPart parts))
            end
          else Ok obj'
      | None => Ok obj'
      end
  end.

Definition applyFix (config : value) (f : ConfigFix) : result value :=
  configCopy ← json_roundtrip config;
  let parts := pathParts f.(fix_suggestion).(sg_path) in
  match f.(fix_suggestion).(sg_operation) with
  | OpRemove => removeProperty configCopy parts
  | OpAdd | OpReplace | OpSet =>
      setProperty configCopy parts f.(fix_suggestion).(sg_value)
  end.

Fixpoint getNestedValue (current : value) (parts : list string) : value :=
  match parts with
  | [] => current
  | part :: rest =>
      if is_object current then
        match indexed current part with
        | Some xs => getNestedValue (elem xs (parseInt part)) rest
        | None => getNestedValue (get current part) rest
        end
      else VUndef
  end.

Record Diff : Type := {
  before : string;
  after : string;
  diff_path : string;
}.

(** [v === undefined ? '(undefined)' : JSON.stringify(v, null, 2)] *)
Definition render (v : value) : string :=
  default "(undefined)" (stringify EmptyString v).

Definition generateDiff (f : ConfigFix) (config : value) : result Diff :=
  beforeConfig ← json_roundtrip config;
  afterConfig ← applyFix beforeConfig f;
  let parts := pathParts f.(fix_suggestion).(sg_path) in
  let beforeValue := getNestedValue beforeConfig parts in
  let afterValue := getNestedValue afterConfig parts in
  let beforeValue :=
    if is_undefined beforeValue then
      match f.(fix_suggestion).(sg_operation) with
      | OpAdd => VNull
      | OpRemove => f.(fix_suggestion).(sg_oldValue)
      | _ => beforeValue
      end
    else beforeValue in
  Ok {| before := render beforeValue; after := render afterValue;
        diff_path := f.(fix_suggestion).(sg_path) |}.

(** ** The applicator over a mutable store

    Objects and arrays live in a store and are held by reference, so
    that two holders of one object see each other's updates.  [applyFix]
    is given here as the source has it: a copy is allocated, and the
    assignments go through references into the store. *)

Module Store.

Definition addr : Type := nat.

(** What a variable or a property holds. *)
Inductive hval : Type :=
| HUndef
| HNull
| HBool (b : bool)
| HNum (n : number)
| HStr (s : string)
| HRef (a : addr).

Inductive hobj : Type :=
| HArr (elems : list hval) (props : list (string * hval))
| HObj (fields : list (string * hval)).

(** The store; an allocation appends to it. *)
Abbreviation heap := (list hobj).

Definition is_undef (v : hval) : bool :=
  match v with HUndef => true | _ => false end.

Definition hfield (k : string) (fs : list (string * hval)) : hval :=
  default HUndef (assoc k fs).

Definition helem (xs : list hval) (i : nat) : hval :=
  default HUndef (xs !! i).

(** The tree that a held value unfolds to; [None] when the fuel runs
    out or a reference dangles. *)
Fixpoint reify (fuel : nat) (h : heap) (v : hval) : option value :=
  match v with
  | HUndef => Some VUndef
  | HNull => Some VNull
  | HBool b => Some (VBool b)
  | HNum n => Some (VNum n)
  | HStr s => Some (VStr s)
  | HRef a =>
      match fuel with
      | O => None
      | S fuel' =>
          let field '(k, x) := pair k <$> reify fuel' h x in
          match h !! a with
          | Some (HArr xs ps) =>
              xs' ← mapM (reify fuel' h) xs;
              ps' ← mapM field ps;
              Some (VArr xs' ps')
          | Some (HObj fs) => VObj <$> mapM field fs
          | None => None
          end
      end
  end.

(** The unfolding with fuel for every acyclic value of the store: a
    chain of distinct objects is no longer than the store, so that the
    fuel runs out on the cyclic values only. *)
Definition snapshot (h : heap) (v : hval) : option value :=
  reify (S (length h)) h v.

(** Allocates the members of a list one after the other. *)
Definition alloc_all {A B} (f : A → heap → heap * B)
    : list A → heap → heap * list B :=
  fix go (l : list A) (h : heap) : heap * list B :=
    match l with
    | [] => (h, [])
    | x :: r =>
        let '(h1, x') := f x h in
        let '(h2, r') := go r h1 in
        (h2, x' :: r')
    end.

(** Allocates the tree [v], children first. *)
Fixpoint alloc (v : JS.value) (h : heap) : heap * hval :=
  let alloc_field (kv : string * JS.value) (h : heap) :=
    let '(h1, x') := alloc kv.2 h in (h1, (kv.1, x')) in
  match v with
  | VUndef => (h, HUndef)
  | VNull => (h, HNull)
  | VBool b => (h, HBool b)
  | VNum n => (h, HNum n)
  | VStr s => (h, HStr s)
  | VArr xs ps =>
      let '(h1, xs') := alloc_all alloc xs h in
      let '(h2, ps') := alloc_all alloc_field ps h1 in
      (h2 ++ [HArr xs' ps'], HRef (length h2))
  | VObj fs =>
      let '(h1, fs') := alloc_all alloc_field fs h in
      (h1 ++ [HObj fs'], HRef (length h1))
  end.

(** [JSON.parse(JSON.stringify(v))]: printing a cyclic value is a
    [TypeError], parsing the text [undefined] a [SyntaxError]. *)
Definition json_roundtrip (h : heap) (v : hval) : heap * result hval :=
  match snapshot h v with
  | None => (h, Throw TypeError)
  | Some t =>
      match json_copy t with
      | None => (h, Throw SyntaxError)
      | Some c => let '(h', r) := alloc c h in (h', Ok r)
      end
  end.

(** [Array.isArray(o) && /^\\d+$/.test(part)] *)
Definition indexed (o : hobj) (part : string) : option (list hval) :=
  match o with
  | HArr xs _ => if test_digits part then Some xs else None
  | HObj _ => None
  end.

(** [o[k]], for an own property [k] or none at all: the store holds
    the objects of the program, and not the built-in prototypes. *)
Definition get (o : hobj) (k : string) : hval :=
  match o with
  | HArr xs ps =>
      if String.eqb k "length" then HNum (num_of_nat (length xs))
      else match array_index k with
           | Some i => helem xs i
           | None => hfield k ps
           end
  | HObj fs => hfield k fs
  end.

(** [ToNumber] of a held value; a value without a tree is taken not
    to be a number. *)
Definition ToNumber (h : heap) (v : hval) : number :=
  match snapshot h v with
  | Some t => JS.ToNumber t
  | None => NaN
  end.

(** [o[k] = v] *)
Definition set (h : heap) (o : hobj) (k : string) (v : hval) : result hobj :=
  match o with
  | HObj fs => Ok (HObj (set_field k v fs))
  | HArr xs ps =>
      if String.eqb k "length" then
        xs' ← set_length HUndef xs (ToNumber h v); Ok (HArr xs' ps)
      else match array_index k with
           | Some i => Ok (HArr (set_elem HUndef i v xs) ps)
           | None => Ok (HArr xs (set_field k v ps))
           end
  end.

(** [delete o[k]] *)
Definition delete (o : hobj) (k : string) : result hobj :=
  match o with
  | HObj fs => Ok (HObj (delete_field k fs))
  | HArr xs ps =>
      if String.eqb k "length" then Throw TypeError
      else match array_index k with
           | Some i => Ok (HArr (<[i:=HUndef]> xs) ps)
           | None => Ok (HArr xs (delete_field k ps))
           end
  end.

Definition fresh_container (rest : list string) : hobj :=
  match rest with
  | nextPart :: _ => if test_digits nextPart then HArr [] [] else HObj []
  | [] => HObj []
  end.

(** [getNestedObject]; [HUndef] is the result [undefined]. *)
Fixpoint getNestedObject (h : heap) (current : hval) (parts : list string)
    (createMissing : bool) : heap * result hval :=
  match parts with
  | [] => (h, Ok current)
  | part :: rest =>
      match current with
      | HRef a =>
          match h !! a with
          | Some o =>
              match indexed o part with
              | Some xs =>
                  let index := parseInt part in
                  if index <? length xs then
                    getNestedObject h (helem xs index) rest createMissing
                  else (h, Ok HUndef)
              | None =>
                  if is_undef (get o part) then
                    if createMissing then
                      let h1 := h ++ [fresh_container rest] in
                      let fresh := HRef (length h) in
                      match set h1 o part fresh with
                      | Ok o' =>
                          getNestedObject (<[a:=o']> h1) fresh rest
                            createMissing
                      | Throw e => (h1, Throw e)
                      end
                    else (h, Ok HUndef)
                  else getNestedObject h (get o part) rest createMissing
              end
          | None => (h, Ok HUndef)
          end
      | _ => (h, Ok HUndef)
      end
  end.

(** The object that [parent] holds, when
    [parent && typeof parent === 'object']. *)
Definition held (h : heap) (parent : hval) : option (addr * hobj) :=
  match parent with
  | HRef a => pair a <$> h !! a
  | _ => None
  end.

Definition setProperty (h : heap) (obj : hval) (parts : list string)
    (v : hval) : heap * result unit :=
  match parts with
  | [] => (h, Ok ())
  | _ =>
      match getNestedObject h obj (removelast parts) true with
      | (h1, Throw e) => (h1, Throw e)
      | (h1, Ok parent) =>
          match held h1 parent with
          | Some (a, o) =>
              match o with
              | HArr xs ps =>
                  if test_digits (lastPart parts) then
                    let index := parseInt (lastPart parts) in
                    if index <? length xs then
                      (<[a:=HArr (<[index:=v]> xs) ps]> h1, Ok ())
                    else if index =? length xs then
                      (<[a:=HArr (xs ++ [v]) ps]> h1, Ok ())
                    else (h1, Ok ())
                  else match set h1 o (lastPart parts) v with
                       | Ok o' => (<[a:=o']> h1, Ok ())
                       | Throw e => (h1, Throw e)
                       end
              | HObj _ =>
                  match set h1 o (lastPart parts) v with
                  | Ok o' => (<[a:=o']> h1, Ok ())
                  | Throw e => (h1, Throw e)
                  end
              end
          | None => (h1, Ok ())
          end
      end
  end.

Definition removeProperty (h : heap) (obj : hval) (parts : list string)
    : heap * result unit :=
  match parts with
  | [] => (h, Ok ())
  | _ =>
      match getNestedObject h obj (removelast parts) false with
      | (h1, Throw e) => (h1, Throw e)
      | (h1, Ok parent) =>
          match held h1 parent with
          | Some (a, o) =>
              match o with
              | HArr xs ps =>
                  if test_digits (lastPart parts) then
                    (<[a:=HArr (splice1 xs (parseInt (lastPart parts))) ps]>
                       h1, Ok ())
                  else match delete o (lastPart parts) with
                       | Ok o' => (<[a:=o']> h1, Ok ())
                       | Throw e => (h1, Throw e)
                       end
              | HObj _ =>
                  match delete o (lastPart parts) with
                  | Ok o' => (<[a:=o']> h1, Ok ())
                  | Throw e => (h1, Throw e)
                  end
              end
          | None => (h1, Ok ())
          end
      end
  end.

(** A held value that, if it is a reference, points into the part
    [lo, hi) of the store; an object all of whose members do; a store
    whose objects from [lo] on refer to that part only. *)
Definition val_in (lo hi : nat) (v : hval) : Prop :=
  match v with
  | HRef a => lo ≤ a < hi
  | _ => True
  end.

Definition obj_in (lo hi : nat) (o : hobj) : Prop :=
  match o with
  | HArr xs ps =>
      Forall (val_in lo hi) xs ∧ Forall (λ kv, val_in lo hi kv.2) ps
  | HObj fs => Forall (λ kv, val_in lo hi kv.2) fs
  end.

Definition region (lo : nat) (h : heap) : Prop :=
  ∀ a o, lo ≤ a → h !! a = Some o → obj_in lo (length h) o.

(** What an allocation does to the store: it extends it, by objects
    that refer to the new part only. *)
Definition allocates {A B} (lo : nat) (P : nat → B → Prop)
    (f : A → heap → heap * B) (x : A) : Prop :=
  ∀ h h' r, lo ≤ length h → region lo h → f x h = (h', r) →
    (∃ ext, h' = h ++ ext) ∧ region lo h' ∧ P (length h') r.

(** The frame of an update: the store below [lo] is as it was, the
    store has not shrunk, and its part from [lo] on is closed. *)
Definition framed (lo : nat) (h h' : heap) : Prop :=
  take lo h' = take lo h ∧ length h ≤ length h' ∧ region lo h'.

(** What [applyFix] reads of its fix: [fix.suggestion.operation],
    [fix.suggestion.path] and [fix.suggestion.value], the latter as the
    fix holds it. *)
Record Suggestion : Type := {
  operation : operation;
  path : string;
  value : hval;
}.

Definition applyFix (h : heap) (config : hval) (s : Suggestion)
    : heap * result hval :=
  match json_roundtrip h config with
  | (h1, Throw e) => (h1, Throw e)
  | (h1, Ok configCopy) =>
      let parts := pathParts s.(path) in
      let '(h2, r) :=
        match s.(operation) with
        | OpRemove => removeProperty h1 configCopy parts
        | OpAdd | OpReplace | OpSet =>
            setProperty h1 configCopy parts s.(value)
        end in
      (h2, _ ← r; Ok configCopy)
  end.

(** [{xs: [1, 2]}] in a store, and two assignments to the length of
    its sequence. *)
Definition sample_store : heap :=
  [HArr [HNum (Fin 1 0); HNum (Fin 2 0)] []; HObj [("xs", HRef 0)]].

Definition sample_root : hval := HRef 1.

Definition set_length_to (n : Z) : Suggestion :=
  {| operation := OpSet; path := "/xs/length"; value := HNum (Fin n 0) |}.

(** A replacement of [/xs] by the sequence that the document itself
    holds there, as [convertType] proposes it for a sequence under the
    expected type [array] or [object]. *)
Definition replace_by_own : Suggestion :=
  {| operation := OpReplace; path := "/xs"; value := HRef 0 |}.

End Store.

(** ** Notions used in the statements *)

(** The path that [getErrorPath] returns for an error record. *)
Definition path_of (error : value) : value :=
  if truthy (get error "instancePath") then get error "instancePath"
  else if truthy (get error "dataPath") then get error "dataPath"
  else VStr EmptyString.

(** The key under which [generateFixes] files an error, and a fix. *)
Definition error_key (error : value) : string :=
  pathKey (get error "keyword") (path_of error).

Definition fix_key (f : ConfigFix) : string :=
  pathKey (get (fix_error f) "keyword") (VStr (fix_path f)).

(** The dedup key as a pair. *)
Definition fix_pair (f : ConfigFix) : value * string :=
  (get (fix_error f) "keyword", fix_path f).

(** The keywords that [generateFixForError] tells apart. *)
Definition recognized : list string :=
  ["required"; "type"; "additionalProperties"; "minItems"; "maxItems";
   "minLength"; "maxLength"; "minimum"; "maximum"; "enum"].

Definition is_recognized (keyword : value) : bool :=
  existsb (is_str keyword) recognized.

Definition is_string (v : value) : bool :=
  match v with VStr _ => true | _ => false end.

(** An error record as a validator hands it over: a record whose path
    is a string and which, under a recognized keyword, carries its
    [params] (with the array [allowedValues] for [enum]). *)
Definition well_formed (error : value) : bool :=
  negb (is_nullish error)
  && is_string (path_of error)
  && (negb (is_recognized (get error "keyword"))
      || (negb (is_nullish (get error "params"))
          && (negb (is_str (get error "keyword") "enum")
              || isArray (get (get error "params") "allowedValues")))).

(** A document: a tree of maps and sequences over strings, finite
    numbers, booleans and null. *)
Fixpoint is_json (v : value) : bool :=
  match v with
  | VUndef => false
  | VNum (Fin _ _) => true
  | VNum _ => false
  | VNull | VBool _ | VStr _ => true
  | VArr xs ps =>
      forallb is_json xs && match ps with [] => true | _ => false end
  | VObj fs => forallb (λ kv, is_json kv.2) fs
  end.

(** The default-value resolution order in the words of the
    specification: the violated schema fragment's own default, else the
    enclosing schema's declared default for the property, else the
    built-in default of the type, else null. *)
Definition present (v : value) : option value :=
  if is_undefined v then None else Some v.

Definition builtinDefault (type : value) : option value :=
  if is_str type "string" then Some (VStr EmptyString)
  else if is_str type "number" then Some (VNum (Fin 0 0))
  else if is_str type "boolean" then Some (VBool false)
  else if is_str type "array" then Some (arr [])
  else if is_str type "object" then Some (VObj [])
  else None.

Definition resolveDefault (own declared : option value) (type : value)
    : value :=
  default (default (default VNull (builtinDefault type)) declared) own.

Definition ownDefault (error : value) : option value :=
  present (getOpt (get error "schema") "default").

Definition declaredDefault (error : value) (name : string) : option value :=
  present (getOpt (getOpt (getOpt (get error "parentSchema") "properties")
                          name) "default").

Definition hintedType (error : value) : value :=
  if truthy (getOpt (get error "params") "type")
  then getOpt (get error "params") "type"
  else getOpt (get error "schema") "type".

(** A fix can be produced for the error, whatever the clock reads. *)
Definition fixable (error config : value) : Prop :=
  ∃ stamp f,
    generateFixForError stamp error config (path_of error) = Ok (Some f).

(** The runs of the loop of [generateFixes] that end normally, one rule
    per way through its body: the key was seen, no fix came out, or a
    fix came out and the key was filed. *)
Inductive run (clk : clock) (config : value)
    : nat → list value → list ConfigFix → gset string
      → list ConfigFix → Prop :=
| run_done tick fixes seen :
    run clk config tick [] fixes seen fixes
| run_seen tick error rest fixes seen out :
    is_nullish error = false →
    error_key error ∈ seen →
    run clk config tick rest fixes seen out →
    run clk config tick (error :: rest) fixes seen out
| run_unfixable tick error rest fixes seen out :
    error_key error ∉ seen →
    generateFixForError (clk tick) error config (path_of error) = Ok None →
    run clk config (S tick) rest fixes seen out →
    run clk config tick (error :: rest) fixes seen out
| run_fix tick error rest fixes seen out f :
    error_key error ∉ seen →
    generateFixForError (clk tick) error config (path_of error)
      = Ok (Some f) →
    run clk config (S tick) rest (fixes ++ [f])
      ({[error_key error]} ∪ seen) out →
    run clk config tick (error :: rest) fixes seen out.

(** The coercion table in the words of the specification. *)
Definition coercionTable (v expectedType : value) : value :=
  if is_str expectedType "string" then VStr (ToString v)
  else if is_str expectedType "number" then
    match ToNumber v with
    | Fin m e => VNum (Fin m e)
    | _ => VUndef
    end
  else if is_str expectedType "boolean" then
    match v with
    | VStr s => VBool (String.eqb (toLowerCase s) "true")
    | _ => VBool (truthy v)
    end
  else if is_str expectedType "array" then
    match v with
    | VArr _ _ => v
    | _ => arr [v]
    end
  else if is_str expectedType "object" then
    match v with
    | VObj _ => v
    | _ => VObj []
    end
  else VUndef.

(** The value that the diff shows as [before]. *)
Definition shownBefore (op : operation) (oldValue existing : value) : value :=
  match existing, op with
  | VUndef, OpAdd => VNull
  | VUndef, OpRemove => oldValue
  | _, _ => existing
  end.

(** A location that leads through containers of [root] only. *)
Fixpoint valid (root : value) (l : loc) : Prop :=
  match l with
  | [] => True
  | SIdx i :: r =>
      match root with
      | VArr xs _ => i < length xs ∧ valid (elem xs i) r
      | _ => False
      end
  | SKey k :: r =>
      match root with
      | VObj fs => is_Some (assoc k fs) ∧ valid (field k fs) r
      | VArr xs ps =>
          k ≠ "length" ∧ array_index k = None
          ∧ is_Some (assoc k ps) ∧ valid (field k ps) r
      | _ => False
      end
  end.

(** ** Where the model and the host language part

    The names that maps and sequences inherit from the built-in
    prototypes: those of the prototype of all objects, and after them
    those of the prototype of all arrays.  [get], [set] and [delete]
    know own properties only.  They do what the host language does as
    long as no such name is read where it is no own property, and
    [__proto__], which the host language assigns through an inherited
    accessor, is not written. *)
Definition inherited : list string :=
  ["__proto__"; "__defineGetter__"; "__defineSetter__"; "__lookupGetter__";
   "__lookupSetter__"; "constructor"; "hasOwnProperty"; "isPrototypeOf";
   "propertyIsEnumerable"; "toLocaleString"; "toString"; "valueOf";
   "at"; "concat"; "copyWithin"; "entries"; "every"; "fill"; "filter";
   "find"; "findIndex"; "findLast"; "findLastIndex"; "flat"; "flatMap";
   "forEach"; "includes"; "indexOf"; "join"; "keys"; "lastIndexOf"; "map";
   "pop"; "push"; "reduce"; "reduceRight"; "reverse"; "shift"; "slice";
   "some"; "sort"; "splice"; "toReversed"; "toSorted"; "toSpliced";
   "unshift"; "values"; "with"].

Definition inherits (k : string) : bool := existsb (String.eqb k) inherited.

(** Path segments none of which names an inherited property. *)
Definition plain_path (parts : list string) : bool :=
  forallb (λ p, negb (inherits p)) parts.

(** A numeric text that the host language reads without rounding: at
    most 15 significant digits, within the range of the normal binary64
    numbers.  (A text of more digits is rounded to 53 bits, which
    [StringToNumber] does not do.) *)
Definition exact (n : number) : bool :=
  match n with
  | Fin m e =>
      (m =? 0)%Z
      || ((Z.abs m <? 10 ^ 15)%Z && (-290 <=? e)%Z && (e <=? 290)%Z)
  | _ => true
  end.

(** A value whose conversion to a number is not rounded: a number, or
    a value whose text is [exact]. *)
Definition unrounded (v : value) : bool :=
  match v with
  | VNum _ => true
  | _ => exact (ToNumber v)
  end.

(** A value that the host language converts to a string and to a
    number without throwing, as every value inside it.  [String(v)],
    [Number(v)], a template literal, [join], a comparison and the
    assignment of a length call the method [toString] of a map or
    sequence (and that one [join]); an own property of that name, which
    in a document is never a function, hides the inherited method, and
    the conversion throws a [TypeError].  So no map or sequence in a
    convertible value has an own property [toString], and no sequence
    an own property [join]. *)
Fixpoint convertible (v : value) : bool :=
  match v with
  | VArr xs ps =>
      forallb convertible xs
      && forallb (λ kv, negb (String.eqb kv.1 "toString")
                        && negb (String.eqb kv.1 "join")
                        && convertible kv.2) ps
  | VObj fs =>
      forallb (λ kv, negb (String.eqb kv.1 "toString") && convertible kv.2) fs
  | _ => true
  end.

(** ** Sample records and documents *)

Definition sample_clock : clock :=
  λ n, (Fin 1700000000000 0, Fin (Z.of_nat (S n)) (-3)).

Definition num (z : Z) : value := VNum (Fin z 0).

Definition required_error (path property : string) : value :=
  VObj [("keyword", VStr "required"); ("instancePath", VStr path);
        ("params", VObj [("missingProperty", VStr property)])].

Definition type_error (path type : string) : value :=
  VObj [("keyword", VStr "type"); ("instancePath", VStr path);
        ("params", VObj [("type", VStr type)])].

Definition limit_error (keyword path : string) (limit : Z) : value :=
  VObj [("keyword", VStr keyword); ("instancePath", VStr path);
        ("params", VObj [("limit", num limit)])].

(** A record whose [instancePath] is empty and whose path is under
    [dataPath], as older validators name it. *)
Definition data_error (keyword path : string) (limit : Z) : value :=
  VObj [("keyword", VStr keyword); ("instancePath", VStr EmptyString);
        ("dataPath", VStr path); ("params", VObj [("limit", num limit)])].

(** A record without [params]. *)
Definition bare_error (keyword path : string) : value :=
  VObj [("keyword", VStr keyword); ("instancePath", VStr path)].


Definition suggest (op : operation) (path : string) (v old : value)
    : ConfigFix :=
  {| fix_id := "fix"; fix_error := VNull; fix_path := path;
     fix_description := EmptyString;
     fix_suggestion := {| sg_operation := op; sg_path := path;
                          sg_value := v; sg_oldValue := old |} |}.

(** [{a: {}}], [{xs: [1, 2]}], [{x: 7}] and [{x: 7, y: 9}] *)
Definition doc_a : value := VObj [("a", VObj [])].
Definition doc_xs : value := VObj [("xs", arr [num 1; num 2])].
Definition doc_x : value := VObj [("x", num 7)].
Definition doc_xy : value := VObj [("x", num 7); ("y", num 9)].

(** Sample edits for comparing the two renderings of [applyFix]: every
    path of up to two segments (and some of three) over a few segment
    names, on three documents, as a set and as a remove, with several
    values. *)
Definition sample_segments : list string :=
  ["a"; "xs"; "0"; "1"; "2"; "5"; "length"; "k"; "s"; "n"].

Definition sample_paths : list string :=
  (λ l, "/" +:+ str_join "/" l) <$>
    (((λ a, [a]) <$> sample_segments)
     ++ (a ← sample_segments; b ← sample_segments; [[a; b]])
     ++ (a ← ["a"; "xs"; "0"]; b ← sample_segments; c ← sample_segments;
         [[a; b; c]])).

Definition sample_documents : list value :=
  [VObj [("xs", arr [num 1; VObj [("k", num 2)]; arr [num 3]]);
         ("a", VObj [("xs", arr []); ("k", VNull)]);
         ("s", VStr "str"); ("n", VNull); ("0", VObj [])];
   arr [VObj [("a", num 1)]; arr [arr []; num 2]; VStr "x"];
   VObj []].

Definition sample_values : list value :=
  [num 7; VObj [("z", arr [num 1])]; VStr "3"; VUndef].

Definition sample_edits : list (value * operation * string * value) :=
  d ← sample_documents; op ← [OpSet; OpRemove]; p ← sample_paths;
  v ← sample_values; [(d, op, p, v)].

(** The edit over trees, and over a store that holds the document and
    the value: what is returned, unfolded, next to what the document
    unfolds to afterwards. *)
Definition edit_tree '(d, op, p, v) : result value * option value :=
  (applyFix d (suggest op p v VUndef), Some d).

Definition edit_store '(d, op, p, v) : result value * option value :=
  let '(h0, document) := Store.alloc d [] in
  let '(h1, held) := Store.alloc v h0 in
  let '(h, r) := Store.applyFix h1 document
                   {| Store.operation := op; Store.path := p;
                      Store.value := held |} in
  (c ← r; from_option Ok (Throw TypeError) (Store.snapshot h c),
   Store.snapshot h document).

(** ** Notions used in the further properties *)

(** A path segment as [split] and [filter] leave it: not empty, and
    free of the separator. *)
Definition is_segment (p : string) : Prop :=
  p ≠ EmptyString ∧ "/"%char ∉ list_ascii_of_string p.

(** The location [l] is where the path segments [parts] lead in [root]:
    each segment is taken as an element index in a sequence when it is
    a numeric literal, and as a key otherwise, and finds something
    there. *)
Fixpoint marks (root : value) (parts : list string) (l : loc) : Prop :=
  match parts, l with
  | [], [] => True
  | part :: rest, SIdx i :: r =>
      match root with
      | VArr xs _ =>
          test_digits part = true ∧ i = parseInt part ∧ i < length xs
          ∧ marks (elem xs i) rest r
      | _ => False
      end
  | part :: rest, SKey k :: r =>
      k = part
      ∧ match root with
        | VObj fs => is_Some (assoc k fs) ∧ marks (field k fs) rest r
        | VArr xs ps =>
            test_digits k = false ∧ k ≠ "length"
            ∧ is_Some (assoc k ps) ∧ marks (field k ps) rest r
        | _ => False
        end
  | _, _ => False
  end.

(** The final segment [part] can be assigned on the container
    [parent]: any key of a map; on a sequence an index up to its
    length, or a name other than [length]. *)
Definition settable (parent : value) (part : string) : Prop :=
  match parent with
  | VObj _ => True
  | VArr xs _ =>
      if test_digits part then parseInt part ≤ length xs
      else part ≠ "length"
  | _ => False
  end.

(** What the assignment of [settable] makes of the container. *)
Definition assigned (parent : value) (part : string) (v : value) : value :=
  match parent with
  | VObj fs => VObj (set_field part v fs)
  | VArr xs ps =>
      if test_digits part then
        VArr (if parseInt part <? length xs then <[parseInt part:=v]> xs
              else xs ++ [v]) ps
      else VArr xs (set_field part v ps)
  | _ => parent
  end.

(** What every fix of [generateFixForError] is like: an add for
    [required] and a remove for [additionalProperties], at the path of
    the error extended by the property name, or a replace at the path
    of the error that records what the document has there; an add and a
    replace carry a value. *)
Definition shaped (config : value) (f : ConfigFix) : Prop :=
  let e := fix_error f in
  let s := fix_suggestion f in
  match sg_operation s with
  | OpAdd =>
      get e "keyword" = VStr "required"
      ∧ sg_path s = joinPath (VStr (fix_path f))
                      (get (get e "params") "missingProperty")
      ∧ is_undefined (sg_value s) = false
      ∧ sg_oldValue s = VUndef
  | OpRemove =>
      get e "keyword" = VStr "additionalProperties"
      ∧ sg_path s = joinPath (VStr (fix_path f))
                      (get (get e "params") "additionalProperty")
      ∧ sg_value s = VUndef
      ∧ sg_oldValue s =
          getOpt (navigate config (pathParts (fix_path f)))
            (ToString (get (get e "params") "additionalProperty"))
  | OpReplace =>
      (∃ k, get e "keyword" = VStr k
            ∧ k ∈ ["type"; "maxItems"; "maxLength"; "minimum"; "maximum"])
      ∧ sg_path s = fix_path f
      ∧ is_undefined (sg_value s) = false
      ∧ sg_oldValue s = navigate config (pathParts (fix_path f))
  | OpSet => False
  end.

(** Two fixes that differ in their identifier at most. *)
Definition same_fix (f g : ConfigFix) : Prop :=
  fix_error f = fix_error g ∧ fix_path f = fix_path g
  ∧ fix_description f = fix_description g
  ∧ fix_suggestion f = fix_suggestion g.

Definition additional_error (path property : string) : value :=
  VObj [("keyword", VStr "additionalProperties"); ("instancePath", VStr path);
        ("params", VObj [("additionalProperty", VStr property)])].

(** [{s: "abcdef"}] and [{a: {b: 1, c: 2}}] *)
Definition doc_s : value := VObj [("s", VStr "abcdef")].
Definition doc_ab : value := VObj [("a", VObj [("b", num 1); ("c", num 2)])].

(** * Properties *)

(** ** Induction over values *)

Lemma value_ind (P : value → Prop) :
  P VUndef → P VNull → (∀ b, P (VBool b)) → (∀ n, P (VNum n)) →
  (∀ s, P (VStr s)) →
  (∀ xs ps, Forall P xs → Forall (λ kv, P kv.2) ps → P (VArr xs ps)) →
  (∀ fs, Forall (λ kv, P kv.2) fs → P (VObj fs)) →
  ∀ v, P v.
Proof.
  intros Hu Hn Hb Hnum Hs Ha Ho. fix IH 1.
  intros [| | b | n | s | xs ps | fs];
    [exact Hu | exact Hn | apply Hb | apply Hnum | apply Hs | |].
  - apply Ha.
    + induction xs as [|x xs IHxs]; constructor; [apply IH | apply IHxs].
    + induction ps as [|[k x] ps IHps]; constructor; [apply IH | apply IHps].
  - apply Ho.
    induction fs as [|[k x] fs IHfs]; constructor; [apply IH | apply IHfs].
Qed.

Ltac in_list := apply list_elem_of_In; simpl; tauto.

(** ** Type coercion *)

Lemma is_str_true k s : is_str k s = true ↔ k = VStr s.
Proof.
  destruct k; simpl; try (split; [done | by intros [=]]).
  rewrite String.eqb_eq. split; [by intros -> | by intros [= ->]].
Qed.

(** C6, as stated, fails: the text [Infinity] is not a finite number,
    and yet its coercion to [number] is defined. *)
Lemma convertType_departs_from_table :
  convertType (VStr "Infinity") (VStr "number") = VNum (Inf false)
  ∧ coercionTable (VStr "Infinity") (VStr "number") = VUndef.
Proof. split; reflexivity. Qed.

(** C6, amended: on a value that the host language converts without
    throwing, and to a number without rounding, [convertType] follows
    the coercion table, with [number] undefined exactly when the numeric
    parse is not-a-number (an infinite parse is kept); [boolean] and
    [array] are as in the table on every value, and [object] on maps,
    primitives and null. *)
Theorem convertType_table (v t : value) :
  (t = VStr "string" → convertible v = true →
     convertType v t = VStr (ToString v))
  ∧ (t = VStr "number" → convertible v = true → unrounded v = true →
       (convertType v t = VUndef ↔ ToNumber v = NaN)
       ∧ (ToNumber v ≠ NaN → convertType v t = VNum (ToNumber v)))
  ∧ (t = VStr "boolean" →
       (∀ s, v = VStr s →
          convertType v t = VBool (String.eqb (toLowerCase s) "true"))
       ∧ (is_string v = false → convertType v t = VBool (truthy v)))
  ∧ (t = VStr "array" →
       (isArray v = true → convertType v t = v)
       ∧ (isArray v = false → convertType v t = arr [v]))
  ∧ (t = VStr "object" →
       (∀ fs, v = VObj fs → convertType v t = v)
       ∧ (typeof_object v = false ∨ v = VNull → convertType v t = VObj []))
  ∧ ((∀ s, s ∈ ["string"; "number"; "boolean"; "array"; "object"] →
        t ≠ VStr s) →
       convertType v t = VUndef)
  ∧ (convertible v = true → unrounded v = true →
     (t = VStr "number" → ∀ neg, ToNumber v ≠ Inf neg) →
     (t = VStr "object" → isArray v = false) →
     convertType v t = coercionTable v t).
Proof.
  split_and!.
  - by intros ->.
  - intros -> _ _. unfold convertType; simpl. split.
    + by destruct (ToNumber v).
    + by destruct (ToNumber v).
  - intros ->. split.
    + by intros s ->.
    + by destruct v.
  - intros ->. unfold convertType; simpl. split; by intros ->.
  - intros ->. split.
    + by intros fs ->.
    + intros [H | ->]; [by destruct v | done].
  - intros H. unfold convertType.
    repeat (case_match; [ match goal with
                          | E : is_str _ _ = true |- _ =>
                              apply is_str_true in E; exfalso;
                              eapply H; [| exact E]; in_list
                          end |]).
    done.
  - intros _ _ Hn Ho. unfold convertType, coercionTable.
    repeat match goal with
           | |- context [if is_str ?k ?w then _ else _] =>
               let E := fresh "E" in
               destruct (is_str k w) eqn:E; [apply is_str_true in E; subst t|]
           end; try done.
    + destruct (ToNumber v) as [|neg|] eqn:En; try done.
      by destruct (Hn eq_refl neg).
    + by destruct v.
    + specialize (Ho eq_refl). by destruct v.
Qed.

Lemma convertType_table_witness :
  convertType (VStr "42") (VStr "number") = VNum (Fin 42 0)
  ∧ convertType (arr [num 1; num 2]) (VStr "string") = VStr "1,2".
Proof.
  split.
  - destruct (convertType_table (VStr "42") (VStr "number"))
      as (_ & Hnumber & _).
    destruct (Hnumber eq_refl eq_refl eq_refl) as [_ H]. by apply H.
  - destruct (convertType_table (arr [num 1; num 2]) (VStr "string"))
      as (Hstring & _).
    exact (Hstring eq_refl eq_refl).
Defined.

(** ** Reading an error record *)

Lemma getP_ok v k : is_nullish v = false → getP v k = Ok (get v k).
Proof. unfold getP. by intros ->. Qed.

Lemma getP_inv v k r : getP v k = Ok r → is_nullish v = false ∧ r = get v k.
Proof. unfold getP. destruct (is_nullish v); [done | by intros [= <-]]. Qed.

Lemma getP_nullish v k : is_nullish v = true → getP v k = Throw TypeError.
Proof. unfold getP. by intros ->. Qed.

Lemma getErrorPath_ok e : is_nullish e = false → getErrorPath e = Ok (path_of e).
Proof.
  intros H. unfold getErrorPath, path_of. rewrite !getP_ok by done. simpl.
  by repeat case_match.
Qed.

Lemma param_ok e name :
  is_nullish e = false → is_nullish (get e "params") = false →
  param e name = Ok (get (get e "params") name).
Proof. intros H1 H2. unfold param. rewrite getP_ok by done. simpl. by apply getP_ok. Qed.

Lemma splitPath_inv p parts :
  splitPath p = Ok parts → ∃ s, p = VStr s ∧ parts = pathParts s.
Proof. destruct p; try done. intros [= <-]. eauto. Qed.

(** ** One error *)

Ltac unfold_gen :=
  unfold generateFixForError, mkFix, param, getDefaultValue,
    mbind, result_bind in *.

(** Whatever [generateFixForError] returns as a fix records the error
    and its path, and belongs to one of the seven keywords that have a
    remedy. *)
Lemma generateFixForError_Some stamp e config p f :
  generateFixForError stamp e config p = Ok (Some f) →
  is_nullish e = false
  ∧ (∃ s, p = VStr s ∧ fix_path f = s)
  ∧ fix_error f = e
  ∧ (∃ k, get e "keyword" = VStr k
          ∧ k ∈ ["required"; "type"; "additionalProperties"; "maxItems";
                 "maxLength"; "minimum"; "maximum"]).
Proof.
  intros H. unfold_gen.
  destruct (getP e "keyword") as [kw|] eqn:Ekw; [|done].
  apply getP_inv in Ekw as [He ->].
  destruct (splitPath p) as [parts|] eqn:Ep; [|done].
  apply splitPath_inv in Ep as (s & -> & ->).
  split; [done|].
  repeat match type of H with
         | (if is_str ?k ?w then _ else _) = _ =>
             let E := fresh "E" in
             destruct (is_str k w) eqn:E;
             [apply is_str_true in E |]
         end;
    repeat case_match; simplify_eq/=;
    (split; [by eauto|]); (split; [done|]);
    eexists; (split; [eassumption|]); set_solver.
Qed.

(** The clock only shows in the identifier of the fix. *)
Lemma generateFixForError_clock s1 s2 e config p :
  match generateFixForError s1 e config p,
        generateFixForError s2 e config p with
  | Ok (Some f1), Ok (Some f2) =>
      fix_error f1 = fix_error f2 ∧ fix_path f1 = fix_path f2
      ∧ fix_description f1 = fix_description f2
      ∧ fix_suggestion f1 = fix_suggestion f2
  | Ok None, Ok None => True
  | Throw a, Throw b => a = b
  | _, _ => False
  end.
Proof.
  unfold_gen.
  destruct (getP e "keyword") as [kw|]; [|done].
  destruct (splitPath p) as [parts|]; [|done].
  repeat match goal with
         | |- context [if is_str ?k ?w then _ else _] =>
             destruct (is_str k w)
         end;
    repeat case_match; simplify_eq/=; done.
Qed.

Lemma fixable_at stamp e config :
  fixable e config →
  ∃ f, generateFixForError stamp e config (path_of e) = Ok (Some f).
Proof.
  intros (s0 & f0 & H0).
  pose proof (generateFixForError_clock s0 stamp e config (path_of e)) as H.
  rewrite H0 in H.
  destruct (generateFixForError stamp e config (path_of e)) as [[f|]|];
    [eauto | done | done].
Qed.

Lemma generateFixForError_key stamp e config f :
  generateFixForError stamp e config (path_of e) = Ok (Some f) →
  fix_key f = error_key e ∧ fix_error f = e.
Proof.
  intros H. apply generateFixForError_Some in H as (_ & (s & Hs & Hp) & He & _).
  unfold fix_key, error_key. by rewrite He, Hs, Hp.
Qed.

(** A well-formed record never makes [generateFixForError] throw. *)
Lemma generateFixForError_total stamp e config :
  well_formed e = true →
  ∃ r, generateFixForError stamp e config (path_of e) = Ok r.
Proof.
  unfold well_formed. rewrite !andb_true_iff, orb_true_iff, andb_true_iff,
    !negb_true_iff, orb_true_iff, negb_true_iff.
  intros [[He Hp] Hk].
  destruct (path_of e) as [| | | |s| |] eqn:Es; try done.
  unfold generateFixForError. rewrite getP_ok by done. simpl.
  assert (∀ w, w ∈ recognized → is_str (get e "keyword") w = true →
               ∀ name, param e name = Ok (get (get e "params") name)) as Hpar.
  { intros w Hw E name. apply param_ok; [done|].
    destruct Hk as [Hk | [Hk _]]; [|done].
    assert (is_recognized (get e "keyword") = true) as Hr; [|congruence].
    apply existsb_exists. exists w. split; [|done].
    by apply list_elem_of_In. }
  repeat match goal with
         | |- context [if is_str ?k ?w then _ else _] =>
             let E := fresh "E" in
             destruct (is_str k w) eqn:E;
             [ try (rewrite !(Hpar w) by (done || in_list));
               simpl |]
         end; try by eauto.
  - unfold getDefaultValue. rewrite !getP_ok by done. simpl.
    repeat case_match; eauto.
  - case_match; [by eauto|].
    unfold getDefaultValue. rewrite !getP_ok by done. simpl.
    repeat case_match; eauto.
  - repeat case_match; eauto;
      rewrite (Hpar "maxItems") in * by (done || in_list);
      simplify_eq/=; eauto.
  - repeat case_match; eauto;
      rewrite (Hpar "maxLength") in * by (done || in_list);
      simplify_eq/=; eauto.
  - repeat case_match; eauto;
      rewrite (Hpar "minimum") in * by (done || in_list);
      simplify_eq/=; eauto.
  - repeat case_match; eauto;
      rewrite (Hpar "maximum") in * by (done || in_list);
      simplify_eq/=; eauto.
  - destruct Hk as [Hk | [_ [Hk | Hk]]].
    + assert (is_recognized (get e "keyword") = true) as Hr; [|congruence].
      apply existsb_exists. exists "enum". split; [|done].
      simpl; tauto.
    + congruence.
    + destruct (get (get e "params") "allowedValues"); try done. eauto.
Qed.

(** ** The loop of [generateFixes] *)

Lemma generateFixes_loop_cons clk tick config e rest fixes seen :
  is_nullish e = false →
  generateFixes_loop clk tick config (e :: rest) fixes seen =
    if decide (error_key e ∈ seen) then
      generateFixes_loop clk tick config rest fixes seen
    else
      match generateFixForError (clk tick) e config (path_of e) with
      | Ok (Some f) =>
          generateFixes_loop clk (S tick) config rest (fixes ++ [f])
            ({[error_key e]} ∪ seen)
      | Ok None => generateFixes_loop clk (S tick) config rest fixes seen
      | Throw x => Throw x
      end.
Proof.
  intros He. simpl. rewrite getErrorPath_ok, getP_ok by done. simpl.
  fold (error_key e). case_decide; [done|].
  by destruct (generateFixForError _ _ _ _) as [[?|]|].
Qed.

Lemma generateFixes_loop_nullish clk tick config e rest fixes seen :
  is_nullish e = true →
  generateFixes_loop clk tick config (e :: rest) fixes seen = Throw TypeError.
Proof.
  intros He. simpl. unfold getErrorPath. by rewrite !getP_nullish by done.
Qed.

(** The loop ends normally exactly along the runs. *)
Lemma generateFixes_loop_run clk config errors :
  ∀ tick fixes seen out,
    generateFixes_loop clk tick config errors fixes seen = Ok out
    ↔ run clk config tick errors fixes seen out.
Proof.
  induction errors as [|e rest IH]; intros tick fixes seen out.
  - simpl. split; [intros [= <-]; constructor | by inversion 1].
  - destruct (is_nullish e) eqn:He.
    { rewrite generateFixes_loop_nullish by done.
      split; [done|].
      inversion 1; subst; try congruence;
        match goal with
        | H : generateFixForError _ _ _ _ = Ok _ |- _ =>
            unfold generateFixForError in H;
            rewrite getP_nullish in H by done; done
        end. }
    rewrite generateFixes_loop_cons by done. split.
    + case_decide as Hk.
      * intros H. apply run_seen; [done | done | by apply IH].
      * destruct (generateFixForError _ _ _ _) as [[f|]|] eqn:Hg; [| |done].
        -- intros H. eapply run_fix; [done | done | by apply IH].
        -- intros H. apply run_unfixable; [done | done | by apply IH].
    + inversion 1; subst.
      * rewrite decide_True by done. by apply IH.
      * rewrite decide_False by done.
        match goal with H : generateFixForError _ _ _ _ = _ |- _ => rewrite H end.
        by apply IH.
      * rewrite decide_False by done.
        match goal with H : generateFixForError _ _ _ _ = _ |- _ => rewrite H end.
        by apply IH.
Qed.

Lemma generateFixes_run clk errors config out :
  generateFixes clk errors config = Ok out ↔ run clk config 0 errors [] ∅ out.
Proof. apply generateFixes_loop_run. Qed.

(** A run only appends: the fixes found so far stay, in their order. *)
Lemma run_extends clk config tick errors fixes seen out :
  run clk config tick errors fixes seen out → ∃ new, out = fixes ++ new.
Proof.
  induction 1 as [tick fixes seen| | |tick e rest fixes seen out f _ _ _ IH].
  - exists []. by rewrite app_nil_r.
  - done.
  - done.
  - destruct IH as [new ->]. exists (f :: new). by rewrite <-app_assoc.
Qed.

(** Every fix of the result was produced for some error of the list. *)
Lemma run_origin clk config tick errors fixes seen out :
  run clk config tick errors fixes seen out →
  ∀ f, f ∈ out →
    f ∈ fixes
    ∨ ∃ e stamp, e ∈ errors
        ∧ generateFixForError stamp e config (path_of e) = Ok (Some f).
Proof.
  induction 1 as [| tick e rest fixes seen out _ _ _ IH
                  | tick e rest fixes seen out _ _ _ IH
                  | tick e rest fixes seen out f0 _ Hg _ IH]; intros f Hf.
  - by left.
  - destruct (IH f Hf) as [?|(e' & s & ? & ?)]; [by left|].
    right. exists e', s. split; [by constructor | done].
  - destruct (IH f Hf) as [?|(e' & s & ? & ?)]; [by left|].
    right. exists e', s. split; [by constructor | done].
  - destruct (IH f Hf) as [Hin|(e' & s & ? & ?)].
    + apply elem_of_app in Hin as [?|Hin]; [by left|].
      apply list_elem_of_singleton in Hin as ->.
      right. exists e, (clk tick). split; [by constructor | done].
    + right. exists e', s. split; [by constructor | done].
Qed.

(** The keys filed are those of the fixes found, and no two fixes of
    the result have one key. *)
Lemma run_NoDup clk config tick errors fixes seen out :
  run clk config tick errors fixes seen out →
  (∀ k, k ∈ seen ↔ k ∈ fix_key <$> fixes) →
  NoDup (fix_key <$> fixes) →
  NoDup (fix_key <$> out).
Proof.
  induction 1 as [| tick e rest fixes seen out _ _ _ IH
                  | tick e rest fixes seen out _ _ _ IH
                  | tick e rest fixes seen out f Hk Hg _ IH]; intros Hs Hn; auto.
  apply generateFixForError_key in Hg as [Hkey _].
  apply IH.
  - intros k. rewrite fmap_app, elem_of_app, elem_of_union, elem_of_singleton.
    simpl. rewrite list_elem_of_singleton, Hkey, Hs. tauto.
  - rewrite fmap_app. apply NoDup_app. split; [done|]. split.
    + intros k Hin. simpl. rewrite list_elem_of_singleton, Hkey.
      intros ->. by apply Hk, Hs.
    + simpl. apply NoDup_singleton.
Qed.

(** Every error for which a fix can be produced finds its key among
    the fixes of the result. *)
Lemma run_covers clk config tick errors fixes seen out :
  run clk config tick errors fixes seen out →
  (∀ k, k ∈ seen → k ∈ fix_key <$> fixes) →
  ∀ e, e ∈ errors → fixable e config → error_key e ∈ fix_key <$> out.
Proof.
  induction 1 as [| tick e rest fixes seen out _ Hk Hr IH
                  | tick e rest fixes seen out _ Hg Hr IH
                  | tick e rest fixes seen out f Hk Hg Hr IH];
    intros Hs e' Hin Hfix.
  - by apply elem_of_nil in Hin.
  - apply elem_of_cons in Hin as [->|Hin]; [|by apply IH].
    destruct (run_extends _ _ _ _ _ _ _ Hr) as [new ->].
    rewrite fmap_app, elem_of_app. left. by apply Hs.
  - apply elem_of_cons in Hin as [->|Hin]; [|by apply IH].
    destruct (fixable_at (clk tick) _ _ Hfix) as [f Hf]. congruence.
  - assert (∀ k, k ∈ ({[error_key e]} ∪ seen : gset string) →
                 k ∈ fix_key <$> fixes ++ [f]) as Hs'.
    { intros k. rewrite fmap_app, elem_of_app, elem_of_union, elem_of_singleton.
      intros [->|?]; [right | left; by apply Hs].
      apply generateFixForError_key in Hg as [<- _]. simpl.
      by apply list_elem_of_singleton. }
    apply elem_of_cons in Hin as [->|Hin]; [|by apply IH].
    destruct (run_extends _ _ _ _ _ _ _ Hr) as [new ->].
    rewrite fmap_app, elem_of_app. left. apply Hs'. set_solver.
Qed.

(** The first error of a key for which a fix can be produced is the
    one whose fix is in the result. *)
Lemma run_first clk config pre :
  ∀ tick e post fixes seen out,
    run clk config tick (pre ++ e :: post) fixes seen out →
    error_key e ∉ seen →
    (∀ e', e' ∈ pre → fixable e' config → error_key e' ≠ error_key e) →
    fixable e config →
    ∃ stamp f, generateFixForError stamp e config (path_of e) = Ok (Some f)
               ∧ f ∈ out.
Proof.
  induction pre as [|e0 pre IH]; intros tick e post fixes seen out Hr Hk Hpre Hfix.
  - simpl in Hr. inversion Hr; subst.
    + done.
    + destruct (fixable_at (clk tick) _ _ Hfix) as [f Hf]. congruence.
    + match goal with H : run _ _ _ _ _ _ _ |- _ =>
        destruct (run_extends _ _ _ _ _ _ _ H) as [new ->] end.
      eexists _, _. split; [eassumption|]. set_solver.
  - simpl in Hr.
    assert (∀ e', e' ∈ pre → fixable e' config → error_key e' ≠ error_key e)
      as Hpre' by (intros; apply Hpre; [by constructor | done]).
    inversion Hr; subst.
    + by eapply IH.
    + by eapply IH.
    + eapply IH; [eassumption | | done | done].
      rewrite elem_of_union, elem_of_singleton. intros [Heq|?]; [|done].
      eapply (Hpre e0); [by constructor | | done].
      by eexists _, _.
Qed.

(** One key, one fix. *)
Lemma NoDup_fmap_eq {A B} (g : A → B) (l : list A) x y :
  NoDup (g <$> l) → x ∈ l → y ∈ l → g x = g y → x = y.
Proof.
  induction l as [|a l IH]; simpl; [by intros _ ?%elem_of_nil|].
  rewrite NoDup_cons. intros [Hna Hn] Hx Hy Hg.
  apply elem_of_cons in Hx as [->|Hx]; apply elem_of_cons in Hy as [->|Hy].
  - done.
  - exfalso. apply Hna. rewrite Hg. by apply list_elem_of_fmap_2.
  - exfalso. apply Hna. rewrite <-Hg. by apply list_elem_of_fmap_2.
  - by apply IH.
Qed.

(** ** Deduplication *)

(** C2, as stated, fails: two errors of one keyword whose
    [instancePath] is empty are told apart by their [dataPath], and each
    gets its fix; and of two errors with one keyword and one
    [instancePath] it is the later one that is answered when no fix is
    produced for the earlier one. *)
Lemma generateFixes_keeps_both_or_later :
  (∃ f g,
     generateFixes sample_clock
       [data_error "maximum" "/x" 5; data_error "maximum" "/y" 5] doc_xy
     = Ok [f; g]
     ∧ get (fix_error f) "keyword" = get (fix_error g) "keyword"
     ∧ get (fix_error f) "instancePath" = get (fix_error g) "instancePath")
  ∧ (∃ f,
       generateFixes sample_clock
         [limit_error "maximum" "/x" 10; limit_error "maximum" "/x" 5] doc_x
       = Ok [f]
       ∧ fix_error f = limit_error "maximum" "/x" 5).
Proof.
  split.
  - eexists _, _. split; [vm_compute; reflexivity|]. split; reflexivity.
  - eexists. split; [vm_compute; reflexivity|]. reflexivity.
Qed.

(** C2, amended: the fixes that [generateFixes] returns have pairwise
    distinct dedup keys, as keys and as pairs (keyword, path), where
    the path of an error is its [instancePath] when that is not empty,
    and else its [dataPath]; of two errors with one keyword and one
    path, at most one is answered by a fix, and it is the earliest
    error of that key for which a fix can be produced: the earlier of
    the two when a fix can be produced for it and for no error of the
    key before it.  Two errors with one [instancePath] that is not
    empty have one path. *)
Theorem generateFixes_dedup clk errors config fixes :
  generateFixes clk errors config = Ok fixes →
  NoDup (fix_key <$> fixes)
  ∧ NoDup (fix_pair <$> fixes)
  ∧ (∀ f1 f2, f1 ∈ fixes → f2 ∈ fixes → fix_pair f1 = fix_pair f2 → f1 = f2)
  ∧ (∀ pre e1 mid e2 post,
       errors = pre ++ e1 :: mid ++ e2 :: post →
       get e1 "keyword" = get e2 "keyword" → path_of e1 = path_of e2 →
       (∀ e', e' ∈ pre → fixable e' config → error_key e' ≠ error_key e1) →
       fixable e1 config →
       ∃ f, f ∈ fixes ∧ fix_error f = e1 ∧ fix_key f = error_key e2
            ∧ ∀ f', f' ∈ fixes → fix_key f' = error_key e2 → f' = f)
  ∧ (∀ e1 e2,
       get e1 "instancePath" = get e2 "instancePath" →
       truthy (get e1 "instancePath") = true → path_of e1 = path_of e2).
Proof.
  intros Hrun%generateFixes_run.
  assert (NoDup (fix_key <$> fixes)) as Hn.
  { eapply run_NoDup; [eassumption | | constructor].
    intros k. simpl. rewrite elem_of_nil. set_solver. }
  assert (NoDup (fix_pair <$> fixes)) as Hp.
  { apply (NoDup_fmap_1 (λ p, pathKey p.1 (VStr p.2))).
    rewrite <-list_fmap_compose.
    erewrite (list_fmap_ext _ fix_key); [exact Hn|]. by intros. }
  split_and!; [done | done | | |].
  - intros f1 f2 H1 H2 Heq. by apply (NoDup_fmap_eq fix_pair fixes).
  - intros pre e1 mid e2 post -> Hkw Hpath Hpre Hfix.
    assert (error_key e2 = error_key e1) as Hk
      by (unfold error_key; by rewrite Hkw, Hpath).
    destruct (run_first _ _ _ _ _ _ _ _ _ Hrun) as (stamp & f & Hg & Hin);
      [set_solver | done | done |].
    apply generateFixForError_key in Hg as [Hkey He].
    exists f. split_and!; [done | done | congruence |].
    intros f' Hin' Hk'. apply (NoDup_fmap_eq fix_key fixes); congruence.
  - intros e1 e2 Hi Ht. unfold path_of. by rewrite <-Hi, Ht.
Qed.

Lemma generateFixes_dedup_witness :
  ∃ f, generateFixes sample_clock
         [required_error "/a" "b"; required_error "/a" "b"] doc_a = Ok [f]
       ∧ NoDup (fix_key <$> [f]).
Proof.
  eexists. split; [vm_compute; reflexivity|].
  eapply (generateFixes_dedup sample_clock
            [required_error "/a" "b"; required_error "/a" "b"] doc_a).
  vm_compute; reflexivity.
Defined.

(** ** Unfixable errors leave no trace *)

(** C10: an error for which no fix is produced leaves the fixes and
    the filed keys as they were, so that a later error of the same key
    can still be answered by a fix. *)
Theorem unfixable_key_not_filed clk config e :
  is_nullish e = false →
  (∀ tick rest fixes seen,
     error_key e ∉ seen →
     generateFixForError (clk tick) e config (path_of e) = Ok None →
     generateFixes_loop clk tick config (e :: rest) fixes seen
     = generateFixes_loop clk (S tick) config rest fixes seen)
  ∧ (∀ e2,
       generateFixForError (clk 0) e config (path_of e) = Ok None →
       error_key e2 = error_key e → fixable e2 config →
       ∃ f, generateFixes clk [e; e2] config = Ok [f]
            ∧ fix_error f = e2 ∧ fix_key f = error_key e).
Proof.
  intros He. split.
  - intros tick rest fixes seen Hk Hg.
    rewrite generateFixes_loop_cons, decide_False, Hg by done. done.
  - intros e2 Hg Hk Hfix.
    destruct (fixable_at (clk 1) _ _ Hfix) as [f Hf].
    pose proof (generateFixForError_Some _ _ _ _ _ Hf) as (He2 & _).
    exists f. unfold generateFixes.
    rewrite generateFixes_loop_cons, decide_False, Hg by set_solver.
    rewrite generateFixes_loop_cons, decide_False, Hf by set_solver.
    apply generateFixForError_key in Hf as [-> ->]. done.
Qed.

Lemma unfixable_key_not_filed_witness :
  ∃ f, generateFixes sample_clock
         [limit_error "maximum" "/x" 10; limit_error "maximum" "/x" 5] doc_x
       = Ok [f]
       ∧ fix_error f = limit_error "maximum" "/x" 5
       ∧ fix_key f = error_key (limit_error "maximum" "/x" 10).
Proof.
  refine (proj2 (unfixable_key_not_filed sample_clock doc_x
                   (limit_error "maximum" "/x" 10) _)
                (limit_error "maximum" "/x" 5) _ _ _).
  - reflexivity.
  - vm_compute; reflexivity.
  - reflexivity.
  - eexists (NaN, NaN), _. vm_compute; reflexivity.
Defined.

(** ** Malformed records *)





(** ** Keywords without a remedy *)

(** C8, as stated, fails: a [minItems] record without [params] is not
    passed over in silence, the call throws. *)
Lemma generateFixes_throws_on_bare_minItems :
  generateFixes sample_clock [bare_error "minItems" "/xs"] doc_xs
  = Throw TypeError.
Proof. vm_compute; reflexivity. Qed.

(** C8, amended: for a well-formed record that the host language
    converts to strings without throwing, and whose keyword is
    [minItems], [minLength] or [enum], or is not recognized, no fix is
    produced and nothing is thrown: the loop goes on with the fixes and
    keys it had; and no fix that [generateFixes] returns stems from a
    record of such a keyword. *)
Theorem no_remedy_no_fix clk config e :
  well_formed e = true →
  convertible e = true →
  (∃ k, k ∈ ["minItems"; "minLength"; "enum"] ∧ get e "keyword" = VStr k)
  ∨ is_recognized (get e "keyword") = false →
  (∀ stamp, generateFixForError stamp e config (path_of e) = Ok None)
  ∧ (∀ rest, generateFixes clk (e :: rest) config
             = generateFixes_loop clk 1 config rest [] ∅)
  ∧ (∀ errors fixes,
       generateFixes clk errors config = Ok fixes →
       ∀ f, f ∈ fixes → fix_error f ≠ e).
Proof.
  intros Hwf _ Hk.
  assert (¬ fixable e config) as Hno.
  { intros (s & f & Hf).
    apply generateFixForError_Some in Hf as (_ & _ & _ & k & Hkw & Hin).
    destruct Hk as [(k' & Hin' & Hkw') | Hr].
    - rewrite Hkw in Hkw'. injection Hkw' as <-.
      apply list_elem_of_In in Hin, Hin'. simpl in Hin, Hin'.
      repeat destruct Hin as [<-|Hin]; try done;
        repeat destruct Hin' as [Heq|Hin']; done.
    - rewrite Hkw in Hr. apply list_elem_of_In in Hin. simpl in Hin.
      repeat destruct Hin as [<-|Hin]; done. }
  assert (∀ stamp, generateFixForError stamp e config (path_of e) = Ok None)
    as Hnone.
  { intros stamp.
    destruct (generateFixForError_total stamp e config Hwf) as [[f|] Hr];
      [|done].
    exfalso. apply Hno. by eexists _, _. }
  assert (is_nullish e = false) as Hn.
  { unfold well_formed in Hwf. rewrite !andb_true_iff, negb_true_iff in Hwf.
    tauto. }
  split_and!; [done | |].
  - intros rest. unfold generateFixes.
    by rewrite generateFixes_loop_cons, decide_False, Hnone by set_solver.
  - intros errors fixes Hrun%generateFixes_run f Hf Heq.
    destruct (run_origin _ _ _ _ _ _ _ Hrun f Hf) as [?|(e' & s & _ & Hg)];
      [set_solver|].
    pose proof (generateFixForError_key _ _ _ _ Hg) as [_ He'].
    apply Hno. exists s, f. congruence.
Qed.

Lemma no_remedy_no_fix_witness :
  generateFixForError (sample_clock 0) (limit_error "minItems" "/xs" 3) doc_xs
    (path_of (limit_error "minItems" "/xs" 3)) = Ok None.
Proof.
  apply (no_remedy_no_fix sample_clock doc_xs (limit_error "minItems" "/xs" 3)).
  - reflexivity.
  - reflexivity.
  - left. exists "minItems". split; [in_list | reflexivity].
Defined.

(** ** Default values *)

(** [getDefaultValue] follows the resolution order of the
    specification. *)
Lemma getDefaultValue_resolves e name :
  is_nullish e = false →
  getDefaultValue e name =
    Ok (resolveDefault (ownDefault e) (declaredDefault e (ToString name))
          (hintedType e)).
Proof.
  intros He. unfold getDefaultValue. rewrite !getP_ok by done. simpl.
  unfold resolveDefault, ownDefault, declaredDefault, present.
  destruct (is_undefined (getOpt (get e "schema") "default")) eqn:E1; simpl.
  - destruct (is_undefined (getOpt (getOpt (getOpt (get e "parentSchema")
                "properties") (ToString name)) "default")) eqn:E2; simpl; [|done].
    f_equal. fold (hintedType e). unfold typeDefault, builtinDefault.
    by repeat case_match.
  - destruct (get e "schema"); try done.
Qed.

Lemma keyword_not_nullish e k : get e "keyword" = VStr k → is_nullish e = false.
Proof. by destruct e. Qed.

(** The fix produced for a [type] error. *)
Lemma generateFixForError_type stamp e config s :
  get e "keyword" = VStr "type" →
  is_nullish (get e "params") = false →
  ∃ id description,
    generateFixForError stamp e config (VStr s) =
      Ok (Some
        {| fix_id := id; fix_error := e; fix_path := s;
           fix_description := description;
           fix_suggestion :=
             {| sg_operation := OpReplace; sg_path := s;
                sg_value :=
                  (let converted :=
                     convertType (navigate config (pathParts s))
                       (get (get e "params") "type") in
                   if is_undefined converted then
                     resolveDefault (ownDefault e)
                       (declaredDefault e
                          (default EmptyString (last (pathParts s))))
                       (hintedType e)
                   else converted);
                sg_oldValue := navigate config (pathParts s) |} |}).
Proof.
  intros Hk Hp. pose proof (keyword_not_nullish _ _ Hk) as He.
  unfold generateFixForError. rewrite getP_ok, Hk by done. simpl.
  rewrite param_ok by done. simpl.
  destruct (is_undefined (convertType _ _)) eqn:E; simpl.
  - rewrite getDefaultValue_resolves by done. simpl. by eexists _, _.
  - by eexists _, _.
Qed.

(** C5, as stated, fails: of two [type] errors at one path the second
    is passed over once the first is answered, so that no fix of the
    result carries the coercion that the second asks for. *)
Lemma type_error_passed_over :
  ∃ f,
    generateFixes sample_clock
      [type_error "/x" "string"; type_error "/x" "number"] doc_x = Ok [f]
    ∧ fix_error f = type_error "/x" "string"
    ∧ sg_value (fix_suggestion f) = VStr "7"
    ∧ convertType (num 7) (VStr "number") = num 7.
Proof.
  eexists. split; [vm_compute; reflexivity|]. split_and!; reflexivity.
Qed.

(** C5, amended: a [type] error that carries its [params], at a path
    without inherited names, on a document and with a record that the
    host language converts without throwing, and a current value that
    it converts to a number without rounding, always gets a fix from
    [generateFixForError]: a replace at the path of the error, by the
    coerced current value when the coercion is defined and by the
    resolved default otherwise.  The result of [generateFixes] holds
    that fix when the error is alone in the list, and in any list in
    which no error before it that has its key can be answered; in every
    list it holds, under the key of the error, a replace at that path
    made for a [type] error of the list at that path. *)
Theorem type_error_always_fixed e config s :
  get e "keyword" = VStr "type" →
  is_nullish (get e "params") = false →
  path_of e = VStr s →
  plain_path (pathParts s) = true →
  convertible e = true →
  convertible config = true →
  unrounded (navigate config (pathParts s)) = true →
  (∀ stamp, ∃ id description,
     generateFixForError stamp e config (path_of e) =
       Ok (Some
         {| fix_id := id; fix_error := e; fix_path := s;
            fix_description := description;
            fix_suggestion :=
              {| sg_operation := OpReplace; sg_path := s;
                 sg_value :=
                   (let converted :=
                      convertType (navigate config (pathParts s))
                        (get (get e "params") "type") in
                    if is_undefined converted then
                      resolveDefault (ownDefault e)
                        (declaredDefault e
                           (default EmptyString (last (pathParts s))))
                        (hintedType e)
                    else converted);
                 sg_oldValue := navigate config (pathParts s) |} |}))
  ∧ (∀ clk fixes, generateFixes clk [e] config = Ok fixes →
       ∃ f, fixes = [f] ∧ fix_error f = e)
  ∧ (∀ clk pre post fixes,
       generateFixes clk (pre ++ e :: post) config = Ok fixes →
       (∀ e', e' ∈ pre → fixable e' config → error_key e' ≠ error_key e) →
       ∃ f, f ∈ fixes ∧ fix_error f = e
            ∧ sg_operation (fix_suggestion f) = OpReplace
            ∧ sg_path (fix_suggestion f) = s
            ∧ sg_value (fix_suggestion f) =
                (let converted :=
                   convertType (navigate config (pathParts s))
                     (get (get e "params") "type") in
                 if is_undefined converted then
                   resolveDefault (ownDefault e)
                     (declaredDefault e
                        (default EmptyString (last (pathParts s))))
                     (hintedType e)
                 else converted))
  ∧ (∀ clk errors fixes,
       e ∈ errors → generateFixes clk errors config = Ok fixes →
       ∃ f, f ∈ fixes ∧ fix_pair f = (VStr "type", s)
            ∧ fix_error f ∈ errors
            ∧ sg_operation (fix_suggestion f) = OpReplace
            ∧ sg_path (fix_suggestion f) = s).
Proof.
  intros Hk Hp Hs _ _ _ _. pose proof (keyword_not_nullish _ _ Hk) as He.
  assert (∀ stamp, ∃ f, generateFixForError stamp e config (path_of e)
                        = Ok (Some f) ∧ fix_error f = e) as Hgen.
  { intros stamp. rewrite Hs.
    destruct (generateFixForError_type stamp e config s Hk Hp)
      as (id & d & ->). by eexists. }
  split_and!.
  - intros stamp. rewrite Hs. by apply generateFixForError_type.
  - intros clk fixes. unfold generateFixes.
    rewrite generateFixes_loop_cons, decide_False by set_solver.
    destruct (Hgen (clk 0)) as (f & -> & Hf). simpl. intros [= <-]. eauto.
  - intros clk pre post fixes Hrun%generateFixes_run Hpre.
    assert (fixable e config) as Hfix.
    { destruct (Hgen (NaN, NaN)) as (f & Hf & _). by eexists _, _. }
    destruct (run_first _ _ _ _ _ _ _ _ _ Hrun) as (stamp & f & Hg & Hin);
      [set_solver | done | done |].
    rewrite Hs in Hg.
    destruct (generateFixForError_type stamp e config s Hk Hp)
      as (id & d & Heq).
    rewrite Heq in Hg. injection Hg as <-.
    eexists. split; [exact Hin|]. done.
  - intros clk errors fixes Hin Hrun%generateFixes_run.
    assert (fixable e config) as Hfix.
    { destruct (Hgen (NaN, NaN)) as (f & Hf & _). by eexists _, _. }
    assert (error_key e ∈ fix_key <$> fixes) as Hc
      by (eapply run_covers; [eassumption | set_solver | done | done]).
    apply list_elem_of_fmap in Hc as (f & Hkey & Hf).
    destruct (run_origin _ _ _ _ _ _ _ Hrun f Hf) as [?|(e' & st & Hin0 & Hg)];
      [set_solver|].
    exists f. split; [done|].
    pose proof (generateFixForError_Some _ _ _ _ _ Hg)
      as (He' & (s' & Hs' & Hp') & Herr & k & Hkw & Hin').
    assert (k = "type" ∧ s' = s) as [-> ->].
    { unfold error_key, fix_key in Hkey.
      rewrite Hk, Hs, Herr, Hkw, Hp' in Hkey. unfold pathKey in Hkey.
      apply list_elem_of_In in Hin'. simpl in Hin', Hkey.
      repeat destruct Hin' as [<-|Hin']; try done; by simplify_eq/=. }
    split.
    { unfold fix_pair. by rewrite Herr, Hkw, Hp'. }
    split; [by rewrite Herr|].
    rewrite Hs' in Hg.
    destruct (generateFixForError_type st e' config s Hkw) as (id & d & Heq).
    { unfold generateFixForError in Hg.
      rewrite getP_ok, Hkw in Hg by done. simpl in Hg.
      unfold param in Hg. rewrite getP_ok in Hg by done. simpl in Hg.
      destruct (is_nullish (get e' "params")) eqn:En; [|done].
      by rewrite getP_nullish in Hg. }
    rewrite Heq in Hg. by injection Hg as <-.
Qed.

Lemma type_error_always_fixed_witness :
  ∃ f, generateFixes sample_clock [type_error "/x" "string"] doc_x = Ok [f]
       ∧ sg_value (fix_suggestion f) = VStr "7"
       ∧ fix_error f = type_error "/x" "string".
Proof.
  destruct (type_error_always_fixed (type_error "/x" "string") doc_x "/x")
    as (H1 & H2 & _); [reflexivity..|].
  destruct (H1 (sample_clock 0)) as (id & d & Hg).
  eexists. split; [|split].
  - unfold generateFixes.
    rewrite generateFixes_loop_cons, decide_False, Hg by (done || set_solver).
    reflexivity.
  - reflexivity.
  - reflexivity.
Defined.




(** ** Own properties *)

Lemma assoc_replace_field {A} k (v : A) fs :
  is_Some (assoc k fs) → assoc k (replace_field k v fs) = Some v.
Proof.
  induction fs as [|[k' x] fs IH]; simpl; [by intros [? ?]|].
  destruct (String.eqb k k') eqn:E; simpl; rewrite ?String.eqb_refl, ?E; auto.
Qed.

Lemma assoc_replace_field_ne {A} k k' (v : A) fs :
  k' ≠ k → assoc k' (replace_field k v fs) = assoc k' fs.
Proof.
  intros Hne. induction fs as [|[k0 x] fs IH]; simpl; [done|].
  destruct (String.eqb k k0) eqn:E; simpl.
  - apply String.eqb_eq in E as <-.
    by destruct (String.eqb k' k) eqn:E'; [apply String.eqb_eq in E'|].
  - by rewrite IH.
Qed.

Lemma assoc_insert_index {A} i k (v : A) fs :
  assoc k fs = None → assoc k (insert_index i k v fs) = Some v.
Proof.
  induction fs as [|[k' x] fs IH]; simpl.
  - by rewrite String.eqb_refl.
  - destruct (String.eqb k k') eqn:E; [done|]. intros H.
    repeat case_match; simpl; rewrite ?String.eqb_refl, ?E; auto.
Qed.

Lemma assoc_insert_index_ne {A} i k k' (v : A) fs :
  k' ≠ k → assoc k' (insert_index i k v fs) = assoc k' fs.
Proof.
  intros Hne%String.eqb_neq.
  induction fs as [|[k0 x] fs IH]; simpl; [by rewrite Hne|].
  destruct (array_index k0) as [j|]; [destruct (i <? j)|];
    simpl; rewrite ?Hne; try done.
  by destruct (String.eqb k' k0).
Qed.

Lemma assoc_app_None {A} k (fs gs : list (string * A)) :
  assoc k fs = None → assoc k (fs ++ gs) = assoc k gs.
Proof.
  induction fs as [|[k' x] fs IH]; simpl; [done|]. by case_match.
Qed.

Lemma assoc_app_ne {A} k k' (v : A) fs :
  k' ≠ k → assoc k' (fs ++ [(k, v)]) = assoc k' fs.
Proof.
  intros Hne%String.eqb_neq.
  induction fs as [|[k0 x] fs IH]; simpl; [by rewrite Hne|]. by case_match.
Qed.

(** An assignment sets its key, whether the key was there or not, and
    leaves the other keys alone. *)
Lemma assoc_set_field {A} k (v : A) fs : assoc k (set_field k v fs) = Some v.
Proof.
  unfold set_field. destruct (assoc k fs) eqn:E.
  - apply assoc_replace_field. by rewrite E.
  - destruct (array_index k).
    + by apply assoc_insert_index.
    + rewrite assoc_app_None by done. simpl. by rewrite String.eqb_refl.
Qed.

Lemma assoc_set_field_ne {A} k k' (v : A) fs :
  k' ≠ k → assoc k' (set_field k v fs) = assoc k' fs.
Proof.
  intros Hne. unfold set_field. destruct (assoc k fs).
  - by apply assoc_replace_field_ne.
  - destruct (array_index k).
    + by apply assoc_insert_index_ne.
    + by apply assoc_app_ne.
Qed.

(** ** Locations *)

Lemma read_undefined l : read VUndef l = VUndef.
Proof. induction l as [|[i|k] l IH]; simpl; auto. Qed.

Lemma read_app root l1 l2 : read root (l1 ++ l2) = read (read root l1) l2.
Proof.
  revert root. induction l1 as [|[i|k] l1 IH]; intros root; simpl; [done| |].
  - destruct root; simpl; by rewrite ?read_undefined.
  - apply IH.
Qed.

Lemma get_named xs ps k :
  k ≠ "length" → array_index k = None → get (VArr xs ps) k = field k ps.
Proof. intros Hl%String.eqb_neq Hi. unfold get. by rewrite Hl, Hi. Qed.

Lemma valid_app root l1 l2 :
  valid root (l1 ++ l2) ↔ valid root l1 ∧ valid (read root l1) l2.
Proof.
  revert root. induction l1 as [|[i|k] l1 IH]; intros root; simpl.
  - tauto.
  - destruct root; try tauto. rewrite IH. tauto.
  - destruct root; try tauto.
    + rewrite IH. simpl.
      destruct (String.eqb k "length") eqn:E.
      * apply String.eqb_eq in E. naive_solver.
      * destruct (array_index k); naive_solver.
    + rewrite IH. simpl. tauto.
Qed.

(** Writing through a valid location succeeds when the update does, and
    puts the update where the location points. *)
Lemma modify_valid l : ∀ root f y,
  valid root l → f (read root l) = Ok y →
  ∃ root', modify root l f = Ok root' ∧ read root' l = y ∧ valid root' l.
Proof.
  induction l as [|[i|k] l IH]; intros root f y Hv Hf; simpl in *.
  - eauto.
  - destruct root as [| | | | |xs ps|]; try done. destruct Hv as [Hi Hv].
    destruct (IH _ _ _ Hv Hf) as (x & -> & Hr & Hv'). simpl.
    eexists. split; [done|].
    unfold elem. rewrite list_lookup_insert_eq by done. simpl.
    by rewrite length_insert.
  - destruct root as [| | | | |xs ps|fs]; try done.
    + destruct Hv as (Hl & Hx & Hs & Hv).
      rewrite get_named in Hf by done.
      destruct (IH _ _ _ Hv Hf) as (x & -> & Hr & Hv'). simpl.
      eexists. split; [done|]. rewrite get_named by done.
      unfold field. rewrite assoc_replace_field by done. simpl. done.
    + destruct Hv as (Hs & Hv).
      destruct (IH _ _ _ Hv Hf) as (x & -> & Hr & Hv'). simpl.
      eexists. split; [done|]. simpl.
      unfold field. rewrite assoc_replace_field by done. simpl. done.
Qed.

Lemma field_is_Some {A} k (fs : list (string * A)) d :
  default d (assoc k fs) ≠ d → is_Some (assoc k fs).
Proof. destruct (assoc k fs); [by eexists | done]. Qed.

(** ** Resolving the parent container *)

Lemma indexed_Some v part xs :
  indexed v part = Some xs → (∃ ps, v = VArr xs ps) ∧ test_digits part = true.
Proof.
  destruct v; try done. simpl. destruct (test_digits part); [|done].
  intros [= <-]. eauto.
Qed.

Lemma indexed_None_array xs ps part :
  indexed (VArr xs ps) part = None → test_digits part = false.
Proof. simpl. by destruct (test_digits part). Qed.

Lemma not_digits_index k : test_digits k = false → array_index k = None.
Proof. unfold array_index. by intros ->. Qed.

Lemma is_object_container c :
  is_object c = true → (∃ xs ps, c = VArr xs ps) ∨ (∃ fs, c = VObj fs).
Proof.
  destruct c; unfold is_object; simpl; rewrite ?andb_false_r; try done; eauto.
Qed.

(** Putting a missing property on a container. *)
Lemma set_missing c part v :
  is_object c = true → indexed c part = None →
  is_undefined (get c part) = true →
  ∃ y, set c part v = Ok y ∧ valid y [SKey part] ∧ get y part = v.
Proof.
  intros [(xs & ps & ->)|(fs & ->)]%is_object_container Hi Hu.
  - apply indexed_None_array, not_digits_index in Hi.
    assert (part ≠ "length") as Hl.
    { by intros ->. }
    unfold set. rewrite (proj2 (String.eqb_neq _ _) Hl), Hi.
    eexists. split; [done|]. rewrite get_named by done. simpl.
    unfold field. rewrite assoc_set_field. eauto.
  - eexists. split; [done|]. simpl.
    unfold field. rewrite assoc_set_field. eauto.
Qed.

(** A property that holds a container is there to walk through. *)
Lemma get_present c part :
  is_object c = true → indexed c part = None →
  is_undefined (get c part) = false → is_object (get c part) = true →
  valid c [SKey part].
Proof.
  intros [(xs & ps & ->)|(fs & ->)]%is_object_container Hi Hu Ho.
  - apply indexed_None_array, not_digits_index in Hi.
    assert (part ≠ "length") as Hl.
    { intros ->. unfold is_object in Ho. simpl in Ho.
      by rewrite andb_false_r in Ho. }
    rewrite get_named in Hu by done. simpl. split_and!; try done.
    apply (field_is_Some _ _ VUndef). intros E. unfold field in Hu.
    by rewrite E in Hu.
  - simpl in *. split; [|done].
    apply (field_is_Some _ _ VUndef). intros E. unfold field in Hu.
    by rewrite E in Hu.
Qed.

(** Where [getNestedObject] finds a container, the location it returns
    is a valid one, and leads to that container. *)
Lemma getNestedObject_loop_found parts :
  ∀ root here current create root' l parent,
    (is_object current = true → valid root here ∧ read root here = current) →
    getNestedObject_loop root here current parts create
      = Ok (root', Some (l, parent)) →
    is_object parent = true →
    valid root' l ∧ read root' l = parent.
Proof.
  induction parts as [|part rest IH];
    intros root here current create root' l parent Hinv Hrun Hobj; simpl in Hrun.
  - injection Hrun as <- <- <-. auto.
  - destruct (indexed current part) as [xs|] eqn:Hi.
    + apply indexed_Some in Hi as [[ps ->] Hd].
      destruct (Hinv eq_refl) as [Hv Hr].
      destruct (parseInt part <? length xs) eqn:Hlt; [|done].
      apply Nat.ltb_lt in Hlt.
      eapply IH; [|eassumption|done]. intros _.
      rewrite valid_app, read_app, Hr. simpl. auto.
    + destruct (is_object current) eqn:Hc; [|done].
      destruct (Hinv eq_refl) as [Hv Hr].
      destruct (is_undefined (get current part)) eqn:Hu.
      * destruct create; [|done].
        destruct (set_missing current part (fresh_container rest) Hc Hi Hu)
          as (y & Hy & Hvy & Hgy).
        destruct (modify_valid here root
                    (λ c, set c part (fresh_container rest)) y Hv)
          as (root1 & Hm & Hr1 & Hv1); [by rewrite Hr|].
        rewrite Hm in Hrun. simpl in Hrun.
        eapply IH; [|eassumption|done]. intros _.
        rewrite valid_app, read_app, Hr1. simpl. auto.
      * eapply IH; [|eassumption|done]. intros Ho.
        rewrite valid_app, read_app, Hr. split; [|done].
        split; [done|]. by apply get_present.
Qed.

(** A container that [getNestedObject] has just put in never leads to
    a sequence. *)
Lemma getNestedObject_loop_fresh parts :
  ∀ root here root' l xs ps,
    getNestedObject_loop root here (fresh_container parts) parts true
    ≠ Ok (root', Some (l, VArr xs ps)).
Proof.
  induction parts as [|part rest IH]; intros root here root' l xs ps; simpl.
  - done.
  - unfold fresh_container at 1.
    destruct (test_digits part) eqn:Hd; simpl; rewrite ?Hd; [done|].
    destruct (modify root here _) as [root1|]; simpl; [apply IH | done].
Qed.

(** When the parent found is a sequence, nothing was put in on the way
    to it. *)
Lemma getNestedObject_loop_array parts :
  ∀ root here current root' l xs ps,
    getNestedObject_loop root here current parts true
      = Ok (root', Some (l, VArr xs ps)) →
    root' = root.
Proof.
  induction parts as [|part rest IH];
    intros root here current root' l xs ps Hrun; simpl in Hrun.
  - by injection Hrun as <- _ _.
  - destruct (indexed current part) as [ys|].
    + destruct (_ <? _); [by eapply IH | done].
    + destruct (is_object current); [|done].
      destruct (is_undefined (get current part)); [|by eapply IH].
      destruct (modify root here _) as [root1|]; simpl in Hrun; [|done].
      by apply getNestedObject_loop_fresh in Hrun.
Qed.

(** ** The JSON round trip *)

(** A document survives the round trip as it is. *)
Lemma json_copy_document v : is_json v = true → json_copy v = Some v.
Proof.
  induction v as [| | | n | |xs ps IHxs _|fs IHfs] using value_ind; simpl;
    try done.
  - by destruct n.
  - rewrite andb_true_iff. intros [Hxs Hps]. destruct ps; [|done].
    do 2 f_equal. clear Hps.
    induction IHxs as [|x xs Hx _ IH]; simpl in *; [done|].
    apply andb_true_iff in Hxs as [H1 H2]. by rewrite Hx, IH.
  - intros Hfs. do 2 f_equal.
    induction IHfs as [|[k x] fs Hx _ IH]; simpl in *; [done|].
    apply andb_true_iff in Hfs as [H1 H2]. by rewrite Hx, IH.
Qed.

Lemma json_roundtrip_document v : is_json v = true → json_roundtrip v = Ok v.
Proof. intros H. unfold json_roundtrip. by rewrite json_copy_document. Qed.

(** ** Setting the final segment *)

Lemma applyFix_set D f :
  is_json D = true →
  sg_operation (fix_suggestion f) ≠ OpRemove →
  applyFix D f =
    setProperty D (pathParts (sg_path (fix_suggestion f)))
      (sg_value (fix_suggestion f)).
Proof.
  intros HD Hop. unfold applyFix. rewrite json_roundtrip_document by done.
  simpl. by destruct (sg_operation _).
Qed.

(** The final segment of an add, replace or set, at a path without
    inherited names.  When the parent container resolves to a sequence
    and the final segment is a numeric literal [i], the element at [i]
    is overwritten when [i] is in range, the value is appended when [i]
    is the length, and the document is left as it was when [i] is
    beyond the length.  When the parent resolves to a map, the key is
    set, overwriting or creating it.  (For the final segment
    [__proto__] the host language calls the accessor that every map
    inherits, and no key is set.)  So [/xs/2 := 3] makes [{xs: [1, 2]}]
    into [{xs: [1, 2, 3]}], and [/xs/5 := 9] leaves it. *)
Theorem setProperty_final_segment D f root l parent :
  is_json D = true →
  sg_operation (fix_suggestion f) ≠ OpRemove →
  let parts := pathParts (sg_path (fix_suggestion f)) in
  let v := sg_value (fix_suggestion f) in
  parts ≠ [] →
  plain_path parts = true →
  getNestedObject D (removelast parts) true = Ok (root, Some (l, parent)) →
  match parent with
  | VArr xs ps =>
      test_digits (lastPart parts) = true →
      let i := parseInt (lastPart parts) in
      root = D ∧ read D l = VArr xs ps
      ∧ ∃ r, applyFix D f = Ok r
          ∧ read r l = VArr (if i <? length xs then <[i:=v]> xs
                             else if i =? length xs then xs ++ [v]
                             else xs) ps
          ∧ (length xs < i → r = D)
  | VObj fs =>
      read root l = VObj fs
      ∧ ∃ r, applyFix D f = Ok r
          ∧ read r l = VObj (set_field (lastPart parts) v fs)
          ∧ get (read r l) (lastPart parts) = v
          ∧ ∀ k, k ≠ lastPart parts → get (read r l) k = get (read root l) k
  | _ => True
  end
  ∧ applyFix doc_xs (suggest OpSet "/xs/2" (num 3) VUndef)
    = Ok (VObj [("xs", arr [num 1; num 2; num 3])])
  ∧ applyFix doc_xs (suggest OpSet "/xs/5" (num 9) VUndef) = Ok doc_xs.
Proof.
  intros HD Hop parts v Hparts _ Hfound.
  split; [|split; vm_compute; reflexivity].
  assert (is_object parent = true → valid root l ∧ read root l = parent) as Hloc.
  { intros Ho. eapply getNestedObject_loop_found; [|exact Hfound|done].
    intros _. done. }
  assert (applyFix D f =
            match parent with
            | VArr xs ps =>
                if test_digits (lastPart parts) then
                  if parseInt (lastPart parts) <? length xs then
                    modify root l
                      (λ _, Ok (VArr (<[parseInt (lastPart parts):=v]> xs) ps))
                  else if parseInt (lastPart parts) =? length xs then
                    modify root l (λ _, Ok (VArr (xs ++ [v]) ps))
                  else Ok root
                else modify root l (λ p, set p (lastPart parts) v)
            | VObj _ => modify root l (λ p, set p (lastPart parts) v)
            | _ => applyFix D f
            end) as Happly.
  { rewrite applyFix_set by done. unfold setProperty. fold parts v.
    destruct parts as [|p ps]; [done|].
    rewrite Hfound. simpl. by destruct parent. }
  destruct parent as [| | | | |xs ps|fs]; try done.
  - intros Hd i. destruct (Hloc eq_refl) as [Hv Hr].
    pose proof (getNestedObject_loop_array _ _ _ _ _ _ _ _ Hfound) as ->.
    split; [done|]. split; [done|].
    rewrite Happly, Hd. fold i.
    destruct (i <? length xs) eqn:Hlt; [|destruct (i =? length xs) eqn:Heq].
    + destruct (modify_valid l D (λ _, Ok (VArr (<[i:=v]> xs) ps)) _ Hv eq_refl)
        as (r & -> & Hr' & _).
      exists r. split_and!; [done | done |].
      apply Nat.ltb_lt in Hlt. lia.
    + destruct (modify_valid l D (λ _, Ok (VArr (xs ++ [v]) ps)) _ Hv eq_refl)
        as (r & -> & Hr' & _).
      exists r. split_and!; [done | done |].
      apply Nat.eqb_eq in Heq. lia.
    + exists D. by rewrite Hr.
  - destruct (Hloc eq_refl) as [Hv Hr]. split; [done|].
    destruct (modify_valid l root (λ p, set p (lastPart parts) v)
                (VObj (set_field (lastPart parts) v fs)) Hv)
      as (r & Hm & Hr' & _); [by rewrite Hr|].
    exists r. rewrite Happly, Hm, Hr', Hr. split_and!; try done.
    + simpl. unfold field. by rewrite assoc_set_field.
    + intros k Hk. simpl. unfold field. by rewrite assoc_set_field_ne.
Qed.

Lemma setProperty_final_segment_witness :
  ∃ r, applyFix doc_xs (suggest OpSet "/xs/2" (num 3) VUndef) = Ok r
       ∧ read r [SKey "xs"] = arr [num 1; num 2; num 3].
Proof.
  destruct (setProperty_final_segment doc_xs
              (suggest OpSet "/xs/2" (num 3) VUndef) doc_xs [SKey "xs"]
              (arr [num 1; num 2])) as [H _].
  - reflexivity.
  - discriminate.
  - discriminate.
  - reflexivity.
  - reflexivity.
  - destruct (H eq_refl) as (_ & _ & r & Hr & Hread & _).
    exists r. split; [exact Hr | exact Hread].
Defined.

(** ** The diff *)

Lemma stringify_defined v indent :
  is_undefined v = false → is_Some (stringify indent v).
Proof. destruct v as [| |[]|[]| | |]; try done; by eexists. Qed.

Lemma render_defined v :
  is_undefined v = false → stringify EmptyString v = Some (render v).
Proof.
  intros H. unfold render.
  by destruct (stringify_defined v EmptyString H) as [s ->].
Qed.

(** ** The store: allocation *)

Lemma val_in_mono lo hi hi' v :
  Store.val_in lo hi v → hi ≤ hi' → Store.val_in lo hi' v.
Proof. destruct v; simpl; auto. lia. Qed.

Lemma obj_in_mono lo hi hi' o :
  Store.obj_in lo hi o → hi ≤ hi' → Store.obj_in lo hi' o.
Proof.
  intros Ho Hle.
  destruct o; simpl in *; [destruct Ho as [H1 H2]; split|];
    (eapply Forall_impl; [eassumption|]); simpl; intros;
    eapply val_in_mono; eassumption.
Qed.

Ltac widen :=
  intros ? ?; cbv beta in *; eapply val_in_mono;
  [eassumption | rewrite ?length_app, ?length_insert; simpl; lia].

Lemma region_start (h : Store.heap) : Store.region (length h) h.
Proof.
  intros a o Ha Hl. apply lookup_lt_Some in Hl. lia.
Qed.

Lemma region_push lo (h : Store.heap) o :
  Store.region lo h → Store.obj_in lo (S (length h)) o →
  Store.region lo (h ++ [o]).
Proof.
  intros Hr Ho a o' Ha Hl. rewrite length_app. simpl.
  replace (length h + 1) with (S (length h)) by lia.
  destruct (decide (a < length h)) as [Hlt|Hge].
  - rewrite lookup_app_l in Hl by done.
    eapply obj_in_mono; [by eapply Hr | lia].
  - rewrite lookup_app_r in Hl by lia.
    destruct (a - length h) as [|k]; simpl in Hl; [|done]. by injection Hl as <-.
Qed.

Lemma region_write lo (h : Store.heap) a o :
  Store.region lo h → Store.obj_in lo (length h) o →
  Store.region lo (<[a:=o]> h).
Proof.
  intros Hr Ho b o' Hb Hl. rewrite length_insert.
  destruct (decide (a = b)) as [->|Hne].
  - apply list_lookup_insert_Some in Hl as [(_ & <- & _)|[? _]]; done.
  - rewrite list_lookup_insert_ne in Hl by done. by eapply Hr.
Qed.

Lemma alloc_all_allocates {A B} lo (P : nat → B → Prop)
    (f : A → Store.heap → Store.heap * B) l :
  (∀ hi hi' b, P hi b → hi ≤ hi' → P hi' b) →
  Forall (Store.allocates lo P f) l →
  Store.allocates lo (λ hi, Forall (P hi)) (Store.alloc_all f) l.
Proof.
  intros Hmono. induction 1 as [|x l Hx _ IH]; intros h h' rs Hlo Hr; simpl.
  - intros [= <- <-]. split_and!; [by exists []; rewrite app_nil_r | done | done].
  - destruct (f x h) as [h1 x'] eqn:E1.
    destruct (Store.alloc_all f l h1) as [h2 r'] eqn:E2.
    intros [= <- <-].
    destruct (Hx _ _ _ Hlo Hr E1) as ([e1 ->] & Hr1 & Hp1).
    assert (lo ≤ length (h ++ e1)) as Hlo1 by (rewrite length_app; lia).
    destruct (IH _ _ _ Hlo1 Hr1 E2) as ([e2 ->] & Hr2 & Hp2).
    split_and!; [by exists (e1 ++ e2); rewrite app_assoc | done |].
    constructor; [|done]. eapply Hmono; [done|]. rewrite !length_app. lia.
Qed.

Lemma alloc_allocates lo v : Store.allocates lo (Store.val_in lo) Store.alloc v.
Proof.
  induction v as [| | | | |xs ps IHxs IHps|fs IHfs] using value_ind;
    intros h h' r Hlo Hr; simpl;
    try (intros [= <- <-];
         split_and!; [by exists []; rewrite app_nil_r | done | done]).
  - destruct (Store.alloc_all Store.alloc xs h) as [h1 xs'] eqn:E1.
    destruct (Store.alloc_all _ ps h1) as [h2 ps'] eqn:E2.
    intros [= <- <-].
    destruct (alloc_all_allocates lo (Store.val_in lo) Store.alloc xs
                (val_in_mono lo) IHxs _ _ _ Hlo Hr E1) as ([e1 ->] & Hr1 & Hp1).
    eapply (alloc_all_allocates lo (λ hi kv, Store.val_in lo hi kv.2)) in E2
      as ([e2 ->] & Hr2 & Hp2); [| by intros; eapply val_in_mono | |
                                   rewrite length_app; lia | done].
    + split_and!.
      * exists (e1 ++ e2 ++ [Store.HArr xs' ps']). by rewrite !app_assoc.
      * apply region_push; [done|]. split.
        -- eapply Forall_impl; [exact Hp1|]. widen.
        -- eapply Forall_impl; [exact Hp2|]. widen.
      * simpl. rewrite !length_app in *. simpl. lia.
    + eapply Forall_impl; [exact IHps|]. intros [k x] Hx h3 h4 [k' x'] ? ?.
      simpl. destruct (Store.alloc x h3) as [h5 y] eqn:E. intros [= <- <- <-].
      by eapply Hx.
  - destruct (Store.alloc_all _ fs h) as [h1 fs'] eqn:E1.
    intros [= <- <-].
    eapply (alloc_all_allocates lo (λ hi kv, Store.val_in lo hi kv.2)) in E1
      as ([e1 ->] & Hr1 & Hp1); [| by intros; eapply val_in_mono | | done | done].
    + split_and!.
      * exists (e1 ++ [Store.HObj fs']). by rewrite !app_assoc.
      * apply region_push; [done|]. simpl.
        eapply Forall_impl; [exact Hp1|]. widen.
      * simpl. rewrite !length_app in *. simpl. lia.
    + eapply Forall_impl; [exact IHfs|]. intros [k x] Hx h3 h4 [k' x'] ? ?.
      simpl. destruct (Store.alloc x h3) as [h5 y] eqn:E. intros [= <- <- <-].
      by eapply Hx.
Qed.

(** ** The store: assignments stay in the new part *)

Lemma Forall_replace_field {A} (P : A → Prop) k v fs :
  Forall (λ kv, P kv.2) fs → P v → Forall (λ kv, P kv.2) (replace_field k v fs).
Proof.
  intros Hfs Hv. induction Hfs as [|[k' x] fs Hx Hfs IH]; simpl; [done|].
  destruct (String.eqb k k'); constructor; done.
Qed.

Lemma Forall_insert_index {A} (P : A → Prop) i k v fs :
  Forall (λ kv, P kv.2) fs → P v → Forall (λ kv, P kv.2) (insert_index i k v fs).
Proof.
  intros Hfs Hv. induction Hfs as [|[k' x] fs Hx Hfs IH]; simpl.
  - by constructor.
  - repeat case_match; repeat constructor; done.
Qed.

Lemma Forall_set_field {A} (P : A → Prop) k v fs :
  Forall (λ kv, P kv.2) fs → P v → Forall (λ kv, P kv.2) (set_field k v fs).
Proof.
  intros Hfs Hv. unfold set_field. repeat case_match.
  - by apply Forall_replace_field.
  - by apply Forall_insert_index.
  - apply Forall_app. split; [done|]. by constructor.
Qed.

Lemma Forall_delete_field {A} (P : A → Prop) k fs :
  Forall (λ kv, P kv.2) fs → Forall (λ kv, P kv.2) (delete_field k fs).
Proof.
  induction 1 as [|[k' x] fs Hx Hfs IH]; simpl; [done|].
  destruct (String.eqb k k'); [done | by constructor].
Qed.

Lemma Forall_resize {A} (P : A → Prop) hole n xs :
  Forall P xs → P hole → Forall P (resize hole n xs).
Proof.
  intros Hxs Hh. unfold resize. apply Forall_app. split.
  - by apply Forall_take.
  - by apply Forall_replicate.
Qed.

Lemma Forall_set_elem {A} (P : A → Prop) hole i v xs :
  Forall P xs → P hole → P v → Forall P (set_elem hole i v xs).
Proof.
  intros Hxs Hh Hv. unfold set_elem. case_match.
  - by apply Forall_insert.
  - rewrite !Forall_app. split_and!; [done | by apply Forall_replicate |].
    by constructor.
Qed.

Lemma get_val_in lo hi o k :
  Store.obj_in lo hi o → Store.val_in lo hi (Store.get o k).
Proof.
  assert (∀ fs, Forall (λ kv, Store.val_in lo hi kv.2) fs →
                Store.val_in lo hi (Store.hfield k fs)) as Hfield.
  { intros fs Hfs. unfold Store.hfield.
    induction Hfs as [|[k' x] fs Hx _ IH]; simpl; [done|].
    by destruct (String.eqb k k'). }
  destruct o as [xs ps|fs]; simpl; [|by auto]. intros [Hxs Hps].
  repeat case_match; try done; [|by auto].
  unfold Store.helem. destruct (xs !! _) eqn:E; [|done]. simpl.
  by eapply Forall_lookup_1 in E.
Qed.

Lemma helem_val_in lo hi xs i :
  Forall (Store.val_in lo hi) xs → Store.val_in lo hi (Store.helem xs i).
Proof.
  intros Hxs. unfold Store.helem. destruct (xs !! i) eqn:E; [|done]. simpl.
  by eapply Forall_lookup_1 in E.
Qed.

Lemma set_obj_in h lo hi o k v o' :
  Store.obj_in lo hi o → Store.val_in lo hi v →
  Store.set h o k v = Ok o' → Store.obj_in lo hi o'.
Proof.
  intros Ho Hv. destruct o as [xs ps|fs]; simpl in *.
  - destruct Ho as [Hxs Hps]. repeat case_match.
    + unfold set_length. case_match; [|done]. simpl. intros [= <-].
      split; [|done]. by apply Forall_resize.
    + intros [= <-]. split; [|done]. by apply Forall_set_elem.
    + intros [= <-]. split; [done|]. by apply Forall_set_field.
  - intros [= <-]. by apply Forall_set_field.
Qed.

Lemma fresh_container_in lo hi rest :
  Store.obj_in lo hi (Store.fresh_container rest).
Proof.
  unfold Store.fresh_container. repeat case_match; simpl; auto.
Qed.

Lemma framed_refl lo (h : Store.heap) :
  Store.region lo h → Store.framed lo h h.
Proof. intros Hr. unfold Store.framed. split_and!; done. Qed.

Lemma framed_trans lo (h1 h2 h3 : Store.heap) :
  Store.framed lo h1 h2 → Store.framed lo h2 h3 → Store.framed lo h1 h3.
Proof.
  intros (E1 & L1 & _) (E2 & L2 & R).
  unfold Store.framed. split_and!; [congruence | lia | done].
Qed.

Lemma framed_push lo (h : Store.heap) o :
  lo ≤ length h → Store.region lo h → Store.obj_in lo (S (length h)) o →
  Store.framed lo h (h ++ [o]).
Proof.
  intros Hlo Hr Ho. unfold Store.framed. split_and!.
  - by rewrite take_app_le.
  - rewrite length_app. lia.
  - by apply region_push.
Qed.

Lemma framed_write lo (h : Store.heap) a o :
  lo ≤ a → Store.region lo h → Store.obj_in lo (length h) o →
  Store.framed lo h (<[a:=o]> h).
Proof.
  intros Ha Hr Ho. unfold Store.framed. split_and!.
  - by rewrite take_insert_ge.
  - by rewrite length_insert.
  - by apply region_write.
Qed.

(** [getNestedObject] only writes to the new part of the store. *)
Lemma getNestedObject_framed lo parts :
  ∀ h current create h' r,
    lo ≤ length h → Store.region lo h →
    Store.val_in lo (length h) current →
    Store.getNestedObject h current parts create = (h', r) →
    Store.framed lo h h'
    ∧ ∀ v, r = Ok v → Store.val_in lo (length h') v.
Proof.
  induction parts as [|part rest IH];
    intros h current create h' r Hlo Hr Hc; simpl.
  - intros [= <- <-]. split; [by apply framed_refl|]. by intros v [= <-].
  - destruct current as [| | | | |a];
      try (intros [= <- <-]; split; [by apply framed_refl|]; by intros v [= <-]).
    destruct (h !! a) as [o|] eqn:Ea;
      [|intros [= <- <-]; split; [by apply framed_refl|]; by intros v [= <-]].
    simpl in Hc. pose proof (Hr a o (proj1 Hc) Ea) as Ho.
    destruct (Store.indexed o part) as [xs|] eqn:Hi.
    + destruct (_ <? _);
        [|intros [= <- <-]; split; [by apply framed_refl|]; by intros v [= <-]].
      apply IH; [done | done |].
      destruct o as [ys ps|]; [|done]. simpl in Hi.
      destruct (test_digits part); [|done]. injection Hi as <-.
      apply helem_val_in, Ho.
    + destruct (Store.is_undef (Store.get o part)).
      * destruct create;
          [|intros [= <- <-]; split; [by apply framed_refl|]; by intros v [= <-]].
        assert (Store.framed lo h (h ++ [Store.fresh_container rest])) as Hf1.
        { apply framed_push; [done | done | apply fresh_container_in]. }
        destruct (Store.set _ o part _) as [o'|e] eqn:Es;
          [|intros [= <- <-]; split; [done | by intros v [=]]].
        intros Hrun.
        assert (Store.obj_in lo (length (h ++ [Store.fresh_container rest])) o')
          as Ho'.
        { eapply set_obj_in; [| |exact Es].
          - eapply obj_in_mono; [exact Ho|]. rewrite length_app. lia.
          - simpl. rewrite length_app. simpl. lia. }
        assert (Store.framed lo h
                  (<[a:=o']> (h ++ [Store.fresh_container rest]))) as Hf2.
        { eapply framed_trans; [exact Hf1|].
          apply framed_write; [lia | apply Hf1 | done]. }
        apply IH in Hrun as [Hf3 Hv].
        -- split; [|done]. by eapply framed_trans.
        -- rewrite length_insert, length_app. lia.
        -- apply Hf2.
        -- simpl. rewrite length_insert, length_app. simpl. lia.
      * apply IH; [done | done | by apply get_val_in].
Qed.

Lemma held_Some h parent a o lo hi :
  Store.held h parent = Some (a, o) → Store.val_in lo hi parent →
  parent = Store.HRef a ∧ h !! a = Some o ∧ lo ≤ a.
Proof.
  destruct parent as [| | | | |b]; try done. simpl.
  destruct (h !! b) eqn:E; [|done]. simpl. intros [= <- <-] [? _]. done.
Qed.

(** [setProperty] and [removeProperty] only write to the new part. *)
Lemma setProperty_framed lo h obj parts v h' r :
  lo ≤ length h → Store.region lo h → Store.val_in lo (length h) obj →
  Store.setProperty h obj parts v = (h', r) →
  take lo h' = take lo h ∧ length h ≤ length h'.
Proof.
  intros Hlo Hr Hobj. unfold Store.setProperty.
  destruct parts as [|p ps]; [by intros [= <- <-]|].
  destruct (Store.getNestedObject h obj _ true) as [h1 [parent|e]] eqn:Eg;
    apply (getNestedObject_framed lo) in Eg as [(Et & El & Hr1) Hv];
    try done; [|by intros [= <- <-]].
  destruct (Store.held h1 parent) as [[a o]|] eqn:Eh; [|by intros [= <- <-]].
  eapply held_Some in Eh as (-> & Ea & Hlo'); [|by apply Hv].
  assert (∀ o', take lo (<[a:=o']> h1) = take lo h
                ∧ length h ≤ length (<[a:=o']> h1)) as Hw.
  { intros o'. by rewrite take_insert_ge, length_insert by done. }
  repeat case_match; intros [= <- <-]; auto.
Qed.

Lemma removeProperty_framed lo h obj parts h' r :
  lo ≤ length h → Store.region lo h → Store.val_in lo (length h) obj →
  Store.removeProperty h obj parts = (h', r) →
  take lo h' = take lo h ∧ length h ≤ length h'.
Proof.
  intros Hlo Hr Hobj. unfold Store.removeProperty.
  destruct parts as [|p ps]; [by intros [= <- <-]|].
  destruct (Store.getNestedObject h obj _ false) as [h1 [parent|e]] eqn:Eg;
    apply (getNestedObject_framed lo) in Eg as [(Et & El & Hr1) Hv];
    try done; [|by intros [= <- <-]].
  destruct (Store.held h1 parent) as [[a o]|] eqn:Eh; [|by intros [= <- <-]].
  eapply held_Some in Eh as (-> & Ea & Hlo'); [|by apply Hv].
  assert (∀ o', take lo (<[a:=o']> h1) = take lo h
                ∧ length h ≤ length (<[a:=o']> h1)) as Hw.
  { intros o'. by rewrite take_insert_ge, length_insert by done. }
  repeat case_match; intros [= <- <-]; auto.
Qed.

(** ** The store: unfolding values *)

(** More fuel and a longer store unfold a value to the same tree. *)
Lemma reify_mono fuel :
  ∀ fuel' (h ext : Store.heap) v t,
    fuel ≤ fuel' →
    Store.reify fuel h v = Some t → Store.reify fuel' (h ++ ext) v = Some t.
Proof.
  induction fuel as [|fuel IH]; intros fuel' h ext v t Hle.
  - destruct v; simpl; try done; destruct fuel'; done.
  - destruct fuel' as [|fuel']; [lia|].
    destruct v as [| | | | |a]; simpl; try done.
    destruct (h !! a) as [o|] eqn:Ea; [|done].
    rewrite (lookup_app_l_Some _ _ _ _ Ea).
    assert (∀ xs ys, mapM (Store.reify fuel h) xs = Some ys →
              mapM (Store.reify fuel' (h ++ ext)) xs = Some ys) as Hxs.
    { intros xs ys. rewrite !mapM_Some. intros H.
      eapply Forall2_impl; [exact H|]. intros x y. apply IH. lia. }
    assert (∀ (fs : list (string * Store.hval)) gs,
              mapM (λ '(k, x), pair k <$> Store.reify fuel h x) fs = Some gs →
              mapM (λ '(k, x), pair k <$> Store.reify fuel' (h ++ ext) x) fs
              = Some gs) as Hfs.
    { intros fs gs. rewrite !mapM_Some. intros H.
      eapply Forall2_impl; [exact H|]. intros [k x] [k' y].
      destruct (Store.reify fuel h x) as [z|] eqn:E; [|done].
      by rewrite (IH fuel' h ext x z ltac:(lia) E). }
    destruct o as [xs ps|fs].
    + destruct (mapM (Store.reify fuel h) xs) as [xs'|] eqn:E1; [|done].
      simpl. destruct (mapM _ ps) as [ps'|] eqn:E2; [|done]. simpl.
      intros [= <-]. by rewrite (Hxs _ _ E1), (Hfs _ _ E2).
    + destruct (mapM _ fs) as [fs'|] eqn:E1; [|done]. simpl.
      intros [= <-]. by rewrite (Hfs _ _ E1).
Qed.

Lemma snapshot_mono (h ext : Store.heap) v t :
  Store.snapshot h v = Some t → Store.snapshot (h ++ ext) v = Some t.
Proof.
  unfold Store.snapshot. apply reify_mono. rewrite length_app. lia.
Qed.

(** ** Applying a fix leaves the document alone *)

(** C1, as stated, fails: the value of the suggestion is put into the
    copy as it is, so that where it is an object of the document itself
    the returned document holds that very object and is not newly
    allocated throughout; and where the final segment of the path names
    the length of a sequence, a value that is no array length makes
    [applyFix] throw instead of returning a document.  The document is
    untouched in both cases. *)
Lemma applyFix_shares_or_throws :
  (∃ h', Store.applyFix Store.sample_store Store.sample_root
           Store.replace_by_own = (h', Ok (Store.HRef 3))
         ∧ h' !! 3 = Some (Store.HObj [("xs", Store.HRef 0)])
         ∧ Store.sample_store !! 1 = Some (Store.HObj [("xs", Store.HRef 0)]))
  ∧ (Store.applyFix Store.sample_store Store.sample_root
       (Store.set_length_to (-1))).2 = Throw RangeError
  ∧ applyFix doc_xs (suggest OpSet "/xs/length" (num (-1)) VUndef)
    = Throw RangeError
  ∧ Store.snapshot Store.sample_store Store.sample_root = Some doc_xs.
Proof.
  split_and!; [|vm_compute; reflexivity..].
  eexists. split_and!; reflexivity.
Qed.

(** C1, amended: for a path without inherited names, which leads
    through own properties only and not, by way of [__proto__], into the
    prototypes that every object shares, [applyFix] never changes an
    object that was in the store before the call, so that the document,
    like every other value, unfolds to the tree it unfolded to before;
    and whenever it returns, what it returns is an object allocated
    during the call (or, for a document that is no object, a primitive
    value), the only place where the edit shows. *)
Theorem applyFix_frame (h : Store.heap) config s h' r :
  plain_path (pathParts (Store.path s)) = true →
  Store.applyFix h config s = (h', r) →
  (∃ ext, h' = h ++ ext)
  ∧ (∀ v t, Store.snapshot h v = Some t → Store.snapshot h' v = Some t)
  ∧ (∀ c, r = Ok c → Store.val_in (length h) (length h') c).
Proof.
  intros _ Happly.
  assert ((∃ ext, h' = h ++ ext)
          ∧ ∀ c, r = Ok c → Store.val_in (length h) (length h') c) as [He Hc].
  { revert Happly. unfold Store.applyFix, Store.json_roundtrip.
    destruct (Store.snapshot h config) as [t|];
      [|intros [= <- <-]; split; [by exists []; rewrite app_nil_r | done]].
    destruct (json_copy t) as [c|];
      [|intros [= <- <-]; split; [by exists []; rewrite app_nil_r | done]].
    destruct (Store.alloc c h) as [h1 copy] eqn:Ea.
    destruct (alloc_allocates (length h) c h h1 copy (le_n _) (region_start h) Ea)
      as ([e1 ->] & Hr1 & Hv1).
    assert (length h ≤ length (h ++ e1)) as Hlo by (rewrite length_app; lia).
    assert (∀ h2, take (length h) h2 = take (length h) (h ++ e1) →
                  ∃ ext, h2 = h ++ ext) as Hext.
    { intros h2 Ht. exists (drop (length h) h2).
      rewrite <-(take_drop (length h) h2) at 1. f_equal.
      by rewrite Ht, take_app_length. }
    destruct (Store.operation s);
      [destruct (Store.setProperty _ _ _ _) as [h2 r0] eqn:Es
      |destruct (Store.removeProperty _ _ _) as [h2 r0] eqn:Es
      |destruct (Store.setProperty _ _ _ _) as [h2 r0] eqn:Es
      |destruct (Store.setProperty _ _ _ _) as [h2 r0] eqn:Es];
      (apply (setProperty_framed (length h)) in Es as [Et El]
       || apply (removeProperty_framed (length h)) in Es as [Et El]);
      try done;
      intros [= <- <-]; (split; [by apply Hext|]);
      intros c'; destruct r0; simpl; try done;
      intros [= <-]; (eapply val_in_mono; [exact Hv1 | done]). }
  split_and!; [done | | done].
  destruct He as [ext ->]. intros v t. apply snapshot_mono.
Qed.

Lemma applyFix_frame_witness :
  Store.snapshot
    (Store.applyFix Store.sample_store Store.sample_root
       (Store.set_length_to 1)).1 Store.sample_root
  = Some doc_xs.
Proof.
  destruct (Store.applyFix Store.sample_store Store.sample_root
              (Store.set_length_to 1)) as [h' r] eqn:E.
  apply (applyFix_frame Store.sample_store Store.sample_root
           (Store.set_length_to 1) h' r eq_refl E).
  reflexivity.
Defined.

(** ** Sample runs *)

(** The document [{s: "abcdef"}] with the error [{keyword: maxLength,
    instancePath: /s, params: {limit: 3}}]: the fix replaces [/s] by
    ["abc"]. *)
Example truncation :
  ∃ f, generateFixes sample_clock [limit_error "maxLength" "/s" 3]
         (VObj [("s", VStr "abcdef")]) = Ok [f]
       ∧ fix_suggestion f =
           {| sg_operation := OpReplace; sg_path := "/s";
              sg_value := VStr "abc"; sg_oldValue := VStr "abcdef" |}.
Proof. eexists. split; vm_compute; reflexivity. Qed.

(** A path through a missing branch is created in one call, and a
    numeric segment in it makes a sequence that is then left empty. *)
Example missing_branches :
  applyFix doc_xs (suggest OpAdd "/a/b/c" (num 1) VUndef)
  = Ok (VObj [("xs", arr [num 1; num 2]);
              ("a", VObj [("b", VObj [("c", num 1)])])])
  ∧ applyFix doc_xs (suggest OpAdd "/a/0/c" (num 1) VUndef)
    = Ok (VObj [("xs", arr [num 1; num 2]); ("a", arr [])]).
Proof. split; vm_compute; reflexivity. Qed.

(** The two renderings of [applyFix] agree on the sample edits: the
    store version returns, unfolded, what the version over trees
    returns, throws where it throws, and leaves the document as it
    was. *)
Example store_agrees : edit_store <$> sample_edits = edit_tree <$> sample_edits.
Proof. vm_compute; reflexivity. Qed.

Example number_texts :
  num_to_string <$> [Fin 15 (-1); Fin 1 21; Fin 1 (-7); Fin (-1250) (-2)]
  = ["1.5"; "1e+21"; "1e-7"; "-12.5"]
  ∧ StringToNumber <$> ["12"; " 3.5 "; "1e3"; "0x1F"; "12px"; "Infinity"]
    = [Fin 12 0; Fin 35 (-1); Fin 1 3; Fin 31 0; NaN; Inf false].
Proof. split; reflexivity. Qed.

(** * Further properties of the service *)

(** ** Paths *)

Lemma str_split_nonempty sep s : str_split sep s ≠ [].
Proof.
  destruct s as [|c r]; simpl; [done|].
  destruct (Ascii.eqb c sep); [done|]. by destruct (str_split sep r).
Qed.

Lemma str_split_app sep a b :
  str_split sep (a +:+ String sep b) = str_split sep a ++ str_split sep b.
Proof.
  induction a as [|c r IH]; simpl.
  - by rewrite Ascii.eqb_refl.
  - rewrite IH. destruct (Ascii.eqb c sep); [done|].
    pose proof (str_split_nonempty sep r).
    by destruct (str_split sep r).
Qed.

Lemma str_split_no_sep sep s :
  sep ∉ list_ascii_of_string s → str_split sep s = [s].
Proof.
  induction s as [|c r IH]; simpl; [done|].
  rewrite not_elem_of_cons. intros [Hc Hr].
  destruct (Ascii.eqb c sep) eqn:E; [by apply Ascii.eqb_eq in E|].
  by rewrite IH.
Qed.

Lemma str_split_segments sep s :
  Forall (λ p, sep ∉ list_ascii_of_string p) (str_split sep s).
Proof.
  induction s as [|c r IH]; simpl.
  - repeat constructor. apply not_elem_of_nil.
  - destruct (Ascii.eqb c sep) eqn:E.
    + constructor; [apply not_elem_of_nil | done].
    + destruct (str_split sep r) as [|h t].
      * repeat constructor. simpl. rewrite not_elem_of_cons.
        split; [|apply not_elem_of_nil].
        intros ->. by rewrite Ascii.eqb_refl in E.
      * apply Forall_cons in IH as [Hh Ht]. constructor; [|done].
        simpl. rewrite not_elem_of_cons. split; [|done].
        intros ->. by rewrite Ascii.eqb_refl in E.
Qed.

Lemma pathParts_app a b :
  pathParts (a +:+ "/" +:+ b) = pathParts a ++ pathParts b.
Proof.
  unfold pathParts. change ("/" +:+ b) with (String "/"%char b).
  by rewrite str_split_app, filter_app.
Qed.

Lemma pathParts_empty : pathParts EmptyString = [].
Proof. done. Qed.

Lemma pathParts_segment p : is_segment p → pathParts p = [p].
Proof.
  intros [Hne Hs]. unfold pathParts. rewrite str_split_no_sep by done.
  by rewrite filter_cons_True.
Qed.

(** X1: the segments of a path are not empty and hold no slash, and a
    slash in front of a path or behind it makes no difference. *)
Theorem pathParts_normal path :
  Forall is_segment (pathParts path)
  ∧ pathParts ("/" +:+ path) = pathParts path
  ∧ pathParts (path +:+ "/") = pathParts path.
Proof.
  split_and!.
  - unfold pathParts. apply Forall_forall. intros p.
    rewrite list_elem_of_filter. intros [Hne Hin]. split; [done|].
    pose proof (str_split_segments "/" path) as H.
    rewrite Forall_forall in H. by apply H.
  - exact (pathParts_app EmptyString path).
  - change (path +:+ "/") with (path +:+ "/" +:+ EmptyString).
    by rewrite pathParts_app, pathParts_empty, app_nil_r.
Qed.

Lemma pathParts_joinPath s property :
  pathParts (joinPath (VStr s) property)
  = pathParts s ++ pathParts (ToString property).
Proof.
  unfold joinPath. simpl. destruct (String.eqb s EmptyString) eqn:E; simpl.
  - apply String.eqb_eq in E as ->. exact (pathParts_app EmptyString _).
  - apply pathParts_app.
Qed.

(** X2: the path that a [required] or an [additionalProperties] fix
    is given leads to the segments of the path of the error, followed
    by the segments of the property name: one segment for a name
    without a slash, none for the empty name. *)
Theorem joinPath_parts s property :
  pathParts (joinPath (VStr s) property)
  = pathParts s ++ pathParts (ToString property)
  ∧ (is_segment (ToString property) →
     pathParts (joinPath (VStr s) property) = pathParts s ++ [ToString property])
  ∧ (ToString property = EmptyString →
     pathParts (joinPath (VStr s) property) = pathParts s).
Proof.
  rewrite pathParts_joinPath. split_and!; [done | |].
  - intros H. by rewrite (pathParts_segment _ H).
  - intros ->. by rewrite pathParts_empty, app_nil_r.
Qed.

Lemma joinPath_parts_witness :
  pathParts (joinPath (VStr "/a") (VStr "b")) = ["a"; "b"]
  ∧ pathParts (joinPath (VStr "/a") (VStr EmptyString)) = ["a"].
Proof.
  split.
  - apply (joinPath_parts "/a" (VStr "b")).
    split; [done | simpl; set_solver].
  - apply (joinPath_parts "/a" (VStr EmptyString)). reflexivity.
Defined.

(** X3: a list of segments is what the path made of them, each behind
    a slash, splits into. *)
Theorem pathParts_join parts :
  Forall is_segment parts →
  pathParts ("/" +:+ str_join "/" parts) = parts.
Proof.
  intros H. etrans; [exact (pathParts_app EmptyString _)|]. simpl.
  induction H as [|p parts Hp Hparts IH]; [done|].
  destruct parts as [|q parts].
  - by apply pathParts_segment.
  - change (str_join "/" (p :: q :: parts))
      with (p +:+ "/" +:+ str_join "/" (q :: parts)).
    by rewrite pathParts_app, IH, pathParts_segment.
Qed.

Lemma pathParts_join_witness :
  pathParts ("/" +:+ str_join "/" ["a"; "0"; "b"]) = ["a"; "0"; "b"].
Proof.
  apply (pathParts_join ["a"; "0"; "b"]).
  repeat constructor; (done || (simpl; set_solver)).
Defined.

(** ** Reading along a path *)

Lemma getNestedValue_undefined parts : getNestedValue VUndef parts = VUndef.
Proof. by destruct parts. Qed.

Lemma getNestedValue_app c p1 p2 :
  getNestedValue c (p1 ++ p2) = getNestedValue (getNestedValue c p1) p2.
Proof.
  revert c. induction p1 as [|part rest IH]; intros c; simpl; [done|].
  destruct (is_object c); [|by rewrite getNestedValue_undefined].
  by destruct (indexed c part).
Qed.

Lemma navigate_getNestedValue c parts :
  navigate c parts = getNestedValue c parts.
Proof.
  revert c. induction parts as [|part rest IH]; intros c; simpl; [done|].
  destruct (is_object c); [|done]. by destruct (indexed c part).
Qed.

Lemma elem_beyond xs i : length xs ≤ i → elem xs i = VUndef.
Proof. intros H. unfold elem. by rewrite lookup_ge_None_2. Qed.

Lemma is_undefined_true v : is_undefined v = true → v = VUndef.
Proof. by destruct v. Qed.

Lemma getNestedObject_loop_reads parts :
  ∀ root here current,
    ∃ found,
      getNestedObject_loop root here current parts false = Ok (root, found)
      ∧ getNestedValue current parts = from_option snd VUndef found.
Proof.
  induction parts as [|part rest IH]; intros root here current; simpl.
  - by eexists.
  - destruct (indexed current part) as [xs|] eqn:Hi.
    + apply indexed_Some in Hi as [[ps ->] Hd].
      replace (is_object (VArr xs ps)) with true by done.
      destruct (parseInt part <? length xs) eqn:Hlt; [apply IH|].
      apply Nat.ltb_ge in Hlt. exists None. split; [done|].
      by rewrite elem_beyond, getNestedValue_undefined.
    + destruct (is_object current); [|by exists None].
      destruct (is_undefined (get current part)) eqn:Hu; [|apply IH].
      apply is_undefined_true in Hu as ->. exists None.
      by rewrite getNestedValue_undefined.
Qed.

(** X4: without [createMissing], [getNestedObject] never throws,
    leaves the document as it is and returns what [getNestedValue]
    returns for the same path. *)
Theorem getNestedObject_reads D parts :
  ∃ found,
    getNestedObject D parts false = Ok (D, found)
    ∧ getNestedValue D parts = from_option snd VUndef found.
Proof. apply getNestedObject_loop_reads. Qed.

(** ** Locations and the paths that lead to them *)

Lemma marks_valid parts : ∀ root l, marks root parts l → valid root l.
Proof.
  induction parts as [|part rest IH]; intros root [|[i|k] l]; simpl; try done.
  - destruct root; try done. intros (_ & _ & Hi & H). eauto.
  - intros [-> H]. destruct root; try done.
    + destruct H as (Hd & Hl & Hs & H).
      split_and!; [done | by apply not_digits_index | done | eauto].
    + destruct H as (Hs & H). eauto.
Qed.

(** Where a path leads is what the reader finds along it. *)
Lemma marks_reads parts :
  ∀ root l, marks root parts l → getNestedValue root parts = read root l.
Proof.
  induction parts as [|part rest IH]; intros root [|[i|k] l]; simpl; try done.
  - destruct root; try done. intros (Hd & -> & Hi & H).
    replace (is_object (VArr elems props)) with true by done.
    simpl. rewrite Hd. by apply IH.
  - intros [-> H]. destruct root as [| | | | |xs ps|fs]; try done.
    + destruct H as (Hd & Hl & Hs & H).
      replace (is_object (VArr xs ps)) with true by done.
      unfold indexed. rewrite Hd.
      rewrite get_named by (done || by apply not_digits_index).
      by apply IH.
    + destruct H as (Hs & H).
      replace (is_object (VObj fs)) with true by done. by apply IH.
Qed.

Lemma marks_app p1 : ∀ root l1 p2 l2,
  marks root p1 l1 → marks (read root l1) p2 l2 →
  marks root (p1 ++ p2) (l1 ++ l2).
Proof.
  induction p1 as [|part rest IH]; intros root [|[i|k] l1] p2 l2; simpl;
    try done.
  - destruct root; try done. intros (Hd & -> & Hi & H) H2.
    split_and!; try done. by apply IH.
  - intros [-> H] H2. split; [done|].
    destruct root as [| | | | |xs ps|fs]; try done.
    + destruct H as (Hd & Hl & Hs & H). split_and!; try done.
      apply IH; [done|].
      by rewrite get_named in H2 by (done || by apply not_digits_index).
    + destruct H as (Hs & H). split; [done|]. by apply IH.
Qed.

(** Writing where a path leads leaves the path leading there. *)
Lemma modify_marks parts : ∀ l root f y,
  marks root parts l → f (read root l) = Ok y →
  ∃ root', modify root l f = Ok root' ∧ read root' l = y
           ∧ marks root' parts l.
Proof.
  induction parts as [|part rest IH]; intros [|[i|k] l] root f y Hm Hf;
    simpl in *; try done.
  - eauto.
  - destruct root as [| | | | |xs ps|]; try done.
    destruct Hm as (Hd & -> & Hi & Hm).
    destruct (IH _ _ _ _ Hm Hf) as (x & -> & Hr & Hm'). simpl.
    eexists. split; [done|].
    unfold elem. rewrite list_lookup_insert_eq by done. simpl.
    by rewrite length_insert.
  - destruct Hm as [-> Hm].
    destruct root as [| | | | |xs ps|fs]; try done.
    + destruct Hm as (Hd & Hl & Hs & Hm).
      rewrite get_named in Hf by (done || by apply not_digits_index).
      destruct (IH _ _ _ _ Hm Hf) as (x & -> & Hr & Hm'). simpl.
      eexists. split; [done|].
      rewrite get_named by (done || by apply not_digits_index).
      unfold field. rewrite assoc_replace_field by done. simpl. done.
    + destruct Hm as (Hs & Hm).
      destruct (IH _ _ _ _ Hm Hf) as (x & -> & Hr & Hm'). simpl.
      eexists. split; [done|]. simpl.
      unfold field. rewrite assoc_replace_field by done. simpl. done.
Qed.

Lemma set_missing_marks c part v :
  is_object c = true → indexed c part = None →
  is_undefined (get c part) = true →
  ∃ y, set c part v = Ok y ∧ marks y [part] [SKey part] ∧ get y part = v.
Proof.
  intros [(xs & ps & ->)|(fs & ->)]%is_object_container Hi Hu.
  - apply indexed_None_array in Hi.
    pose proof (not_digits_index _ Hi) as Hx.
    assert (part ≠ "length") as Hl.
    { by intros ->. }
    unfold set. rewrite (proj2 (String.eqb_neq _ _) Hl), Hx.
    eexists. split; [done|]. rewrite get_named by done. simpl.
    unfold field. rewrite assoc_set_field. eauto 10.
  - eexists. split; [done|]. simpl.
    unfold field. rewrite assoc_set_field. eauto.
Qed.

Lemma get_present_marks c part :
  is_object c = true → indexed c part = None →
  is_undefined (get c part) = false → is_object (get c part) = true →
  marks c [part] [SKey part].
Proof.
  intros [(xs & ps & ->)|(fs & ->)]%is_object_container Hi Hu Ho.
  - apply indexed_None_array in Hi.
    pose proof (not_digits_index _ Hi) as Hx.
    assert (part ≠ "length") as Hl.
    { intros ->. unfold is_object in Ho. simpl in Ho.
      by rewrite andb_false_r in Ho. }
    rewrite get_named in Hu by done. simpl. split_and!; try done.
    apply (field_is_Some _ _ VUndef). intros E. unfold field in Hu.
    by rewrite E in Hu.
  - simpl in *. split_and!; try done.
    apply (field_is_Some _ _ VUndef). intros E. unfold field in Hu.
    by rewrite E in Hu.
Qed.

(** The container that [getNestedObject] finds lies where the path
    leads in the document as the loop leaves it. *)
Lemma getNestedObject_loop_marks parts :
  ∀ root here current create done root' l parent,
    (is_object current = true
     → marks root done here ∧ read root here = current) →
    getNestedObject_loop root here current parts create
      = Ok (root', Some (l, parent)) →
    is_object parent = true →
    marks root' (done ++ parts) l ∧ read root' l = parent.
Proof.
  induction parts as [|part rest IH];
    intros root here current create done root' l parent Hinv Hrun Hobj;
    simpl in Hrun.
  - injection Hrun as <- <- <-. rewrite app_nil_r. auto.
  - rewrite cons_middle, app_assoc.
    destruct (indexed current part) as [xs|] eqn:Hi.
    + apply indexed_Some in Hi as [[ps ->] Hd].
      destruct (Hinv eq_refl) as [Hv Hr].
      destruct (parseInt part <? length xs) eqn:Hlt; [|done].
      apply Nat.ltb_lt in Hlt.
      eapply IH; [|eassumption|done]. intros _.
      rewrite read_app, Hr. split; [|done].
      apply marks_app; [done|]. rewrite Hr. simpl. auto.
    + destruct (is_object current) eqn:Hc; [|done].
      destruct (Hinv eq_refl) as [Hv Hr].
      destruct (is_undefined (get current part)) eqn:Hu.
      * destruct create; [|done].
        destruct (set_missing_marks current part (fresh_container rest)
                    Hc Hi Hu) as (y & Hy & Hvy & Hgy).
        destruct (modify_marks done here root
                    (λ c, set c part (fresh_container rest)) y Hv)
          as (root1 & Hm & Hr1 & Hv1); [by rewrite Hr|].
        rewrite Hm in Hrun. simpl in Hrun.
        eapply IH; [|eassumption|done]. intros _.
        rewrite read_app, Hr1. split; [|done].
        apply marks_app; [done|]. by rewrite Hr1.
      * eapply IH; [|eassumption|done]. intros Ho.
        rewrite read_app, Hr. split; [|done].
        apply marks_app; [done|]. rewrite Hr. by apply get_present_marks.
Qed.

Lemma getNestedObject_marks D parts create root l parent :
  getNestedObject D parts create = Ok (root, Some (l, parent)) →
  is_object parent = true →
  marks root parts l ∧ read root l = parent.
Proof.
  intros Hrun Hobj.
  by apply (getNestedObject_loop_marks parts D [] D create [] root l parent).
Qed.

(** ** Writing and reading back *)

Lemma parts_snoc (parts : list string) :
  parts ≠ [] → parts = removelast parts ++ [lastPart parts].
Proof.
  destruct parts as [|p parts] using rev_ind; [done|]. intros _.
  unfold lastPart. by rewrite removelast_last, last_snoc.
Qed.

Lemma setProperty_snoc D pp part v :
  setProperty D (pp ++ [part]) v =
    '(obj', found) ← getNestedObject D pp true;
    match found with
    | Some (l, parent) =>
        if is_object parent then
          match parent with
          | VArr xs ps =>
              if test_digits part then
                if parseInt part <? length xs then
                  modify obj' l (λ _, Ok (VArr (<[parseInt part:=v]> xs) ps))
                else if parseInt part =? length xs then
                  modify obj' l (λ _, Ok (VArr (xs ++ [v]) ps))
                else Ok obj'
              else modify obj' l (λ p, set p part v)
          | _ => modify obj' l (λ p, set p part v)
          end
        else Ok obj'
    | None => Ok obj'
    end.
Proof.
  unfold setProperty, lastPart. rewrite removelast_last, last_snoc. simpl.
  by destruct pp.
Qed.

Lemma removeProperty_snoc D pp part :
  removeProperty D (pp ++ [part]) =
    '(obj', found) ← getNestedObject D pp false;
    match found with
    | Some (l, parent) =>
        if is_object parent then
          match parent with
          | VArr xs ps =>
              if test_digits part then
                modify obj' l (λ _, Ok (VArr (splice1 xs (parseInt part)) ps))
              else modify obj' l (λ p, delete p part)
          | _ => modify obj' l (λ p, delete p part)
          end
        else Ok obj'
    | None => Ok obj'
    end.
Proof.
  unfold removeProperty, lastPart. rewrite removelast_last, last_snoc. simpl.
  by destruct pp.
Qed.

Lemma settable_object parent part : settable parent part → is_object parent = true.
Proof. by destruct parent. Qed.

Lemma getNestedValue_last c part :
  is_object c = true →
  getNestedValue c [part] =
    match indexed c part with
    | Some xs => elem xs (parseInt part)
    | None => get c part
    end.
Proof. simpl. intros ->. by destruct (indexed c part). Qed.

(** What is assigned is what is read. *)
Lemma assigned_reads parent part v :
  settable parent part → getNestedValue (assigned parent part v) [part] = v.
Proof.
  destruct parent as [| | | | |xs ps|fs]; try done; unfold settable, assigned.
  - destruct (test_digits part) eqn:Hd.
    + intros Hle. rewrite getNestedValue_last by done. unfold indexed.
      rewrite Hd. unfold elem.
      destruct (parseInt part <? length xs) eqn:Hlt.
      * apply Nat.ltb_lt in Hlt. by rewrite list_lookup_insert_eq.
      * apply Nat.ltb_ge in Hlt.
        by rewrite list_lookup_middle by lia.
    + intros Hl. rewrite getNestedValue_last by done. unfold indexed.
      rewrite Hd.
      rewrite get_named by (done || by apply not_digits_index).
      unfold field. by rewrite assoc_set_field.
  - intros _. rewrite getNestedValue_last by done. simpl.
    unfold field. by rewrite assoc_set_field.
Qed.

(** The assignment of [setProperty], once the parent is found. *)
Lemma setProperty_reads D pp part v root l parent :
  getNestedObject D pp true = Ok (root, Some (l, parent)) →
  settable parent part →
  ∃ r, setProperty D (pp ++ [part]) v = Ok r
       ∧ getNestedValue r pp = assigned parent part v
       ∧ getNestedValue r (pp ++ [part]) = v.
Proof.
  intros Hfound Hset. pose proof (settable_object _ _ Hset) as Hobj.
  destruct (getNestedObject_marks _ _ _ _ _ _ Hfound Hobj) as [Hm Hr].
  rewrite setProperty_snoc, Hfound. simpl. rewrite Hobj.
  assert (∀ g, g (read root l) = Ok (assigned parent part v) →
            ∃ r, modify root l g = Ok r
                 ∧ getNestedValue r pp = assigned parent part v
                 ∧ getNestedValue r (pp ++ [part]) = v) as Hgo.
  { intros g Hg.
    destruct (modify_marks pp l root g _ Hm Hg) as (r & Hmod & Hr' & Hm').
    exists r. split; [done|].
    assert (getNestedValue r pp = assigned parent part v) as Hpp
      by (by rewrite (marks_reads _ _ _ Hm')).
    split; [done|].
    by rewrite getNestedValue_app, Hpp, assigned_reads. }
  destruct parent as [| | | | |xs ps|fs]; try done; simpl in *.
  - destruct (test_digits part) eqn:Hd.
    + destruct (parseInt part <? length xs) eqn:Hlt; [by apply Hgo|].
      apply Nat.ltb_ge in Hlt.
      rewrite (proj2 (Nat.eqb_eq _ _)) by lia. by apply Hgo.
    + apply Hgo. rewrite Hr. simpl.
      by rewrite (proj2 (String.eqb_neq _ _)) , not_digits_index by done.
  - apply Hgo. by rewrite Hr.
Qed.

(** A path to a container resolves to it, and nothing is put in on the
    way. *)
Lemma getNestedObject_loop_resolves pp :
  ∀ root here current create,
    is_object (getNestedValue current pp) = true →
    ∃ l, getNestedObject_loop root here current pp create
         = Ok (root, Some (l, getNestedValue current pp)).
Proof.
  induction pp as [|part rest IH]; intros root here current create; simpl.
  - by eexists.
  - destruct (is_object current) eqn:Hc; [|done].
    destruct (indexed current part) as [xs|] eqn:Hi.
    + intros Ho. destruct (parseInt part <? length xs) eqn:Hlt; [by apply IH|].
      apply Nat.ltb_ge in Hlt.
      by rewrite elem_beyond, getNestedValue_undefined in Ho.
    + intros Ho. destruct (is_undefined (get current part)) eqn:Hu;
        [|by apply IH].
      apply is_undefined_true in Hu.
      by rewrite Hu, getNestedValue_undefined in Ho.
Qed.

(** The edit of an add, replace or set whose parent container is
    there. *)
Lemma applyFix_assigns D f :
  is_json D = true →
  sg_operation (fix_suggestion f) ≠ OpRemove →
  let parts := pathParts (sg_path (fix_suggestion f)) in
  let v := sg_value (fix_suggestion f) in
  parts ≠ [] →
  settable (getNestedValue D (removelast parts)) (lastPart parts) →
  ∃ r, applyFix D f = Ok r
       ∧ getNestedValue r (removelast parts)
         = assigned (getNestedValue D (removelast parts)) (lastPart parts) v
       ∧ getNestedValue r parts = v.
Proof.
  intros HD Hop parts v Hne Hset.
  rewrite applyFix_set by done. fold parts v.
  pose proof (settable_object _ _ Hset) as Hobj.
  destruct (getNestedObject_loop_resolves (removelast parts) D [] D true Hobj)
    as [l Hl].
  destruct (setProperty_reads D _ (lastPart parts) v _ _ _ Hl Hset)
    as (r & Hr & H1 & H2).
  rewrite <-parts_snoc in Hr, H2 by done. eauto.
Qed.

(** X5: an add, replace or set at a path whose parent container is in
    the document, a map, or a sequence with the final segment an index
    up to its length or a name other than [length], and whose final
    segment is not [__proto__], never throws, and the value of the fix
    is what [getNestedValue] then reads at the path; the parent
    container has become what the assignment makes of it, and under the
    other keys of a parent map [getNestedValue] reads what it read
    before. *)
Theorem applyFix_then_read D f :
  is_json D = true →
  sg_operation (fix_suggestion f) ≠ OpRemove →
  let parts := pathParts (sg_path (fix_suggestion f)) in
  let v := sg_value (fix_suggestion f) in
  parts ≠ [] →
  lastPart parts ≠ "__proto__" →
  settable (getNestedValue D (removelast parts)) (lastPart parts) →
  ∃ r, applyFix D f = Ok r
       ∧ getNestedValue r (removelast parts)
         = assigned (getNestedValue D (removelast parts)) (lastPart parts) v
       ∧ getNestedValue r parts = v
       ∧ ∀ fs k,
           getNestedValue D (removelast parts) = VObj fs →
           k ≠ lastPart parts →
           getNestedValue r (removelast parts ++ [k])
           = getNestedValue D (removelast parts ++ [k]).
Proof.
  intros HD Hop parts v Hne _ Hset.
  destruct (applyFix_assigns D f HD Hop Hne Hset) as (r & Hr & Hparent & Hread).
  exists r. split_and!; [done | done | done |].
  intros fs k Hfs Hk. fold parts v in Hparent.
  rewrite !getNestedValue_app, Hparent, Hfs.
  rewrite !getNestedValue_last by done. simpl.
  unfold field. by rewrite assoc_set_field_ne.
Qed.

Lemma applyFix_then_read_witness :
  ∃ r, applyFix doc_ab (suggest OpReplace "/a/b" (VStr "one") VUndef) = Ok r
       ∧ getNestedValue r ["a"] = VObj [("b", VStr "one"); ("c", num 2)]
       ∧ getNestedValue r ["a"; "b"] = VStr "one"
       ∧ ∀ fs k,
           getNestedValue doc_ab ["a"] = VObj fs →
           k ≠ "b" →
           getNestedValue r (["a"] ++ [k]) = getNestedValue doc_ab (["a"] ++ [k]).
Proof.
  apply (applyFix_then_read doc_ab
           (suggest OpReplace "/a/b" (VStr "one") VUndef)).
  - reflexivity.
  - discriminate.
  - discriminate.
  - discriminate.
  - exact I.
Defined.

(** ** Missing branches *)

(** Past a prefix that leads to something, the loop goes on from
    there.  (Where the prefix ends in something missing it does
    not: what is put in there depends on the segment that follows.) *)
Lemma getNestedObject_loop_through p1 : ∀ root here current p2 create,
  is_undefined (getNestedValue current p1) = false →
  ∃ l1,
    getNestedObject_loop root here current p1 create
    = Ok (root, Some (l1, getNestedValue current p1))
    ∧ getNestedObject_loop root here current (p1 ++ p2) create
      = getNestedObject_loop root l1 (getNestedValue current p1) p2 create.
Proof.
  induction p1 as [|part rest IH]; intros root here current p2 create; simpl.
  - by eexists.
  - destruct (is_object current) eqn:Hc; [|done].
    destruct (indexed current part) as [xs|] eqn:Hi.
    + intros Ho. destruct (parseInt part <? length xs) eqn:Hlt; [by apply IH|].
      apply Nat.ltb_ge in Hlt.
      by rewrite elem_beyond, getNestedValue_undefined in Ho.
    + intros Ho. destruct (is_undefined (get current part)) eqn:Hu;
        [|by apply IH].
      apply is_undefined_true in Hu.
      by rewrite Hu, getNestedValue_undefined in Ho.
Qed.

Lemma fresh_container_map rest :
  Forall (λ p, test_digits p = false) rest → fresh_container rest = VObj [].
Proof. destruct rest as [|p rest]; [done|]. simpl. by intros [-> _]%Forall_cons. Qed.

(** Through a map that has just been put in, segments that are no
    numeric literals make a chain of maps. *)
Lemma getNestedObject_loop_chain mid : ∀ root here done,
  Forall (λ p, test_digits p = false) mid →
  marks root done here → read root here = VObj [] →
  ∃ root' l,
    getNestedObject_loop root here (VObj []) mid true
    = Ok (root', Some (l, VObj [])).
Proof.
  induction mid as [|k rest IH]; intros root here done Hmid Hm Hr; simpl.
  - by eexists _, _.
  - apply Forall_cons in Hmid as [Hk Hrest].
    rewrite (fresh_container_map rest) by done.
    destruct (modify_marks done here root (λ c, set c k (VObj []))
                (VObj [(k, VObj [])]) Hm) as (root1 & -> & Hr1 & Hm1).
    { rewrite Hr. simpl. unfold set_field. simpl.
      by destruct (array_index k). }
    simpl. apply (IH root1 (here ++ [SKey k]) (done ++ [k])); [done| |].
    + apply marks_app; [done|]. rewrite Hr1. simpl.
      rewrite String.eqb_refl. eauto.
    + rewrite read_app, Hr1. simpl. unfold field. simpl.
      by rewrite String.eqb_refl.
Qed.

Lemma assoc_None_field k fs : assoc k fs = None → field k fs = VUndef.
Proof. unfold field. by intros ->. Qed.

(** X6: an add, replace or set below a key [k] that a map of the
    document lacks creates the branch: when no segment of the path
    names an inherited property and the segments between [k] and the
    final one are no numeric literals, the edit never throws, every one
    of these segments becomes a map, the innermost of them holds the
    final segment alone, and the value of the fix is what
    [getNestedValue] then reads at the path. *)
Theorem applyFix_creates_branch D f pre k mid part fs :
  is_json D = true →
  sg_operation (fix_suggestion f) ≠ OpRemove →
  pathParts (sg_path (fix_suggestion f)) = pre ++ k :: mid ++ [part] →
  plain_path (pre ++ k :: mid ++ [part]) = true →
  getNestedValue D pre = VObj fs →
  assoc k fs = None →
  Forall (λ p, test_digits p = false) mid →
  ∃ r, applyFix D f = Ok r
       ∧ getNestedValue r (pre ++ k :: mid)
         = VObj [(part, sg_value (fix_suggestion f))]
       ∧ getNestedValue r (pre ++ k :: mid ++ [part])
         = sg_value (fix_suggestion f).
Proof.
  intros HD Hop Hparts _ Hpre Hk Hmid.
  rewrite applyFix_set, Hparts by done.
  assert (is_object (getNestedValue D pre) = true) as Hobj by by rewrite Hpre.
  destruct (getNestedObject_loop_through pre D [] D (k :: mid) true)
    as (l0 & Hl0 & Hthrough); [by rewrite Hpre|].
  destruct (getNestedObject_marks _ _ _ _ _ _ Hl0 Hobj) as [Hm0 Hr0].
  rewrite Hpre in Hthrough, Hr0.
  destruct (modify_marks pre l0 D (λ c, set c k (VObj []))
              (VObj (set_field k (VObj []) fs)) Hm0)
    as (root1 & Hmod & Hr1 & Hm1); [by rewrite Hr0|].
  destruct (getNestedObject_loop_chain mid root1 (l0 ++ [SKey k])
              (pre ++ [k]) Hmid) as (root' & l & Hchain).
  { apply marks_app; [done|]. rewrite Hr1. simpl.
    unfold field. rewrite assoc_set_field. eauto. }
  { rewrite read_app, Hr1. simpl. unfold field. by rewrite assoc_set_field. }
  assert (getNestedObject D (pre ++ k :: mid) true
          = Ok (root', Some (l, VObj []))) as Hfound.
  { unfold getNestedObject. rewrite Hthrough. simpl.
    rewrite (assoc_None_field _ _ Hk). simpl.
    rewrite (fresh_container_map mid), Hmod by done. simpl. done. }
  destruct (setProperty_reads D (pre ++ k :: mid) part
              (sg_value (fix_suggestion f)) _ _ _ Hfound I)
    as (r & Hr & H1 & H2).
  exists r. rewrite <-app_assoc in Hr, H2. simpl in Hr, H2.
  split_and!; [done | | done].
  rewrite H1. simpl. unfold set_field. simpl. by destruct (array_index part).
Qed.

Lemma applyFix_creates_branch_witness :
  ∃ r, applyFix doc_xs (suggest OpAdd "/a/b/c" (num 1) VUndef) = Ok r
       ∧ getNestedValue r ["a"; "b"] = VObj [("c", num 1)]
       ∧ getNestedValue r ["a"; "b"; "c"] = num 1.
Proof.
  apply (applyFix_creates_branch doc_xs
           (suggest OpAdd "/a/b/c" (num 1) VUndef) [] "a" ["b"] "c"
           [("xs", arr [num 1; num 2])]).
  - reflexivity.
  - discriminate.
  - reflexivity.
  - reflexivity.
  - reflexivity.
  - reflexivity.
  - repeat constructor.
Defined.

(** ** Removing *)

Lemma applyFix_remove D f :
  is_json D = true →
  sg_operation (fix_suggestion f) = OpRemove →
  applyFix D f = removeProperty D (pathParts (sg_path (fix_suggestion f))).
Proof.
  intros HD Hop. unfold applyFix. rewrite json_roundtrip_document by done.
  simpl. by rewrite Hop.
Qed.

Lemma assoc_delete_field {A} k (fs : list (string * A)) :
  NoDup fs.*1 → assoc k (delete_field k fs) = None.
Proof.
  induction fs as [|[k' x] fs IH]; simpl; [done|].
  rewrite NoDup_cons. intros [Hk Hn].
  destruct (String.eqb k k') eqn:E; simpl.
  - apply String.eqb_eq in E as ->.
    destruct (assoc k' fs) as [y|] eqn:Ey; [|done].
    exfalso. apply Hk. clear -Ey.
    induction fs as [|[k0 x0] fs IH]; simpl in *; [done|].
    destruct (String.eqb k' k0) eqn:E0.
    + apply String.eqb_eq in E0 as ->. by left.
    + right. auto.
  - rewrite E. auto.
Qed.

Lemma assoc_delete_field_ne {A} k k' (fs : list (string * A)) :
  k' ≠ k → assoc k' (delete_field k fs) = assoc k' fs.
Proof.
  intros Hne. induction fs as [|[k0 x] fs IH]; simpl; [done|].
  destruct (String.eqb k k0) eqn:E; simpl.
  - apply String.eqb_eq in E as <-.
    by rewrite (proj2 (String.eqb_neq _ _) Hne).
  - by rewrite IH.
Qed.

Lemma delete_field_absent {A} k (fs : list (string * A)) :
  assoc k fs = None → delete_field k fs = fs.
Proof.
  induction fs as [|[k' x] fs IH]; simpl; [done|].
  destruct (String.eqb k k'); [done|]. intros H. by rewrite IH.
Qed.

(** After [splice(i, 1)] the elements behind [i] have moved down. *)
Lemma elem_splice1 xs i j :
  elem (splice1 xs i) j = if j <? i then elem xs j else elem xs (S j).
Proof.
  unfold elem, splice1. destruct (j <? i) eqn:Hlt.
  - apply Nat.ltb_lt in Hlt. destruct (decide (j < length xs)).
    + by rewrite lookup_app_l, lookup_take_lt
        by (rewrite ?length_take; lia).
    + rewrite take_ge, drop_ge, app_nil_r by lia. done.
  - apply Nat.ltb_ge in Hlt. destruct (decide (i < length xs)).
    + rewrite lookup_app_r by (rewrite length_take; lia).
      rewrite length_take, lookup_drop. f_equal. f_equal. lia.
    + rewrite take_ge, drop_ge, app_nil_r by lia.
      by rewrite !lookup_ge_None_2 by lia.
Qed.

(** The edit of [removeProperty], once the parent is found. *)
Lemma removeProperty_reads D pp part parent :
  getNestedValue D pp = parent → is_object parent = true →
  ∀ y,
    match parent with
    | VArr xs ps =>
        if test_digits part then
          y = VArr (splice1 xs (parseInt part)) ps
        else delete parent part = Ok y
    | _ => delete parent part = Ok y
    end →
    ∃ r, removeProperty D (pp ++ [part]) = Ok r ∧ getNestedValue r pp = y.
Proof.
  intros Hp Hobj y Hy. rewrite <-Hp in Hobj.
  destruct (getNestedObject_loop_resolves pp D [] D false Hobj) as [l Hl].
  destruct (getNestedObject_marks _ _ _ _ _ _ Hl Hobj) as [Hm Hr].
  rewrite Hp in Hl, Hr, Hobj.
  rewrite removeProperty_snoc. unfold getNestedObject. rewrite Hl. simpl.
  rewrite Hobj.
  assert (∀ g, g (read D l) = Ok y →
            ∃ r, modify D l g = Ok r ∧ getNestedValue r pp = y) as Hgo.
  { intros g Hg.
    destruct (modify_marks pp l D g _ Hm Hg) as (r & Hmod & Hr' & Hm').
    exists r. split; [done|]. by rewrite (marks_reads _ _ _ Hm'). }
  destruct (is_object_container _ Hobj) as [(xs & ps & ->)|(fs & ->)].
  - destruct (test_digits part); apply Hgo; [by rewrite Hy | by rewrite Hr].
  - apply Hgo. by rewrite Hr.
Qed.

(** The edit of a remove whose parent container is a map. *)
Lemma applyFix_deletes D f fs :
  is_json D = true →
  sg_operation (fix_suggestion f) = OpRemove →
  let parts := pathParts (sg_path (fix_suggestion f)) in
  parts ≠ [] →
  getNestedValue D (removelast parts) = VObj fs →
  ∃ r, applyFix D f = Ok r
       ∧ getNestedValue r (removelast parts)
         = VObj (delete_field (lastPart parts) fs).
Proof.
  intros HD Hop parts Hne Hparent.
  rewrite applyFix_remove by done. fold parts.
  destruct (removeProperty_reads D (removelast parts) (lastPart parts)
              (VObj fs) Hparent eq_refl (VObj (delete_field (lastPart parts) fs))
              eq_refl) as (r & Hr & Hread).
  rewrite <-parts_snoc in Hr by done. eauto.
Qed.

(** X7: a remove whose parent container is a map of the document and
    whose final segment names no inherited property never throws and
    takes the key out of that map: [getNestedValue] then reads nothing
    at the path, and what it reads under the other keys of the map is
    as before.  (The keys of a map are distinct.) *)
Theorem applyFix_removes_key D f fs :
  is_json D = true →
  sg_operation (fix_suggestion f) = OpRemove →
  let parts := pathParts (sg_path (fix_suggestion f)) in
  parts ≠ [] →
  inherits (lastPart parts) = false →
  getNestedValue D (removelast parts) = VObj fs →
  NoDup fs.*1 →
  ∃ r, applyFix D f = Ok r
       ∧ getNestedValue r (removelast parts)
         = VObj (delete_field (lastPart parts) fs)
       ∧ getNestedValue r parts = VUndef
       ∧ ∀ k, k ≠ lastPart parts →
           getNestedValue r (removelast parts ++ [k])
           = getNestedValue D (removelast parts ++ [k]).
Proof.
  intros HD Hop parts Hne _ Hparent Hnd.
  destruct (applyFix_deletes D f fs HD Hop Hne Hparent) as (r & Hr & Hread).
  fold parts in Hread.
  exists r. split_and!; [done | done | |].
  - rewrite (parts_snoc parts Hne), getNestedValue_app, Hread.
    rewrite getNestedValue_last by done. simpl.
    unfold field. by rewrite assoc_delete_field.
  - intros k Hk. rewrite !getNestedValue_app, Hread, Hparent.
    rewrite !getNestedValue_last by done. simpl.
    unfold field. by rewrite assoc_delete_field_ne.
Qed.

Lemma applyFix_removes_key_witness :
  ∃ r, applyFix doc_ab (suggest OpRemove "/a/b" VUndef (num 1)) = Ok r
       ∧ getNestedValue r ["a"] = VObj [("c", num 2)]
       ∧ getNestedValue r ["a"; "b"] = VUndef
       ∧ ∀ k, k ≠ "b" →
           getNestedValue r (["a"] ++ [k]) = getNestedValue doc_ab (["a"] ++ [k]).
Proof.
  apply (applyFix_removes_key doc_ab (suggest OpRemove "/a/b" VUndef (num 1))
           [("b", num 1); ("c", num 2)]).
  - reflexivity.
  - reflexivity.
  - discriminate.
  - reflexivity.
  - reflexivity.
  - repeat constructor; set_solver.
Defined.

(** X8: a remove whose parent container is a sequence of the
    document, with a numeric literal [i] as the final segment, never
    throws and splices the element at [i] out: the elements before [i]
    stay, those behind it move down by one, so that [getNestedValue]
    then reads at the path what was the next element. *)
Theorem applyFix_removes_element D f xs ps :
  is_json D = true →
  sg_operation (fix_suggestion f) = OpRemove →
  let parts := pathParts (sg_path (fix_suggestion f)) in
  let i := parseInt (lastPart parts) in
  parts ≠ [] →
  getNestedValue D (removelast parts) = VArr xs ps →
  test_digits (lastPart parts) = true →
  ∃ r ys, applyFix D f = Ok r
       ∧ getNestedValue r (removelast parts) = VArr ys ps
       ∧ (∀ j, elem ys j = if j <? i then elem xs j else elem xs (S j))
       ∧ length ys = (if i <? length xs then length xs - 1 else length xs)
       ∧ getNestedValue r parts = elem xs (S i).
Proof.
  intros HD Hop parts i Hne Hparent Hd.
  rewrite applyFix_remove by done. fold parts.
  destruct (removeProperty_reads D (removelast parts) (lastPart parts)
              (VArr xs ps) Hparent eq_refl (VArr (splice1 xs i) ps))
    as (r & Hr & Hread); [by rewrite Hd|].
  rewrite <-parts_snoc in Hr by done.
  exists r, (splice1 xs i). split_and!; [done | done | | |].
  - intros j. apply elem_splice1.
  - unfold splice1. rewrite length_app, length_take, length_drop.
    destruct (i <? length xs) eqn:Hlt;
      [apply Nat.ltb_lt in Hlt | apply Nat.ltb_ge in Hlt]; lia.
  - rewrite (parts_snoc parts Hne), getNestedValue_app, Hread.
    rewrite getNestedValue_last by done. unfold indexed. rewrite Hd.
    fold i. by rewrite elem_splice1, Nat.ltb_irrefl.
Qed.

Lemma applyFix_removes_element_witness :
  ∃ r ys, applyFix doc_xs (suggest OpRemove "/xs/0" VUndef (num 1)) = Ok r
       ∧ getNestedValue r ["xs"] = VArr ys []
       ∧ (∀ j, elem ys j = if j <? 0 then elem [num 1; num 2] j
                           else elem [num 1; num 2] (S j))
       ∧ length ys = 1
       ∧ getNestedValue r ["xs"; "0"] = num 2.
Proof.
  apply (applyFix_removes_element doc_xs
           (suggest OpRemove "/xs/0" VUndef (num 1)) [num 1; num 2] []).
  - reflexivity.
  - reflexivity.
  - discriminate.
  - reflexivity.
  - reflexivity.
Defined.

(** ** Edits that change nothing *)

Lemma replace_field_same {A} k (fs : list (string * A)) x :
  assoc k fs = Some x → replace_field k x fs = fs.
Proof.
  induction fs as [|[k' y] fs IH]; simpl; [done|].
  destruct (String.eqb k k') eqn:E.
  - apply String.eqb_eq in E as ->. by intros [= ->].
  - intros H. by rewrite IH.
Qed.

Lemma field_Some k fs : is_Some (assoc k fs) → assoc k fs = Some (field k fs).
Proof. unfold field. by intros [x ->]. Qed.

(** Putting back what is there leaves the document as it is. *)
Lemma modify_same l : ∀ root f,
  valid root l → f (read root l) = Ok (read root l) → modify root l f = Ok root.
Proof.
  induction l as [|[i|k] l IH]; intros root f Hv Hf; simpl in *; [done| |].
  - destruct root as [| | | | |xs ps|]; try done. destruct Hv as [Hi Hv].
    rewrite (IH _ _ Hv Hf). simpl.
    rewrite list_insert_id; [done|].
    unfold elem. by destruct (lookup_lt_is_Some_2 xs i Hi) as [x ->].
  - destruct root as [| | | | |xs ps|fs]; try done.
    + destruct Hv as (Hl & Hx & Hs & Hv).
      rewrite get_named in Hf by done.
      rewrite (IH _ _ Hv Hf). simpl.
      by rewrite replace_field_same by by apply field_Some.
    + destruct Hv as (Hs & Hv).
      rewrite (IH _ _ Hv Hf). simpl.
      by rewrite replace_field_same by by apply field_Some.
Qed.

Lemma is_json_elem xs ps i :
  is_json (VArr xs ps) = true → i < length xs → is_json (elem xs i) = true.
Proof.
  simpl. rewrite andb_true_iff, forallb_forall. intros [H _] Hi.
  unfold elem. destruct (lookup_lt_is_Some_2 xs i Hi) as [x Hx]. rewrite Hx.
  simpl. apply H. apply list_elem_of_In. by eapply list_elem_of_lookup_2.
Qed.

Lemma is_json_assoc fs k x :
  is_json (VObj fs) = true → assoc k fs = Some x → is_json x = true.
Proof.
  simpl. induction fs as [|[k' y] fs IH]; simpl; [done|].
  rewrite andb_true_iff. intros [Hy Hfs].
  destruct (String.eqb k k'); [by intros [= <-] | auto].
Qed.

Lemma is_json_props xs ps : is_json (VArr xs ps) = true → ps = [].
Proof. simpl. rewrite andb_true_iff. intros [_ H]. by destruct ps. Qed.

(** What a document has at a path is a document. *)
Lemma is_json_getNestedValue parts : ∀ D,
  is_json D = true → is_undefined (getNestedValue D parts) = false →
  is_json (getNestedValue D parts) = true.
Proof.
  induction parts as [|part rest IH]; intros D HD; simpl; [done|].
  destruct (is_object D) eqn:Hobj; [|done].
  destruct (is_object_container _ Hobj) as [(xs & ps & ->)|(fs & ->)].
  - pose proof (is_json_props _ _ HD) as ->. simpl.
    destruct (test_digits part) eqn:Hd.
    + destruct (decide (parseInt part < length xs)) as [Hlt|Hge].
      * apply IH. by eapply is_json_elem.
      * rewrite elem_beyond by lia. by rewrite getNestedValue_undefined.
    + destruct (String.eqb part "length"); [by apply IH|].
      rewrite not_digits_index by done. simpl.
      by rewrite getNestedValue_undefined.
  - simpl. unfold field. destruct (assoc part fs) as [x|] eqn:Ex; simpl.
    + apply IH. by eapply is_json_assoc.
    + by rewrite getNestedValue_undefined.
Qed.

(** X9: a remove at a path where the document has nothing changes
    nothing: the result is the document. *)
Theorem applyFix_remove_absent D f :
  is_json D = true →
  sg_operation (fix_suggestion f) = OpRemove →
  getNestedValue D (pathParts (sg_path (fix_suggestion f))) = VUndef →
  applyFix D f = Ok D.
Proof.
  intros HD Hop Habsent. rewrite applyFix_remove by done.
  destruct (pathParts (sg_path (fix_suggestion f))) as [|p0 ps0] eqn:Ep
    using rev_ind; [done|].
  clear IHps0. rename ps0 into pp, p0 into part.
  rewrite removeProperty_snoc.
  destruct (getNestedObject_loop_reads pp D [] D) as (found & Hfound & Hval).
  fold (getNestedObject D pp false) in Hfound. rewrite Hfound. simpl.
  destruct found as [[l parent]|]; [|done]. simpl in Hval.
  destruct (is_object parent) eqn:Hobj; [|done].
  destruct (getNestedObject_marks _ _ _ _ _ _ Hfound Hobj) as [Hm Hr].
  pose proof (marks_valid _ _ _ Hm) as Hv.
  assert (is_json parent = true) as Hj.
  { clear -HD Hv Hr. subst parent. revert D HD Hv.
    induction l as [|[i|k] l IH]; intros D HD Hv; simpl in *; [done| |].
    - destruct D as [| | | | |xs ps|]; try done. destruct Hv as [Hi Hv].
      apply IH; [|done]. by eapply is_json_elem.
    - destruct D as [| | | | |xs ps|fs]; try done.
      + destruct Hv as (_ & _ & Hs & _).
        apply is_json_props in HD as ->. by destruct Hs.
      + destruct Hv as (Hs & Hv). apply IH; [|done].
        apply field_Some in Hs. by eapply is_json_assoc. }
  rewrite getNestedValue_app, Hval, getNestedValue_last in Habsent by done.
  destruct (is_object_container _ Hobj) as [(xs & ps & ->)|(fs & ->)].
  - pose proof (is_json_props _ _ Hj) as ->. simpl in Habsent.
    destruct (test_digits part) eqn:Hd.
    + apply modify_same; [done|]. rewrite Hr. do 2 f_equal.
      destruct (decide (parseInt part < length xs)) as [Hlt|Hge].
      * pose proof (is_json_elem _ _ _ Hj Hlt) as He.
        by rewrite Habsent in He.
      * unfold splice1. by rewrite take_ge, drop_ge, app_nil_r by lia.
    + apply modify_same; [done|]. rewrite Hr. simpl.
      destruct (String.eqb part "length") eqn:El.
      { apply String.eqb_eq in El as ->. done. }
      by rewrite not_digits_index.
  - simpl in Habsent. apply modify_same; [done|]. rewrite Hr. simpl.
    do 2 f_equal. apply delete_field_absent.
    destruct (assoc part fs) as [x|] eqn:Ex; [|done].
    pose proof (is_json_assoc _ _ _ Hj Ex) as Hx.
    unfold field in Habsent. rewrite Ex in Habsent. simpl in Habsent.
    by rewrite Habsent in Hx.
Qed.

Lemma applyFix_remove_absent_witness :
  applyFix doc_ab (suggest OpRemove "/a/z/b" VUndef VUndef) = Ok doc_ab.
Proof.
  apply (applyFix_remove_absent doc_ab (suggest OpRemove "/a/z/b" VUndef VUndef));
    reflexivity.
Defined.


(** ** The fixes of a run *)

Lemma run_order clk config tick errors fixes seen out :
  run clk config tick errors fixes seen out →
  ∃ new, out = fixes ++ new ∧ sublist (fix_error <$> new) errors.
Proof.
  induction 1 as [tick fixes seen
                  | tick e rest fixes seen out _ _ _ IH
                  | tick e rest fixes seen out _ _ _ IH
                  | tick e rest fixes seen out f _ Hg _ IH].
  - exists []. split; [by rewrite app_nil_r | constructor].
  - destruct IH as (new & -> & Hs). exists new. split; [done|].
    by apply sublist_cons.
  - destruct IH as (new & -> & Hs). exists new. split; [done|].
    by apply sublist_cons.
  - destruct IH as (new & -> & Hs). exists (f :: new).
    split; [by rewrite <-app_assoc|].
    apply generateFixForError_key in Hg as [_ <-]. simpl.
    by apply sublist_skip.
Qed.

(** X10: the fixes come out in the order of the errors they answer:
    the errors recorded in the fixes are a subsequence of the errors
    given, so that there are no more fixes than errors. *)
Theorem generateFixes_in_order clk errors config fixes :
  generateFixes clk errors config = Ok fixes →
  sublist (fix_error <$> fixes) errors ∧ length fixes ≤ length errors.
Proof.
  intros Hrun%generateFixes_run.
  destruct (run_order _ _ _ _ _ _ _ Hrun) as (new & -> & Hs). simpl.
  split; [done|]. apply sublist_length in Hs. by rewrite length_fmap in Hs.
Qed.

Lemma generateFixes_in_order_witness :
  ∃ fixes,
    generateFixes sample_clock
      [limit_error "minLength" "/s" 9; limit_error "maxLength" "/s" 3;
       limit_error "maxLength" "/s" 3] doc_s = Ok fixes
    ∧ sublist (fix_error <$> fixes)
        [limit_error "minLength" "/s" 9; limit_error "maxLength" "/s" 3;
         limit_error "maxLength" "/s" 3]
    ∧ length fixes ≤ 3.
Proof.
  eexists. split; [vm_compute; reflexivity|].
  apply (generateFixes_in_order sample_clock
           [limit_error "minLength" "/s" 9; limit_error "maxLength" "/s" 3;
            limit_error "maxLength" "/s" 3] doc_s).
  vm_compute. reflexivity.
Defined.

Lemma generateFixes_loop_clock clk1 clk2 config errors :
  ∀ tick1 tick2 fixes1 fixes2 seen,
    Forall2 same_fix fixes1 fixes2 →
    match generateFixes_loop clk1 tick1 config errors fixes1 seen,
          generateFixes_loop clk2 tick2 config errors fixes2 seen with
    | Ok out1, Ok out2 => Forall2 same_fix out1 out2
    | Throw a, Throw b => a = b
    | _, _ => False
    end.
Proof.
  induction errors as [|e rest IH]; intros tick1 tick2 fixes1 fixes2 seen Hf.
  - done.
  - destruct (is_nullish e) eqn:He.
    { by rewrite !generateFixes_loop_nullish by done. }
    rewrite !generateFixes_loop_cons by done.
    case_decide; [by apply IH|].
    pose proof (generateFixForError_clock (clk1 tick1) (clk2 tick2) e config
                  (path_of e)) as Hc.
    destruct (generateFixForError (clk1 tick1) e config (path_of e))
      as [[f1|]|], (generateFixForError (clk2 tick2) e config (path_of e))
      as [[f2|]|]; try done.
    + apply IH. apply Forall2_app; [done|].
      constructor; [exact Hc | constructor].
    + by apply IH.
Qed.

(** X11: the clock and the random source show in the identifiers of
    the fixes only: under two clocks [generateFixes] throws the same
    exception, or returns two lists whose fixes agree, one by one, in
    everything but the identifier. *)
Theorem generateFixes_clock clk1 clk2 errors config :
  match generateFixes clk1 errors config,
        generateFixes clk2 errors config with
  | Ok out1, Ok out2 => Forall2 same_fix out1 out2
  | Throw a, Throw b => a = b
  | _, _ => False
  end.
Proof. by apply generateFixes_loop_clock. Qed.

(** ** The shape of a fix *)

Lemma getDefaultValue_defined e name d :
  getDefaultValue e name = Ok d → is_undefined d = false.
Proof.
  unfold getDefaultValue, mbind, result_bind.
  destruct (getP e "schema") as [schema|]; [|done].
  destruct (is_undefined (getOpt schema "default")) eqn:E1; simpl.
  - destruct (getP e "parentSchema") as [parent|]; [|done].
    destruct (is_undefined (getOpt (getOpt (getOpt parent "properties")
                (ToString name)) "default")) eqn:E2; simpl.
    + destruct (getP e "params") as [params|]; [|done].
      intros [= <-]. unfold typeDefault. by repeat case_match.
    + by intros [= <-].
  - intros [= <-]. unfold getOpt in E1. by destruct (is_nullish schema).
Qed.

Lemma num_ltb_NaN_r n : num_ltb n NaN = false.
Proof. by destruct n as [|[]|]. Qed.

Lemma num_ltb_irrefl n : num_ltb n n = false.
Proof. destruct n as [|[]|m e]; simpl; try done. apply Z.ltb_irrefl. Qed.

(** What [generateFixForError] returns as a fix. *)
Lemma generateFixForError_shape stamp e config p f :
  generateFixForError stamp e config p = Ok (Some f) → shaped config f.
Proof.
  intros H. unfold generateFixForError, mkFix, param, mbind, result_bind in H.
  destruct (getP e "keyword") as [kw|] eqn:Ekw; [|done].
  apply getP_inv in Ekw as [He ->].
  destruct (splitPath p) as [parts|] eqn:Ep; [|done].
  apply splitPath_inv in Ep as (s & -> & ->).
  unfold shaped.
  repeat match type of H with
         | (if is_str ?k ?w then _ else _) = _ =>
             let E := fresh "E" in
             destruct (is_str k w) eqn:E;
             [apply is_str_true in E |]
         end;
    repeat case_match; simplify_eq/=;
    repeat match goal with
           | E : getP _ _ = Ok _ |- _ => apply getP_inv in E as [? ->]
           | E : getDefaultValue _ _ = Ok _ |- _ =>
               apply getDefaultValue_defined in E
           end;
    split_and!; try done;
    try (eexists; split; [eassumption | in_list]).
  all: try by match goal with E : navigate _ _ = _ |- _ => rewrite E end.
  - by apply negb_true_iff.
  - destruct (get (get e "params") "limit"); try done.
    match goal with E : num_ltb _ _ = true |- _ =>
      by rewrite num_ltb_NaN_r in E end.
  - by destruct (get (get e "params") "limit").
Qed.

(** X12: every fix that [generateFixes] returns is an add for
    [required] or a remove for [additionalProperties], at the path of
    its error extended by the property name, or a replace at the path of
    its error that records as old value what the document has there;
    none is a [set], and every add and replace carries a value other
    than [undefined]. *)
Theorem generateFixes_shape clk errors config fixes :
  generateFixes clk errors config = Ok fixes → Forall (shaped config) fixes.
Proof.
  intros Hrun%generateFixes_run. apply Forall_forall. intros f Hf.
  destruct (run_origin _ _ _ _ _ _ _ Hrun f Hf) as [?|(e & st & _ & Hg)];
    [set_solver|].
  by eapply generateFixForError_shape.
Qed.

Lemma generateFixes_shape_witness :
  ∃ fixes,
    generateFixes sample_clock
      [required_error "/a" "b"; additional_error "/a" "c";
       limit_error "maximum" "/a/b" 0] doc_ab = Ok fixes
    ∧ length fixes = 3 ∧ Forall (shaped doc_ab) fixes.
Proof.
  eexists. split; [vm_compute; reflexivity|]. split; [reflexivity|].
  apply (generateFixes_shape sample_clock
           [required_error "/a" "b"; additional_error "/a" "c";
            limit_error "maximum" "/a/b" 0] doc_ab).
  vm_compute. reflexivity.
Defined.

(** ** Coercion once more *)

Lemma convertType_twice v t :
  convertType (convertType v t) t = convertType v t.
Proof.
  unfold convertType.
  repeat match goal with
         | |- context [if is_str t ?w then _ else _] =>
             destruct (is_str t w)
         end; try done.
  - destruct (isNaN (ToNumber v)) eqn:E; simpl; [done|]. by rewrite E.
  - by destruct v as [| |[]| | | |].
  - destruct (isArray v) eqn:E; [by rewrite E | done].
  - by destruct v.
Qed.

(** X13: coercing a second time to the same type changes nothing;
    and the coercion has no result in two cases only: the expected type
    is [number] and the value is no number, or the expected type is
    none of the five that [convertType] knows. *)
Theorem convertType_idempotent v t :
  convertType (convertType v t) t = convertType v t
  ∧ (is_undefined (convertType v t) = true
     ↔ (is_str t "number" = true ∧ isNaN (ToNumber v) = true)
       ∨ Forall (λ w, is_str t w = false)
           ["string"; "number"; "boolean"; "array"; "object"]).
Proof.
  split; [apply convertType_twice|].
  rewrite !Forall_cons, Forall_nil. unfold convertType.
  destruct (is_str t "string") eqn:Es.
  { apply is_str_true in Es as ->. simpl. naive_solver. }
  destruct (is_str t "number") eqn:En.
  { destruct (isNaN (ToNumber v)); simpl; naive_solver. }
  destruct (is_str t "boolean") eqn:Eb.
  { destruct v; simpl; naive_solver. }
  destruct (is_str t "array") eqn:Ea.
  { destruct (isArray v) eqn:Ev; [destruct v|]; simpl; naive_solver. }
  destruct (is_str t "object") eqn:Eo.
  { destruct v; simpl; naive_solver. }
  naive_solver.
Qed.

(** ** Applying the fix of an error *)

(** What is at a path can be assigned there, unless it is the length
    of a sequence. *)
Lemma present_settable D pp part :
  is_undefined (getNestedValue D (pp ++ [part])) = false →
  (part = "length" → ∀ n, getNestedValue D (pp ++ [part]) ≠ VNum n) →
  settable (getNestedValue D pp) part.
Proof.
  rewrite getNestedValue_app. simpl. intros Hdef Hlen.
  destruct (is_object (getNestedValue D pp)) eqn:Hobj; [|done].
  destruct (is_object_container _ Hobj) as [(xs & ps & E)|(fs & E)];
    rewrite E in *; [|done].
  simpl in *. destruct (test_digits part) eqn:Hd.
  - destruct (decide (parseInt part < length xs)); [lia|].
    by rewrite elem_beyond in Hdef by lia.
  - intros El. specialize (Hlen El). rewrite El in Hlen. simpl in Hlen.
    by eapply Hlen.
Qed.

Lemma keyword_of_fix stamp e config p f k :
  generateFixForError stamp e config p = Ok (Some f) →
  get e "keyword" = VStr k →
  fix_error f = e
  ∧ (∃ s, p = VStr s ∧ fix_path f = s)
  ∧ is_nullish (get e "params") = false.
Proof.
  intros Hg Hk.
  pose proof (generateFixForError_Some _ _ _ _ _ Hg)
    as (He & Hp & Herr & k' & Hk' & Hin).
  split_and!; [done | done |].
  destruct (is_nullish (get e "params")) eqn:Hn; [|done]. exfalso.
  destruct Hp as (s & -> & _).
  unfold generateFixForError, param in Hg.
  rewrite (getP_ok e "keyword"), Hk' in Hg by done.
  rewrite !(getP_ok e "params") in Hg by done.
  apply list_elem_of_In in Hin. simpl in Hin.
  repeat destruct Hin as [<-|Hin]; simpl in Hg; try done;
    repeat (rewrite getP_nullish in Hg by done; simpl in Hg); try done;
    by destruct (navigate config (pathParts s)).
Qed.

Lemma num_ltb_nat a b : num_ltb (num_of_nat a) (num_of_nat b) = (a <? b).
Proof.
  unfold num_ltb, num_of_nat. simpl. rewrite !Z.mul_1_r.
  destruct (a <? b) eqn:E.
  - apply Nat.ltb_lt in E. apply Z.ltb_lt. lia.
  - apply Nat.ltb_ge in E. apply Z.ltb_ge. lia.
Qed.

Lemma clamp_end_nat len l relative :
  clamp_end len (VNum (num_of_nat l)) relative = l `min` len.
Proof.
  unfold clamp_end, num_of_nat. simpl. rewrite Z.mul_1_r.
  destruct (Z.of_nat l <? 0)%Z eqn:E; [apply Z.ltb_lt in E; lia|]. lia.
Qed.

Lemma length_substring n s :
  n ≤ String.length s → String.length (String.substring 0 n s) = n.
Proof.
  revert s. induction n as [|n IH]; intros [|c s]; simpl; try done; try lia.
  intros H. rewrite IH by lia. done.
Qed.

(** The fix of a [minimum] or [maximum] error. *)
Lemma bound_fix stamp e config s f k :
  get e "keyword" = VStr k → k = "minimum" ∨ k = "maximum" →
  generateFixForError stamp e config (VStr s) = Ok (Some f) →
  is_nullish e = false ∧ is_nullish (get e "params") = false
  ∧ sg_operation (fix_suggestion f) = OpReplace
  ∧ sg_path (fix_suggestion f) = s
  ∧ sg_value (fix_suggestion f) = get (get e "params") "limit"
  ∧ ∃ n, navigate config (pathParts s) = VNum n.
Proof.
  intros Hk Hor Hg.
  destruct (keyword_of_fix _ _ _ _ _ _ Hg Hk) as (_ & _ & Hp).
  pose proof (keyword_not_nullish _ _ Hk) as He.
  unfold generateFixForError in Hg. rewrite getP_ok, Hk in Hg by done.
  simpl in Hg.
  destruct Hor as [-> | ->]; simpl in Hg;
    (destruct (navigate config (pathParts s)) as [| | |n| | |]; try done);
    rewrite param_ok in Hg by done; simpl in Hg;
    (destruct (num_ltb _ _); [|done]);
    unfold mkFix in Hg; simplify_eq/=; eauto 10.
Qed.

(** Once the limit is what the document has, there is nothing to
    fix. *)
Lemma bound_settled stamp e config s k :
  get e "keyword" = VStr k → k = "minimum" ∨ k = "maximum" →
  is_nullish (get e "params") = false →
  navigate config (pathParts s) = get (get e "params") "limit" →
  generateFixForError stamp e config (VStr s) = Ok None.
Proof.
  intros Hk Hor Hp Hnav.
  pose proof (keyword_not_nullish _ _ Hk) as He.
  unfold generateFixForError. rewrite getP_ok, Hk by done. simpl.
  rewrite Hnav.
  destruct Hor as [-> | ->]; simpl;
    (destruct (get (get e "params") "limit") as [| | |n| | |] eqn:El;
       try done);
    rewrite param_ok by done; simpl; rewrite El; simpl;
    by rewrite num_ltb_irrefl.
Qed.

(** X14: applying the fix of a [minimum] or [maximum] error settles
    the error: for a path with at least one segment, the final one not
    being [length], the edit never throws, the document then has the
    limit at the path, and the same error on the edited document yields
    no fix. *)
Theorem bound_fix_settles stamp stamp' e D s f k :
  is_json D = true →
  get e "keyword" = VStr k → k = "minimum" ∨ k = "maximum" →
  generateFixForError stamp e D (VStr s) = Ok (Some f) →
  pathParts s ≠ [] →
  lastPart (pathParts s) ≠ "length" →
  ∃ r, applyFix D f = Ok r
       ∧ getNestedValue r (pathParts s) = get (get e "params") "limit"
       ∧ generateFixForError stamp' e r (VStr s) = Ok None.
Proof.
  intros HD Hk Hor Hg Hne Hlen.
  destruct (bound_fix _ _ _ _ _ _ Hk Hor Hg)
    as (He & Hp & Hop & Hpath & Hval & n & Hnav).
  rewrite navigate_getNestedValue in Hnav.
  destruct (applyFix_assigns D f HD) as (r & Hr & _ & Hread).
  { by rewrite Hop. }
  { by rewrite Hpath. }
  { rewrite Hpath. apply present_settable; rewrite <-parts_snoc by done.
    - by rewrite Hnav.
    - done. }
  rewrite Hpath, Hval in Hread.
  exists r. split_and!; [done | done |].
  eapply bound_settled; [done | done | done |].
  by rewrite navigate_getNestedValue.
Qed.

Lemma bound_fix_settles_witness :
  ∃ f,
    generateFixForError (sample_clock 0) (limit_error "maximum" "/x" 5) doc_x
      (VStr "/x") = Ok (Some f)
    ∧ ∃ r, applyFix doc_x f = Ok r
         ∧ getNestedValue r ["x"] = num 5
         ∧ generateFixForError (sample_clock 1)
             (limit_error "maximum" "/x" 5) r (VStr "/x") = Ok None.
Proof.
  eexists. split; [vm_compute; reflexivity|].
  apply (bound_fix_settles (sample_clock 0) (sample_clock 1)
           (limit_error "maximum" "/x" 5) doc_x "/x" _ "maximum").
  - reflexivity.
  - reflexivity.
  - by right.
  - vm_compute. reflexivity.
  - discriminate.
  - discriminate.
Defined.

(** The fix of a [maxLength] error whose limit is a natural number. *)
Lemma maxLength_fix stamp e config s f l :
  get e "keyword" = VStr "maxLength" →
  get (get e "params") "limit" = VNum (num_of_nat l) →
  generateFixForError stamp e config (VStr s) = Ok (Some f) →
  sg_operation (fix_suggestion f) = OpReplace
  ∧ sg_path (fix_suggestion f) = s
  ∧ ∃ str, navigate config (pathParts s) = VStr str
           ∧ l < String.length str
           ∧ sg_value (fix_suggestion f) = VStr (String.substring 0 l str).
Proof.
  intros Hk Hl Hg.
  destruct (keyword_of_fix _ _ _ _ _ _ Hg Hk) as (_ & _ & Hp).
  pose proof (keyword_not_nullish _ _ Hk) as He.
  unfold generateFixForError in Hg. rewrite getP_ok, Hk in Hg by done.
  simpl in Hg.
  destruct (navigate config (pathParts s)) as [| | | |str| |]; try done.
  rewrite param_ok in Hg by done. simpl in Hg. rewrite Hl in Hg.
  unfold substring0 in Hg. rewrite clamp_end_nat in Hg.
  change (ToNumber (VNum (num_of_nat l))) with (num_of_nat l) in Hg.
  rewrite num_ltb_nat in Hg.
  destruct (l <? String.length str) eqn:Hlt; [|done].
  apply Nat.ltb_lt in Hlt. rewrite Nat.min_l in Hg by lia.
  unfold mkFix in Hg. simplify_eq/=. eauto 10.
Qed.

Lemma maxLength_settled stamp e config s l str :
  get e "keyword" = VStr "maxLength" →
  is_nullish (get e "params") = false →
  get (get e "params") "limit" = VNum (num_of_nat l) →
  navigate config (pathParts s) = VStr str → String.length str ≤ l →
  generateFixForError stamp e config (VStr s) = Ok None.
Proof.
  intros Hk Hp Hl Hnav Hle.
  pose proof (keyword_not_nullish _ _ Hk) as He.
  unfold generateFixForError. rewrite getP_ok, Hk by done. simpl.
  rewrite Hnav, param_ok by done. simpl. rewrite Hl.
  change (ToNumber (VNum (num_of_nat l))) with (num_of_nat l).
  rewrite num_ltb_nat. by rewrite (proj2 (Nat.ltb_ge _ _)) by lia.
Qed.

(** X15: applying the fix of a [maxLength] error whose limit is a
    natural number [l] settles the error: the string at the path, which
    is longer than [l], becomes its first [l] characters, the edit never
    throws, and the same error on the edited document yields no fix. *)
Theorem maxLength_fix_settles stamp stamp' e D s f l :
  is_json D = true →
  get e "keyword" = VStr "maxLength" →
  get (get e "params") "limit" = VNum (num_of_nat l) →
  generateFixForError stamp e D (VStr s) = Ok (Some f) →
  pathParts s ≠ [] →
  ∃ r str,
    getNestedValue D (pathParts s) = VStr str ∧ l < String.length str
    ∧ applyFix D f = Ok r
    ∧ getNestedValue r (pathParts s) = VStr (String.substring 0 l str)
    ∧ String.length (String.substring 0 l str) = l
    ∧ generateFixForError stamp' e r (VStr s) = Ok None.
Proof.
  intros HD Hk Hl Hg Hne.
  destruct (keyword_of_fix _ _ _ _ _ _ Hg Hk) as (_ & _ & Hp).
  destruct (maxLength_fix _ _ _ _ _ _ Hk Hl Hg)
    as (Hop & Hpath & str & Hnav & Hlt & Hval).
  rewrite navigate_getNestedValue in Hnav.
  destruct (applyFix_assigns D f HD) as (r & Hr & _ & Hread).
  { by rewrite Hop. }
  { by rewrite Hpath. }
  { rewrite Hpath. apply present_settable; rewrite <-parts_snoc by done.
    - by rewrite Hnav.
    - intros _ n. by rewrite Hnav. }
  rewrite Hpath, Hval in Hread.
  pose proof (length_substring l str ltac:(lia)) as Hlen.
  exists r, str. split_and!; try done.
  apply (maxLength_settled stamp' e r s l (String.substring 0 l str));
    [done | done | done | by rewrite navigate_getNestedValue | lia].
Qed.

Lemma maxLength_fix_settles_witness :
  ∃ f,
    generateFixForError (sample_clock 0) (limit_error "maxLength" "/s" 3)
      doc_s (VStr "/s") = Ok (Some f)
    ∧ ∃ r str,
        getNestedValue doc_s ["s"] = VStr str ∧ 3 < String.length str
        ∧ applyFix doc_s f = Ok r
        ∧ getNestedValue r ["s"] = VStr (String.substring 0 3 str)
        ∧ String.length (String.substring 0 3 str) = 3
        ∧ generateFixForError (sample_clock 1)
            (limit_error "maxLength" "/s" 3) r (VStr "/s") = Ok None.
Proof.
  eexists. split; [vm_compute; reflexivity|].
  apply (maxLength_fix_settles (sample_clock 0) (sample_clock 1)
           (limit_error "maxLength" "/s" 3) doc_s "/s" _ 3).
  - reflexivity.
  - reflexivity.
  - reflexivity.
  - vm_compute. reflexivity.
  - discriminate.
Defined.

(** The fix of a [maxItems] error whose limit is a natural number. *)
Lemma maxItems_fix stamp e config s f l :
  get e "keyword" = VStr "maxItems" →
  get (get e "params") "limit" = VNum (num_of_nat l) →
  generateFixForError stamp e config (VStr s) = Ok (Some f) →
  sg_operation (fix_suggestion f) = OpReplace
  ∧ sg_path (fix_suggestion f) = s
  ∧ ∃ xs ps, navigate config (pathParts s) = VArr xs ps
             ∧ l < length xs
             ∧ sg_value (fix_suggestion f) = arr (take l xs).
Proof.
  intros Hk Hl Hg.
  destruct (keyword_of_fix _ _ _ _ _ _ Hg Hk) as (_ & _ & Hp).
  pose proof (keyword_not_nullish _ _ Hk) as He.
  unfold generateFixForError in Hg. rewrite getP_ok, Hk in Hg by done.
  simpl in Hg.
  destruct (navigate config (pathParts s)) as [| | | | |xs ps|]; try done.
  rewrite param_ok in Hg by done. simpl in Hg. rewrite Hl in Hg.
  unfold slice0 in Hg. rewrite clamp_end_nat in Hg.
  change (ToNumber (VNum (num_of_nat l))) with (num_of_nat l) in Hg.
  rewrite num_ltb_nat in Hg.
  destruct (l <? length xs) eqn:Hlt; [|done].
  apply Nat.ltb_lt in Hlt. rewrite Nat.min_l in Hg by lia.
  unfold mkFix in Hg. simplify_eq/=. eauto 10.
Qed.

Lemma maxItems_settled stamp e config s l xs ps :
  get e "keyword" = VStr "maxItems" →
  is_nullish (get e "params") = false →
  get (get e "params") "limit" = VNum (num_of_nat l) →
  navigate config (pathParts s) = VArr xs ps → length xs ≤ l →
  generateFixForError stamp e config (VStr s) = Ok None.
Proof.
  intros Hk Hp Hl Hnav Hle.
  pose proof (keyword_not_nullish _ _ Hk) as He.
  unfold generateFixForError. rewrite getP_ok, Hk by done. simpl.
  rewrite Hnav, param_ok by done. simpl. rewrite Hl.
  change (ToNumber (VNum (num_of_nat l))) with (num_of_nat l).
  rewrite num_ltb_nat. by rewrite (proj2 (Nat.ltb_ge _ _)) by lia.
Qed.

(** X16: applying the fix of a [maxItems] error whose limit is a
    natural number [l] settles the error: the sequence at the path,
    which has more than [l] elements, becomes its first [l] elements,
    the edit never throws, and the same error on the edited document
    yields no fix. *)
Theorem maxItems_fix_settles stamp stamp' e D s f l :
  is_json D = true →
  get e "keyword" = VStr "maxItems" →
  get (get e "params") "limit" = VNum (num_of_nat l) →
  generateFixForError stamp e D (VStr s) = Ok (Some f) →
  pathParts s ≠ [] →
  ∃ r xs,
    getNestedValue D (pathParts s) = arr xs ∧ l < length xs
    ∧ applyFix D f = Ok r
    ∧ getNestedValue r (pathParts s) = arr (take l xs)
    ∧ length (take l xs) = l
    ∧ generateFixForError stamp' e r (VStr s) = Ok None.
Proof.
  intros HD Hk Hl Hg Hne.
  destruct (keyword_of_fix _ _ _ _ _ _ Hg Hk) as (_ & _ & Hp).
  destruct (maxItems_fix _ _ _ _ _ _ Hk Hl Hg)
    as (Hop & Hpath & xs & ps & Hnav & Hlt & Hval).
  rewrite navigate_getNestedValue in Hnav.
  assert (ps = []) as ->.
  { apply (is_json_props xs). rewrite <-Hnav.
    apply is_json_getNestedValue; [done|]. by rewrite Hnav. }
  destruct (applyFix_assigns D f HD) as (r & Hr & _ & Hread).
  { by rewrite Hop. }
  { by rewrite Hpath. }
  { rewrite Hpath. apply present_settable; rewrite <-parts_snoc by done.
    - by rewrite Hnav.
    - intros _ n. by rewrite Hnav. }
  rewrite Hpath, Hval in Hread.
  exists r, xs. split_and!; try done.
  - rewrite length_take. lia.
  - apply (maxItems_settled stamp' e r s l (take l xs) []);
      [done | done | done | by rewrite navigate_getNestedValue |].
    rewrite length_take. lia.
Qed.

Lemma maxItems_fix_settles_witness :
  ∃ f,
    generateFixForError (sample_clock 0) (limit_error "maxItems" "/xs" 1)
      doc_xs (VStr "/xs") = Ok (Some f)
    ∧ ∃ r xs,
        getNestedValue doc_xs ["xs"] = arr xs ∧ 1 < length xs
        ∧ applyFix doc_xs f = Ok r
        ∧ getNestedValue r ["xs"] = arr (take 1 xs)
        ∧ length (take 1 xs) = 1
        ∧ generateFixForError (sample_clock 1)
            (limit_error "maxItems" "/xs" 1) r (VStr "/xs") = Ok None.
Proof.
  eexists. split; [vm_compute; reflexivity|].
  apply (maxItems_fix_settles (sample_clock 0) (sample_clock 1)
           (limit_error "maxItems" "/xs" 1) doc_xs "/xs" _ 1).
  - reflexivity.
  - reflexivity.
  - reflexivity.
  - vm_compute. reflexivity.
  - discriminate.
Defined.

(** The fix of a [required] error is an add, that of an
    [additionalProperties] error a remove. *)
Lemma operation_of_keyword stamp e config s f :
  generateFixForError stamp e config (VStr s) = Ok (Some f) →
  (get e "keyword" = VStr "required"
   → sg_operation (fix_suggestion f) = OpAdd
     ∧ sg_path (fix_suggestion f)
       = joinPath (VStr s) (get (get e "params") "missingProperty")
     ∧ is_undefined (sg_value (fix_suggestion f)) = false)
  ∧ (get e "keyword" = VStr "additionalProperties"
     → sg_operation (fix_suggestion f) = OpRemove
       ∧ sg_path (fix_suggestion f)
         = joinPath (VStr s) (get (get e "params") "additionalProperty")
       ∧ sg_oldValue (fix_suggestion f)
         = getOpt (navigate config (pathParts s))
             (ToString (get (get e "params") "additionalProperty"))).
Proof.
  intros Hg. pose proof (generateFixForError_shape _ _ _ _ _ Hg) as Hs.
  pose proof (generateFixForError_Some _ _ _ _ _ Hg)
    as (_ & (s' & [= <-] & Hp) & Herr & _).
  unfold shaped in Hs. rewrite Herr, Hp in Hs.
  split; intros Hk; destruct (sg_operation (fix_suggestion f));
    try done; rewrite Hk in Hs; try naive_solver;
    destruct Hs as [(k & [= <-] & Hin) _];
    apply list_elem_of_In in Hin; simpl in Hin; naive_solver.
Qed.

(** X17: applying the fix of a [required] error puts the property in:
    when the document has a map at the path of the error and the name of
    the missing property is a segment other than [__proto__], the edit
    never throws, the map has the property set to the value of the fix,
    which is not [undefined], and that value is what [getNestedValue]
    reads under the property. *)
Theorem required_fix_adds stamp e D s f m fs :
  is_json D = true →
  get e "keyword" = VStr "required" →
  get (get e "params") "missingProperty" = VStr m →
  is_segment m →
  m ≠ "__proto__" →
  getNestedValue D (pathParts s) = VObj fs →
  generateFixForError stamp e D (VStr s) = Ok (Some f) →
  let v := sg_value (fix_suggestion f) in
  ∃ r, applyFix D f = Ok r
       ∧ getNestedValue r (pathParts s) = VObj (set_field m v fs)
       ∧ getNestedValue r (pathParts s ++ [m]) = v
       ∧ is_undefined v = false.
Proof.
  intros HD Hk Hm Hseg _ Hmap Hg v.
  destruct (proj1 (operation_of_keyword _ _ _ _ _ Hg) Hk)
    as (Hop & Hpath & Hdef).
  assert (pathParts (sg_path (fix_suggestion f)) = pathParts s ++ [m]) as Hparts.
  { rewrite Hpath, Hm, pathParts_joinPath. simpl.
    by rewrite (pathParts_segment _ Hseg). }
  destruct (applyFix_assigns D f HD) as (r & Hr & Hparent & Hread).
  { by rewrite Hop. }
  { rewrite Hparts. by destruct (pathParts s). }
  { rewrite Hparts. unfold lastPart.
    by rewrite removelast_last, last_snoc, Hmap. }
  rewrite Hparts in Hparent, Hread. unfold lastPart in Hparent.
  rewrite removelast_last, last_snoc, Hmap in Hparent.
  exists r. by split_and!.
Qed.

Lemma required_fix_adds_witness :
  ∃ f,
    generateFixForError (sample_clock 0) (required_error "/a" "z") doc_ab
      (VStr "/a") = Ok (Some f)
    ∧ ∃ r, applyFix doc_ab f = Ok r
         ∧ getNestedValue r ["a"]
           = VObj [("b", num 1); ("c", num 2); ("z", VNull)]
         ∧ getNestedValue r ["a"; "z"] = VNull
         ∧ is_undefined VNull = false.
Proof.
  eexists. split; [vm_compute; reflexivity|].
  match goal with
  | |- ∃ r, applyFix _ ?f = _ ∧ _ =>
      apply (required_fix_adds (sample_clock 0) (required_error "/a" "z")
               doc_ab "/a" f "z" [("b", num 1); ("c", num 2)])
  end.
  - reflexivity.
  - reflexivity.
  - reflexivity.
  - split; [done | simpl; set_solver].
  - discriminate.
  - reflexivity.
  - vm_compute. reflexivity.
Defined.

(** X18: applying the fix of an [additionalProperties] error takes
    the property out: when the document has a map at the path of the
    error and the name of the property is a segment that names no
    inherited property, the fix records as old value what the map has
    under the property, the edit never throws, the map loses the
    property, and [getNestedValue] then reads nothing under it.  (The
    keys of a map are distinct.) *)
Theorem additionalProperties_fix_removes stamp e D s f m fs :
  is_json D = true →
  get e "keyword" = VStr "additionalProperties" →
  get (get e "params") "additionalProperty" = VStr m →
  is_segment m →
  inherits m = false →
  getNestedValue D (pathParts s) = VObj fs →
  NoDup fs.*1 →
  generateFixForError stamp e D (VStr s) = Ok (Some f) →
  ∃ r, applyFix D f = Ok r
       ∧ sg_oldValue (fix_suggestion f) = field m fs
       ∧ getNestedValue r (pathParts s) = VObj (delete_field m fs)
       ∧ getNestedValue r (pathParts s ++ [m]) = VUndef.
Proof.
  intros HD Hk Hm Hseg _ Hmap Hnd Hg.
  destruct (proj2 (operation_of_keyword _ _ _ _ _ Hg) Hk)
    as (Hop & Hpath & Hold).
  assert (pathParts (sg_path (fix_suggestion f)) = pathParts s ++ [m]) as Hparts.
  { rewrite Hpath, Hm, pathParts_joinPath. simpl.
    by rewrite (pathParts_segment _ Hseg). }
  destruct (applyFix_deletes D f fs HD Hop) as (r & Hr & Hparent).
  { rewrite Hparts. by destruct (pathParts s). }
  { by rewrite Hparts, removelast_last. }
  rewrite Hparts in Hparent. unfold lastPart in Hparent.
  rewrite removelast_last, last_snoc in Hparent.
  exists r. split_and!; [done | | done |].
  - by rewrite Hold, Hm, navigate_getNestedValue, Hmap.
  - rewrite getNestedValue_app, Hparent, getNestedValue_last by done.
    simpl. unfold field. by rewrite assoc_delete_field.
Qed.

Lemma additionalProperties_fix_removes_witness :
  ∃ f,
    generateFixForError (sample_clock 0) (additional_error "/a" "c") doc_ab
      (VStr "/a") = Ok (Some f)
    ∧ ∃ r, applyFix doc_ab f = Ok r
         ∧ sg_oldValue (fix_suggestion f) = num 2
         ∧ getNestedValue r ["a"] = VObj [("b", num 1)]
         ∧ getNestedValue r ["a"; "c"] = VUndef.
Proof.
  eexists. split; [vm_compute; reflexivity|].
  match goal with
  | |- ∃ r, applyFix _ ?f = _ ∧ _ =>
      apply (additionalProperties_fix_removes (sample_clock 0)
               (additional_error "/a" "c") doc_ab "/a" f "c"
               [("b", num 1); ("c", num 2)])
  end.
  - reflexivity.
  - reflexivity.
  - reflexivity.
  - split; [done | simpl; set_solver].
  - reflexivity.
  - reflexivity.
  - repeat constructor; set_solver.
  - vm_compute. reflexivity.
Defined.

(** X19: an edit whose path has no segment changes nothing,
    whatever its operation and value are; so the replace that
    [generateFixForError] makes for an error at the root of the
    document, whose path is empty or a slash, has no effect when it is
    applied. *)
Theorem applyFix_root D f :
  is_json D = true →
  (pathParts (sg_path (fix_suggestion f)) = [] → applyFix D f = Ok D)
  ∧ (∀ stamp e s,
       pathParts s = [] →
       generateFixForError stamp e D (VStr s) = Ok (Some f) →
       sg_operation (fix_suggestion f) = OpReplace →
       applyFix D f = Ok D).
Proof.
  intros HD.
  assert (pathParts (sg_path (fix_suggestion f)) = [] → applyFix D f = Ok D)
    as Hroot.
  { intros Hp. unfold applyFix. rewrite Hp, json_roundtrip_document by done.
    simpl. by destruct (sg_operation _). }
  split; [done|]. intros stamp e s Hs Hg Hop. apply Hroot.
  pose proof (generateFixForError_shape _ _ _ _ _ Hg) as Hsh.
  pose proof (generateFixForError_Some _ _ _ _ _ Hg)
    as (_ & (s' & [= <-] & Hp) & _).
  unfold shaped in Hsh. rewrite Hop in Hsh.
  destruct Hsh as (_ & -> & _). by rewrite Hp.
Qed.

Lemma applyFix_root_witness :
  ∃ f,
    generateFixForError (sample_clock 0) (type_error "/" "string") doc_x
      (VStr "/") = Ok (Some f)
    ∧ sg_value (fix_suggestion f) = VStr "[object Object]"
    ∧ applyFix doc_x f = Ok doc_x.
Proof.
  eexists. split; [vm_compute; reflexivity|]. split; [reflexivity|].
  match goal with
  | |- applyFix _ ?f = _ =>
      apply (proj2 (applyFix_root doc_x f eq_refl) (sample_clock 0)
               (type_error "/" "string") "/")
  end.
  - reflexivity.
  - vm_compute. reflexivity.
  - reflexivity.
Defined.

(** ** The diff of a fix *)

(** X20: for a replace that [generateFixForError] makes for a
    document, the diff on that document shows as [before] the old value
    that the fix records, and as [path] the path of the error. *)
Theorem generateDiff_shows_oldValue stamp e D p f d :
  is_json D = true →
  generateFixForError stamp e D p = Ok (Some f) →
  sg_operation (fix_suggestion f) = OpReplace →
  generateDiff f D = Ok d →
  before d = render (sg_oldValue (fix_suggestion f))
  ∧ diff_path d = fix_path f.
Proof.
  intros HD Hg Hop Hd.
  pose proof (generateFixForError_shape _ _ _ _ _ Hg) as Hs.
  unfold shaped in Hs. rewrite Hop in Hs.
  destruct Hs as (_ & Hpath & _ & Hold).
  unfold generateDiff in Hd. rewrite json_roundtrip_document in Hd by done.
  simpl in Hd. destruct (applyFix D f) as [edited|]; [|done]. simpl in Hd.
  rewrite Hop, Hpath, <-navigate_getNestedValue, <-Hold in Hd.
  injection Hd as <-. simpl. split; [|done].
  by destruct (is_undefined (sg_oldValue (fix_suggestion f))).
Qed.

Lemma generateDiff_shows_oldValue_witness :
  ∃ f d,
    generateFixForError (sample_clock 0) (limit_error "maxLength" "/s" 3)
      doc_s (VStr "/s") = Ok (Some f)
    ∧ generateDiff f doc_s = Ok d
    ∧ before d = render (sg_oldValue (fix_suggestion f))
    ∧ diff_path d = fix_path f.
Proof.
  eexists _, _. split; [vm_compute; reflexivity|].
  split; [vm_compute; reflexivity|].
  match goal with
  | |- before ?d = render (sg_oldValue (fix_suggestion ?f)) ∧ _ =>
      apply (generateDiff_shows_oldValue (sample_clock 0)
               (limit_error "maxLength" "/s" 3) doc_s (VStr "/s") f d)
  end.
  - reflexivity.
  - vm_compute. reflexivity.
  - reflexivity.
  - vm_compute. reflexivity.
Defined.

(** ** The store: what an edit touches *)

Lemma store_getNestedObject_reads parts :
  ∀ h current, ∃ r, Store.getNestedObject h current parts false = (h, Ok r).
Proof.
  induction parts as [|part rest IH]; intros h current; simpl; [by eexists|].
  destruct current as [| | | | |a]; try by eexists.
  destruct (h !! a) as [o|]; [|by eexists].
  destruct (Store.indexed o part) as [xs|].
  - destruct (_ <? _); [apply IH | by eexists].
  - destruct (Store.is_undef (Store.get o part)); [by eexists | apply IH].
Qed.

Lemma store_getNestedObject_allocates parts :
  ∀ h current create h' r,
    Store.getNestedObject h current parts create = (h', r) →
    length h ≤ length h' ≤ length h + length parts.
Proof.
  induction parts as [|part rest IH]; intros h current create h' r; simpl.
  - intros [= <- <-]. lia.
  - destruct current as [| | | | |a]; try (intros [= <- <-]; lia).
    destruct (h !! a) as [o|]; [|intros [= <- <-]; lia].
    destruct (Store.indexed o part) as [xs|].
    + destruct (_ <? _); [|intros [= <- <-]; lia].
      intros H%IH. lia.
    + destruct (Store.is_undef (Store.get o part)).
      * destruct create; [|intros [= <- <-]; lia].
        destruct (Store.set _ o part _) as [o'|e].
        -- intros H%IH. rewrite length_insert, length_app in H. simpl in H.
           lia.
        -- intros [= <- <-]. rewrite length_app. simpl. lia.
      * intros H%IH. lia.
Qed.

(** X21: in the store, [getNestedObject] without [createMissing]
    never throws and leaves every object as it is; with it, it makes at
    most one new object for each segment of the path. *)
Theorem store_getNestedObject_footprint h current parts :
  (∃ r, Store.getNestedObject h current parts false = (h, Ok r))
  ∧ ∀ create h' r,
      Store.getNestedObject h current parts create = (h', r) →
      length h ≤ length h' ≤ length h + length parts.
Proof.
  split; [apply store_getNestedObject_reads|].
  intros create h' r. apply store_getNestedObject_allocates.
Qed.

Lemma store_getNestedObject_footprint_witness :
  length Store.sample_store
  ≤ length (Store.getNestedObject Store.sample_store Store.sample_root
              ["a"; "b"] true).1
  ≤ length Store.sample_store + length ["a"; "b"].
Proof.
  destruct (Store.getNestedObject Store.sample_store Store.sample_root
              ["a"; "b"] true) as [h' r] eqn:E.
  exact (proj2 (store_getNestedObject_footprint _ _ _) _ _ _ E).
Defined.

(** X22: in the store, [removeProperty] makes no new object and
    changes one object at most, the parent container; [setProperty]
    makes at most one new object for each segment of the parent path. *)
Theorem store_edit_footprint h obj parts :
  (∀ h' r, Store.removeProperty h obj parts = (h', r) →
     length h' = length h ∧ ∃ a, ∀ b, b ≠ a → h' !! b = h !! b)
  ∧ (∀ v h' r, Store.setProperty h obj parts v = (h', r) →
       length h ≤ length h' ≤ length h + length (removelast parts)).
Proof.
  split.
  - intros h' r. unfold Store.removeProperty.
    assert (length h = length h ∧ ∃ a : nat, ∀ b, b ≠ a → h !! b = h !! b)
      as Hsame by (split; [done | by exists 0]).
    destruct parts as [|p ps] eqn:Ep; [by intros [= <- <-]|].
    rewrite <-Ep. clear Ep.
    destruct (store_getNestedObject_reads (removelast parts) h obj)
      as [parent ->].
    destruct (Store.held h parent) as [[a o]|];
      [|by intros [= <- <-]].
    assert (∀ o', length (<[a:=o']> h) = length h
                  ∧ ∃ a0, ∀ b, b ≠ a0 → <[a:=o']> h !! b = h !! b) as Hw.
    { intros o'. rewrite length_insert. split; [done|].
      exists a. intros b Hb. by rewrite list_lookup_insert_ne. }
    destruct o as [xs ps'|fs].
    + destruct (test_digits (lastPart parts)); [intros [= <- <-]; apply Hw|].
      destruct (Store.delete _ _) as [o'|e]; intros [= <- <-];
        [apply Hw | done].
    + destruct (Store.delete _ _) as [o'|e]; intros [= <- <-];
        [apply Hw | done].
  - intros v h' r. unfold Store.setProperty.
    destruct parts as [|p ps] eqn:Ep; [intros [= <- <-]; simpl; lia|].
    rewrite <-Ep. clear Ep.
    destruct (Store.getNestedObject h obj (removelast parts) true)
      as [h1 [parent|e]] eqn:Eg;
      apply store_getNestedObject_allocates in Eg;
      [|by intros [= <- <-]].
    destruct (Store.held h1 parent) as [[a o]|]; [|by intros [= <- <-]].
    destruct o as [xs ps'|fs].
    + destruct (test_digits (lastPart parts)).
      * destruct (_ <? _); [|destruct (_ =? _)]; intros [= <- <-];
          by rewrite ?length_insert.
      * destruct (Store.set _ _ _ _) as [o'|e]; intros [= <- <-];
          by rewrite ?length_insert.
    + destruct (Store.set _ _ _ _) as [o'|e]; intros [= <- <-];
        by rewrite ?length_insert.
Qed.

Lemma store_edit_footprint_witness :
  length (Store.removeProperty Store.sample_store Store.sample_root
            ["xs"; "0"]).1 = length Store.sample_store
  ∧ length (Store.setProperty Store.sample_store Store.sample_root
              ["a"; "b"; "c"] (Store.HNum (Fin 1 0))).1
    ≤ length Store.sample_store + 2.
Proof.
  split.
  - destruct (Store.removeProperty Store.sample_store Store.sample_root
                ["xs"; "0"]) as [h' r] eqn:E.
    exact (proj1 (proj1 (store_edit_footprint _ _ _) _ _ E)).
  - destruct (Store.setProperty Store.sample_store Store.sample_root
                ["a"; "b"; "c"] (Store.HNum (Fin 1 0))) as [h' r] eqn:E.
    exact (proj2 (proj2 (store_edit_footprint _ _ _) _ _ _ E)).
Defined.

(** ** Edits that are ignored, and edits that throw *)

(** X23: an edit whose path runs into something that is no
    container (a string, a number, a boolean or null) before its final
    segment changes nothing, whatever its operation: the result is the
    document. *)
Theorem applyFix_blocked D f pre rest :
  is_json D = true →
  pathParts (sg_path (fix_suggestion f)) = pre ++ rest →
  rest ≠ [] →
  is_undefined (getNestedValue D pre) = false →
  is_object (getNestedValue D pre) = false →
  applyFix D f = Ok D.
Proof.
  intros HD Hparts Hrest Hdef Hobj.
  destruct rest as [|p0 rest0] using rev_ind; [done|]. clear IHrest0 Hrest.
  rename rest0 into mid, p0 into part. rewrite app_assoc in Hparts.
  assert (∀ create, ∃ found,
            getNestedObject D (pre ++ mid) create = Ok (D, found)
            ∧ ∀ l parent, found = Some (l, parent) → is_object parent = false)
    as Hfound.
  { intros create.
    destruct (getNestedObject_loop_through pre D [] D mid create Hdef)
      as (l1 & Hl1 & Hthrough).
    unfold getNestedObject. rewrite Hthrough.
    destruct mid as [|k mid]; simpl.
    - eexists. split; [done|]. by intros l parent [= <- <-].
    - rewrite Hobj.
      destruct (indexed (getNestedValue D pre) k) as [xs|] eqn:Hi.
      + apply indexed_Some in Hi as [[ps E] _]. by rewrite E in Hobj.
      + eexists. split; [done|]. by intros l parent. }
  unfold applyFix. rewrite json_roundtrip_document by done. simpl.
  rewrite Hparts.
  destruct (sg_operation (fix_suggestion f));
    rewrite ?setProperty_snoc, ?removeProperty_snoc;
    [destruct (Hfound true) as (found & -> & Hf)
    |destruct (Hfound false) as (found & -> & Hf)
    |destruct (Hfound true) as (found & -> & Hf)
    |destruct (Hfound true) as (found & -> & Hf)];
    simpl; destruct found as [[l parent]|]; try done;
    by rewrite (Hf l parent eq_refl).
Qed.

Lemma applyFix_blocked_witness :
  applyFix doc_x (suggest OpAdd "/x/y/z" (num 1) VUndef) = Ok doc_x.
Proof.
  apply (applyFix_blocked doc_x (suggest OpAdd "/x/y/z" (num 1) VUndef)
           ["x"] ["y"; "z"]); (reflexivity || discriminate).
Defined.

Lemma modify_throw l : ∀ root f x,
  valid root l → modify root l f = Throw x → f (read root l) = Throw x.
Proof.
  induction l as [|[i|k] l IH]; intros root f x Hv Hm; simpl in *; [done| |].
  - destruct root as [| | | | |xs ps|]; try done. destruct Hv as [Hi Hv].
    destruct (modify (elem xs i) l f) as [y|e] eqn:E; [done|].
    simpl in Hm. injection Hm as ->. by apply IH.
  - destruct root as [| | | | |xs ps|fs]; try done.
    + destruct Hv as (Hl & Hx & Hs & Hv). rewrite get_named by done.
      destruct (modify (field k ps) l f) as [y|e] eqn:E; [done|].
      simpl in Hm. injection Hm as ->. by apply IH.
    + destruct Hv as (Hs & Hv).
      destruct (modify (field k fs) l f) as [y|e] eqn:E; [done|].
      simpl in Hm. injection Hm as ->. by apply IH.
Qed.

Lemma modify_throws l : ∀ root f x,
  valid root l → f (read root l) = Throw x → modify root l f = Throw x.
Proof.
  induction l as [|[i|k] l IH]; intros root f x Hv Hf; simpl in *; [done| |].
  - destruct root as [| | | | |xs ps|]; try done. destruct Hv as [Hi Hv].
    by rewrite (IH _ _ _ Hv Hf).
  - destruct root as [| | | | |xs ps|fs]; try done.
    + destruct Hv as (Hl & Hx & Hs & Hv). rewrite get_named in Hf by done.
      by rewrite (IH _ _ _ Hv Hf).
    + destruct Hv as (Hs & Hv). by rewrite (IH _ _ _ Hv Hf).
Qed.

(** [getNestedObject] never throws. *)
Lemma getNestedObject_loop_total parts :
  ∀ root here current create,
    (is_object current = true → valid root here ∧ read root here = current) →
    ∃ res, getNestedObject_loop root here current parts create = Ok res.
Proof.
  induction parts as [|part rest IH]; intros root here current create Hinv;
    simpl.
  - by eexists.
  - destruct (indexed current part) as [xs|] eqn:Hi.
    + apply indexed_Some in Hi as [[ps ->] Hd].
      destruct (Hinv eq_refl) as [Hv Hr].
      destruct (parseInt part <? length xs) eqn:Hlt; [|by eexists].
      apply Nat.ltb_lt in Hlt. apply IH. intros _.
      rewrite valid_app, read_app, Hr. simpl. auto.
    + destruct (is_object current) eqn:Hc; [|by eexists].
      destruct (Hinv eq_refl) as [Hv Hr].
      destruct (is_undefined (get current part)) eqn:Hu.
      * destruct create; [|by eexists].
        destruct (set_missing current part (fresh_container rest) Hc Hi Hu)
          as (y & Hy & Hvy & Hgy).
        destruct (modify_valid here root
                    (λ c, set c part (fresh_container rest)) y Hv)
          as (root1 & Hm & Hr1 & Hv1); [by rewrite Hr|].
        rewrite Hm. simpl. apply IH. intros _.
        rewrite valid_app, read_app, Hr1. simpl. auto.
      * apply IH. intros Ho.
        rewrite valid_app, read_app, Hr. split; [|done].
        split; [done|]. by apply get_present.
Qed.

(** X24: on a document, for a path without inherited names and a
    value that the host language converts to a number without throwing
    or rounding, [applyFix] throws in one situation only: the final
    segment of the path is [length] and the parent container is a
    sequence.  A remove then throws a [TypeError]; an add, replace or
    set throws a [RangeError] when the value of the fix is no array
    length, and only then. *)
Theorem applyFix_throws D f x :
  is_json D = true →
  let parts := pathParts (sg_path (fix_suggestion f)) in
  plain_path parts = true →
  convertible (sg_value (fix_suggestion f)) = true →
  unrounded (sg_value (fix_suggestion f)) = true →
  applyFix D f = Throw x
  ↔ parts ≠ []
    ∧ lastPart parts = "length"
    ∧ isArray (getNestedValue D (removelast parts)) = true
    ∧ match sg_operation (fix_suggestion f) with
      | OpRemove => x = TypeError
      | _ => array_length (ToNumber (sg_value (fix_suggestion f))) = None
             ∧ x = RangeError
      end.
Proof.
  intros HD parts _ _ _.
  assert (applyFix D f =
            match sg_operation (fix_suggestion f) with
            | OpRemove => removeProperty D parts
            | _ => setProperty D parts (sg_value (fix_suggestion f))
            end) as ->.
  { unfold applyFix. rewrite json_roundtrip_document by done. simpl.
    by destruct (sg_operation _). }
  destruct parts as [|p0 pp] eqn:Ep using rev_ind.
  { split; [by destruct (sg_operation _) | by intros [? _]]. }
  clear IHpp. rename p0 into part.
  unfold lastPart. rewrite removelast_last, last_snoc. simpl.
  assert (pp ++ [part] ≠ []) as Hne by by destruct pp.
  destruct (getNestedObject_loop_total pp D [] D true) as [[root1 found1] H1];
    [done|].
  destruct (getNestedObject_loop_reads pp D [] D) as (found0 & H0 & Hval).
  fold (getNestedObject D pp true) in H1.
  fold (getNestedObject D pp false) in H0.
  assert (∀ create root found l parent,
            getNestedObject D pp create = Ok (root, found) →
            found = Some (l, parent) → is_object parent = true →
            valid root l ∧ read root l = parent
            ∧ (isArray parent = true → root = D ∧ getNestedValue D pp = parent)
            ∧ (isArray (getNestedValue D pp) = true →
               root = D ∧ parent = getNestedValue D pp)) as Hloc.
  { intros create root found l parent Hg -> Hobj.
    destruct (getNestedObject_marks _ _ _ _ _ _ Hg Hobj) as [Hm Hr].
    split_and!; [by eapply marks_valid | done | |].
    - intros Harr. destruct parent as [| | | | |xs ps|]; try done.
      assert (root = D) as ->.
      { destruct create.
        - by eapply getNestedObject_loop_array.
        - rewrite H0 in Hg. by injection Hg as <- _. }
      split; [done|]. by rewrite (marks_reads _ _ _ Hm).
    - intros Harr.
      destruct (getNestedObject_loop_resolves pp D [] D create) as [l' Hl'].
      { by destruct (getNestedValue D pp). }
      fold (getNestedObject D pp create) in Hl'. rewrite Hl' in Hg.
      by injection Hg as <- <- <-. }
  assert (∀ xs ps v, set (VArr xs ps) part v = Throw x
            ↔ part = "length" ∧ array_length (ToNumber v) = None
              ∧ x = RangeError) as Hset.
  { intros xs ps v. unfold set, set_length.
    destruct (String.eqb part "length") eqn:El.
    - apply String.eqb_eq in El as ->.
      destruct (array_length (ToNumber v)); simpl; naive_solver.
    - apply String.eqb_neq in El. destruct (array_index part); naive_solver. }
  assert (∀ xs ps, delete (VArr xs ps) part = Throw x
            ↔ part = "length" ∧ x = TypeError) as Hdel.
  { intros xs ps. unfold delete.
    destruct (String.eqb part "length") eqn:El.
    - apply String.eqb_eq in El as ->. naive_solver.
    - apply String.eqb_neq in El. destruct (array_index part); naive_solver. }
  assert (test_digits "length" = false) as Hlen by done.
  assert (setProperty D (pp ++ [part]) (sg_value (fix_suggestion f)) = Throw x
          ↔ pp ++ [part] ≠ [] ∧ part = "length"
            ∧ isArray (getNestedValue D pp) = true
            ∧ array_length (ToNumber (sg_value (fix_suggestion f))) = None
            ∧ x = RangeError) as Hs.
  { rewrite setProperty_snoc, H1. simpl.
    destruct found1 as [[l parent]|].
    2:{ split; [done|]. intros (_ & _ & Harr & _).
        destruct (getNestedObject_loop_resolves pp D [] D true) as [l' Hl'];
          [by destruct (getNestedValue D pp)|].
        fold (getNestedObject D pp true) in Hl'. by rewrite Hl' in H1. }
    destruct (is_object parent) eqn:Hobj.
    2:{ split; [done|]. intros (_ & _ & Harr & _).
        destruct (getNestedObject_loop_resolves pp D [] D true) as [l' Hl'];
          [by destruct (getNestedValue D pp)|].
        fold (getNestedObject D pp true) in Hl'. rewrite Hl' in H1.
        injection H1 as <- <- <-.
        by destruct (getNestedValue D pp). }
    destruct (Hloc _ _ _ _ _ H1 eq_refl Hobj) as (Hv & Hr & Ha1 & Ha2).
    destruct (is_object_container _ Hobj) as [(xs & ps & ->)|(fs & ->)].
    - destruct (Ha1 eq_refl) as [-> Hp]. rewrite Hp.
      destruct (test_digits part) eqn:Hd.
      + split.
        * destruct (_ <? _); [|destruct (_ =? _)]; try done;
            by intros ?%modify_throw.
        * intros (_ & -> & _). done.
      + split.
        * intros Hm%modify_throw; [|done]. rewrite Hr in Hm.
          apply Hset in Hm. naive_solver.
        * intros (_ & Hl & _ & Hn & Hx). apply modify_throws; [done|].
          rewrite Hr. by apply Hset.
    - split.
      + intros Hm%modify_throw; [|done]. by rewrite Hr in Hm.
      + intros (_ & _ & Harr & _). destruct (Ha2 Harr) as [_ E].
        by rewrite <-E in Harr. }
  assert (removeProperty D (pp ++ [part]) = Throw x
          ↔ pp ++ [part] ≠ [] ∧ part = "length"
            ∧ isArray (getNestedValue D pp) = true ∧ x = TypeError) as Hr.
  { rewrite removeProperty_snoc, H0. simpl.
    destruct found0 as [[l parent]|]; simpl in Hval.
    2:{ split; [done|]. intros (_ & _ & Harr & _). by rewrite Hval in Harr. }
    rewrite Hval.
    destruct (is_object parent) eqn:Hobj.
    2:{ split; [done|]. intros (_ & _ & Harr & _). by destruct parent. }
    destruct (Hloc _ _ _ _ _ H0 eq_refl Hobj) as (Hv & Hr & _).
    destruct (is_object_container _ Hobj) as [(xs & ps & ->)|(fs & ->)].
    - destruct (test_digits part) eqn:Hd.
      + split; [by intros ?%modify_throw|]. intros (_ & -> & _). done.
      + split.
        * intros Hm%modify_throw; [|done]. rewrite Hr in Hm.
          apply Hdel in Hm. naive_solver.
        * intros (_ & Hl & _ & Hx). apply modify_throws; [done|].
          rewrite Hr. by apply Hdel.
    - split; [|by intros (_ & _ & ? & _)].
      intros Hm%modify_throw; [|done]. by rewrite Hr in Hm. }
  destruct (sg_operation (fix_suggestion f)); [exact Hs | exact Hr | exact Hs..].
Qed.

Lemma applyFix_throws_witness :
  applyFix doc_xs (suggest OpSet "/xs/length" (num (-1)) VUndef)
  = Throw RangeError
  ∧ applyFix doc_xs (suggest OpRemove "/xs/length" VUndef VUndef)
    = Throw TypeError.
Proof.
  split.
  - apply (applyFix_throws doc_xs
             (suggest OpSet "/xs/length" (num (-1)) VUndef) RangeError);
      [reflexivity..|].
    split; [discriminate|]. by split_and!.
  - apply (applyFix_throws doc_xs
             (suggest OpRemove "/xs/length" VUndef VUndef) TypeError);
      [reflexivity..|].
    split; [discriminate|]. by split_and!.
Defined.

(** ** Errors that make the run throw *)

(** X25: an error at the head of the list whose path is there but
    is no string makes [generateFixes] throw a [TypeError]: no list of
    fixes is returned. *)
Theorem generateFixes_path_not_string clk e rest config :
  is_nullish e = false →
  is_string (path_of e) = false →
  generateFixes clk (e :: rest) config = Throw TypeError.
Proof.
  intros He Hp. unfold generateFixes.
  rewrite generateFixes_loop_cons, decide_False by set_solver.
  unfold generateFixForError. rewrite getP_ok by done. simpl.
  by destruct (path_of e).
Qed.

Lemma generateFixes_path_not_string_witness :
  generateFixes sample_clock
    [VObj [("keyword", VStr "type"); ("instancePath", num 5)]] doc_x
  = Throw TypeError.
Proof.
  apply (generateFixes_path_not_string sample_clock
           (VObj [("keyword", VStr "type"); ("instancePath", num 5)]) []
           doc_x); reflexivity.
Defined.

(** ** A [type] error after its fix *)

(** X26: a [type] error whose fix coerces the value does not go away
    when the fix is applied, but settles: on a document that the host
    language converts without throwing, where the path names no
    inherited property and can be assigned, and the value at the path
    converts to a number without rounding, the edit never throws, and
    the same error on the edited document yields a fix that replaces
    the coerced value by itself. *)
Theorem type_fix_settles stamp stamp' e D s f :
  is_json D = true →
  convertible D = true →
  get e "keyword" = VStr "type" →
  generateFixForError stamp e D (VStr s) = Ok (Some f) →
  let parts := pathParts s in
  plain_path parts = true →
  unrounded (getNestedValue D parts) = true →
  let converted :=
    convertType (getNestedValue D parts) (get (get e "params") "type") in
  is_undefined converted = false →
  parts ≠ [] →
  settable (getNestedValue D (removelast parts)) (lastPart parts) →
  ∃ r f',
    applyFix D f = Ok r
    ∧ getNestedValue r parts = converted
    ∧ generateFixForError stamp' e r (VStr s) = Ok (Some f')
    ∧ sg_operation (fix_suggestion f') = OpReplace
    ∧ sg_path (fix_suggestion f') = s
    ∧ sg_value (fix_suggestion f') = converted
    ∧ sg_oldValue (fix_suggestion f') = converted.
Proof.
  intros HD _ Hk Hg parts _ _ converted Hdef Hne Hset.
  destruct (keyword_of_fix _ _ _ _ _ _ Hg Hk) as (_ & _ & Hp).
  destruct (generateFixForError_type stamp e D s Hk Hp) as (id & d & Hf).
  rewrite Hf in Hg. injection Hg as <-.
  rewrite navigate_getNestedValue. cbv zeta. fold parts converted.
  rewrite Hdef.
  match goal with
  | |- ∃ r f', applyFix D ?f0 = _ ∧ _ =>
      destruct (applyFix_assigns D f0 HD) as (r & Hr & _ & Hread);
        [done | done | done |]
  end.
  simpl in Hread. fold parts in Hread.
  destruct (generateFixForError_type stamp' e r s Hk Hp) as (id' & d' & Hf').
  rewrite navigate_getNestedValue in Hf'. fold parts in Hf'.
  rewrite Hread in Hf'. cbv zeta in Hf'. unfold converted in Hf' at 1 2.
  rewrite convertType_twice in Hf'. fold converted in Hf'.
  rewrite Hdef in Hf'.
  eexists r, _. split; [exact Hr|]. split; [done|].
  split; [exact Hf'|]. done.
Qed.

Lemma type_fix_settles_witness :
  ∃ f,
    generateFixForError (sample_clock 0) (type_error "/x" "string") doc_x
      (VStr "/x") = Ok (Some f)
    ∧ ∃ r f',
        applyFix doc_x f = Ok r
        ∧ getNestedValue r ["x"] = VStr "7"
        ∧ generateFixForError (sample_clock 1) (type_error "/x" "string") r
            (VStr "/x") = Ok (Some f')
        ∧ sg_operation (fix_suggestion f') = OpReplace
        ∧ sg_path (fix_suggestion f') = "/x"
        ∧ sg_value (fix_suggestion f') = VStr "7"
        ∧ sg_oldValue (fix_suggestion f') = VStr "7".
Proof.
  eexists. split; [vm_compute; reflexivity|].
  match goal with
  | |- ∃ r f', applyFix _ ?f = _ ∧ _ =>
      apply (type_fix_settles (sample_clock 0) (sample_clock 1)
               (type_error "/x" "string") doc_x "/x" f)
  end.
  - reflexivity.
  - reflexivity.
  - reflexivity.
  - vm_compute. reflexivity.
  - reflexivity.
  - reflexivity.
  - reflexivity.
  - discriminate.
  - exact I.
Defined.

(** ** Runs over a longer list *)

Lemma run_app clk config es' :
  ∀ tick es fixes seen out,
    run clk config tick (es ++ es') fixes seen out →
    ∃ tick' mid seen',
      run clk config tick es fixes seen mid
      ∧ run clk config tick' es' mid seen' out.
Proof.
  intros tick es. revert tick.
  induction es as [|e es IH]; intros tick fixes seen out Hrun; simpl in Hrun.
  - eexists tick, fixes, seen. split; [constructor | done].
  - inversion Hrun; subst.
    + destruct (IH _ _ _ _ ltac:(eassumption)) as (t' & mid & s' & Ha & Hb).
      eexists t', mid, s'. split; [by apply run_seen | done].
    + destruct (IH _ _ _ _ ltac:(eassumption)) as (t' & mid & s' & Ha & Hb).
      eexists t', mid, s'. split; [by apply run_unfixable | done].
    + destruct (IH _ _ _ _ ltac:(eassumption)) as (t' & mid & s' & Ha & Hb).
      eexists t', mid, s'. split; [by eapply run_fix | done].
Qed.

(** X27: errors that follow in the list never change the fixes of
    the errors before them: the fixes of a list of errors begin with
    the fixes of each of its initial parts, identifiers included. *)
Theorem generateFixes_prefix clk es es' config out :
  generateFixes clk (es ++ es') config = Ok out →
  ∃ mid new, generateFixes clk es config = Ok mid ∧ out = mid ++ new.
Proof.
  intros Hrun%generateFixes_run.
  destruct (run_app _ _ _ _ _ _ _ _ Hrun) as (t' & mid & s' & H1 & H2).
  destruct (run_extends _ _ _ _ _ _ _ H2) as [new ->].
  exists mid, new. split; [by apply generateFixes_run | done].
Qed.

Lemma generateFixes_prefix_witness :
  ∃ out mid new,
    generateFixes sample_clock
      ([limit_error "maximum" "/x" 5] ++ [type_error "/x" "string"]) doc_x
    = Ok out
    ∧ generateFixes sample_clock [limit_error "maximum" "/x" 5] doc_x = Ok mid
    ∧ out = mid ++ new.
Proof.
  destruct (generateFixes sample_clock
              ([limit_error "maximum" "/x" 5] ++ [type_error "/x" "string"])
              doc_x) as [out|x] eqn:E; [|by vm_compute in E].
  destruct (generateFixes_prefix sample_clock [limit_error "maximum" "/x" 5]
              [type_error "/x" "string"] doc_x out E) as (mid & new & H).
  by exists out, mid, new.
Defined.

(** What a run leaves behind: every error it has seen is not nullish,
    and has its key filed or yields no fix under any clock; and the run
    can be carried on with further errors. *)
Lemma run_carry clk config tick es fixes seen mid :
  run clk config tick es fixes seen mid →
  ∃ tick' seen',
    seen ⊆ seen'
    ∧ (∀ e, e ∈ es →
         is_nullish e = false
         ∧ (error_key e ∈ seen'
            ∨ ∀ stamp,
                generateFixForError stamp e config (path_of e) = Ok None))
    ∧ ∀ es' out,
        run clk config tick' es' mid seen' out →
        run clk config tick (es ++ es') fixes seen out.
Proof.
  induction 1 as [tick fixes seen
                  | tick e rest fixes seen out He Hk _ IH
                  | tick e rest fixes seen out Hk Hg _ IH
                  | tick e rest fixes seen out f Hk Hg _ IH].
  - exists tick, seen. split_and!; [done | by intros e ?%elem_of_nil | done].
  - destruct IH as (t' & s' & Hsub & Hall & Hgo). exists t', s'.
    split_and!; [done | |].
    + intros e' [->|Hin]%elem_of_cons; [|by apply Hall].
      split; [done|]. left. by apply Hsub.
    + intros es' out' Hr. simpl. apply run_seen; [done | done | by apply Hgo].
  - destruct IH as (t' & s' & Hsub & Hall & Hgo). exists t', s'.
    split_and!; [done | |].
    + intros e' [->|Hin]%elem_of_cons; [|by apply Hall]. split.
      * destruct (is_nullish e) eqn:En; [|done].
        unfold generateFixForError in Hg. by rewrite getP_nullish in Hg.
      * right. intros stamp.
        pose proof (generateFixForError_clock (clk tick) stamp e config
                      (path_of e)) as Hc.
        rewrite Hg in Hc.
        by destruct (generateFixForError stamp e config (path_of e))
          as [[?|]|].
    + intros es' out' Hr. simpl.
      apply run_unfixable; [done | done | by apply Hgo].
  - destruct IH as (t' & s' & Hsub & Hall & Hgo). exists t', s'.
    split_and!; [set_solver | |].
    + intros e' [->|Hin]%elem_of_cons; [|by apply Hall]. split.
      * by apply generateFixForError_Some in Hg as (? & _).
      * left. set_solver.
    + intros es' out' Hr. simpl. eapply run_fix; [done | done | by apply Hgo].
Qed.

Lemma run_idle clk config mid seen es' :
  (∀ e, e ∈ es' →
     is_nullish e = false
     ∧ (error_key e ∈ seen
        ∨ ∀ stamp, generateFixForError stamp e config (path_of e) = Ok None)) →
  ∀ tick, run clk config tick es' mid seen mid.
Proof.
  induction es' as [|e es' IH]; intros Hall tick; [constructor|].
  destruct (Hall e) as [He Hor]; [by left|].
  assert (∀ t, run clk config t es' mid seen mid) as Hrest.
  { apply IH. intros e' Hin. apply Hall. by right. }
  destruct (decide (error_key e ∈ seen)) as [Hin|Hnin].
  - by apply run_seen.
  - destruct Hor as [?|Hnone]; [done|]. by apply run_unfixable.
Qed.

(** X28: errors that come again later in the list add nothing: with
    errors appended that all occur in the list already, [generateFixes]
    returns the same fixes, identifiers included. *)
Theorem generateFixes_repeated clk es es' config out :
  generateFixes clk es config = Ok out →
  (∀ e, e ∈ es' → e ∈ es) →
  generateFixes clk (es ++ es') config = Ok out.
Proof.
  intros Hrun%generateFixes_run Hsub. apply generateFixes_run.
  destruct (run_carry _ _ _ _ _ _ _ Hrun) as (t' & s' & _ & Hall & Hgo).
  apply Hgo. apply run_idle. intros e Hin. by apply Hall, Hsub.
Qed.

Lemma generateFixes_repeated_witness :
  ∃ out,
    generateFixes sample_clock
      [limit_error "minLength" "/s" 9; limit_error "maxLength" "/s" 3] doc_s
    = Ok out
    ∧ generateFixes sample_clock
        ([limit_error "minLength" "/s" 9; limit_error "maxLength" "/s" 3]
         ++ [limit_error "maxLength" "/s" 3; limit_error "minLength" "/s" 9])
        doc_s = Ok out.
Proof.
  eexists. split; [vm_compute; reflexivity|].
  apply (generateFixes_repeated sample_clock
           [limit_error "minLength" "/s" 9; limit_error "maxLength" "/s" 3]
           [limit_error "maxLength" "/s" 3; limit_error "minLength" "/s" 9]
           doc_s).
  - vm_compute. reflexivity.
  - intros e Hin. set_solver.
Defined.

(** ** The diff after the edit *)

(** X29: the diff of an add, replace or set that can be assigned
    shows the value of the fix as [after]: where the parent container
    of the path is in the document and the final segment names no
    inherited property and can be assigned on it, [generateDiff] never
    throws, [after] is the rendering of the value of the fix, and
    [before] is that of what the document has at the path (null for an
    add where nothing is). *)
Theorem generateDiff_shows_value f D :
  is_json D = true →
  sg_operation (fix_suggestion f) ≠ OpRemove →
  let parts := pathParts (sg_path (fix_suggestion f)) in
  parts ≠ [] →
  inherits (lastPart parts) = false →
  settable (getNestedValue D (removelast parts)) (lastPart parts) →
  ∃ d, generateDiff f D = Ok d
       ∧ after d = render (sg_value (fix_suggestion f))
       ∧ before d =
           render (match getNestedValue D parts,
                         sg_operation (fix_suggestion f) with
                   | VUndef, OpAdd => VNull
                   | existing, _ => existing
                   end)
       ∧ diff_path d = sg_path (fix_suggestion f).
Proof.
  intros HD Hop parts Hne _ Hset.
  destruct (applyFix_assigns D f HD Hop Hne Hset) as (r & Hr & _ & Hread).
  subst parts.
  unfold generateDiff. rewrite json_roundtrip_document by done. simpl.
  rewrite Hr. simpl. rewrite Hread. eexists. split; [done|]. simpl.
  split_and!; [done | | done].
  f_equal.
  destruct (getNestedValue D (pathParts (sg_path (fix_suggestion f))));
    try done.
  by destruct (sg_operation (fix_suggestion f)).
Qed.

Lemma generateDiff_shows_value_witness :
  ∃ d, generateDiff (suggest OpAdd "/a/z" (num 3) VUndef) doc_ab = Ok d
       ∧ after d = render (num 3)
       ∧ before d = render VNull
       ∧ diff_path d = "/a/z".
Proof.
  apply (generateDiff_shows_value (suggest OpAdd "/a/z" (num 3) VUndef) doc_ab).
  - reflexivity.
  - discriminate.
  - discriminate.
  - reflexivity.
  - exact I.
Defined.

(** ** The diff, case by case *)

(** C9, as stated, fails: where [applyFix] throws, [generateDiff]
    throws with it and returns no diff; and the recorded old value of a
    remove is shown only where the document has nothing at the path:
    where it has something, [before] shows that. *)
Lemma generateDiff_throws_or_shows_present :
  generateDiff (suggest OpSet "/xs/length" (num (-1)) VUndef) doc_xs
  = Throw RangeError
  ∧ generateDiff (suggest OpRemove "/x" VUndef (num 99)) doc_x
    = Ok {| before := "7"; after := "(undefined)"; diff_path := "/x" |}.
Proof. split; vm_compute; reflexivity. Qed.

(** C9, amended: on a document [D], [generateDiff] throws where
    [applyFix] throws, and whenever it returns, its path is that of the
    fix and [before] renders what [D] has at the path, if anything; at
    a path without inherited names, [before] renders null for an add
    where [D] has nothing, and the recorded old value for a remove
    where [D] has nothing.
    For an add, replace or set that can be assigned, at a final segment
    that names no inherited property, [before] renders what [D] has at
    the path, null for an add where nothing is, and [after] renders the
    value of the fix.  For a remove under a map, at such a final
    segment, [before] renders what [D] has at the path, and the recorded
    old value where nothing is, and [after] is [(undefined)]; for a
    remove of an element of a sequence, [after] renders the element
    that moves into its place.  A value renders as its pretty-printed
    JSON text, with two spaces of indentation, an absent one as
    [(undefined)]; an add at a path whose branch is missing shows
    [null] before. *)
Theorem generateDiff_contract f D :
  is_json D = true →
  let s := fix_suggestion f in
  let parts := pathParts (sg_path s) in
  let part := lastPart parts in
  let parent := getNestedValue D (removelast parts) in
  let existing := getNestedValue D parts in
  parts ≠ [] →
  (∀ x, applyFix D f = Throw x → generateDiff f D = Throw x)
  ∧ (∀ d, generateDiff f D = Ok d →
       diff_path d = sg_path s
       ∧ (is_undefined existing = false → before d = render existing)
       ∧ (plain_path parts = true →
          before d = render (shownBefore (sg_operation s) (sg_oldValue s)
                               existing)))
  ∧ (sg_operation s ≠ OpRemove → inherits part = false →
     settable parent part →
     generateDiff f D =
       Ok {| before := render (match existing, sg_operation s with
                               | VUndef, OpAdd => VNull
                               | _, _ => existing
                               end);
             after := render (sg_value s);
             diff_path := sg_path s |})
  ∧ (sg_operation s = OpRemove → inherits part = false →
     ∀ fs, parent = VObj fs → NoDup fs.*1 →
     generateDiff f D =
       Ok {| before := render (if is_undefined existing then sg_oldValue s
                               else existing);
             after := "(undefined)";
             diff_path := sg_path s |})
  ∧ (sg_operation s = OpRemove →
     ∀ xs ps, parent = VArr xs ps → test_digits part = true →
     generateDiff f D =
       Ok {| before := render (if is_undefined existing then sg_oldValue s
                               else existing);
             after := render (elem xs (S (parseInt part)));
             diff_path := sg_path s |})
  ∧ (render VUndef = "(undefined)" ∧ render VNull = "null"
     ∧ (∀ b, render (VBool b) = if b then "true" else "false")
     ∧ (∀ m e, render (VNum (Fin m e)) = num_to_string (Fin m e))
     ∧ (∀ t, render (VStr t) = chr 34 +:+ quote_body t +:+ chr 34)
     ∧ render (arr []) = "[]" ∧ render (VObj []) = "{}"
     ∧ (∀ v, is_undefined v = false → stringify EmptyString v = Some (render v))
     ∧ render (VObj [("a", arr [num 1; VBool true]); ("b", VObj [])])
       = "{" +:+ nl +:+ "  " +:+ chr 34 +:+ "a" +:+ chr 34 +:+ ": ["
         +:+ nl +:+ "    1," +:+ nl +:+ "    true" +:+ nl +:+ "  ],"
         +:+ nl +:+ "  " +:+ chr 34 +:+ "b" +:+ chr 34 +:+ ": {}"
         +:+ nl +:+ "}")
  ∧ generateDiff (suggest OpAdd "/a/b" (num 1) VUndef) doc_xs
    = Ok {| before := "null"; after := "1"; diff_path := "/a/b" |}.
Proof.
  intros HD s parts part parent existing Hne.
  assert (generateDiff f D =
            (edited ← applyFix D f;
             Ok {| before := render (match existing, sg_operation s with
                                     | VUndef, OpAdd => VNull
                                     | VUndef, OpRemove => sg_oldValue s
                                     | _, _ => existing
                                     end);
                   after := render (getNestedValue edited parts);
                   diff_path := sg_path s |})) as Hdiff.
  { unfold generateDiff. rewrite json_roundtrip_document by done. simpl.
    destruct (applyFix D f) as [edited|]; [|done]. simpl.
    fold s parts existing. do 2 f_equal.
    by destruct existing, (sg_operation s). }
  assert (parts = removelast parts ++ [part]) as Hparts by by apply parts_snoc.
  split_and!; [| | | | | (done || (by intros []) || apply render_defined)..
              | vm_compute; reflexivity].
  - intros x Hx. by rewrite Hdiff, Hx.
  - intros d. rewrite Hdiff.
    destruct (applyFix D f) as [edited|]; [|done]. simpl.
    intros [= <-]. simpl. split_and!; [done | |].
    + intros Hex. by destruct existing.
    + intros _. unfold shownBefore. by destruct existing, (sg_operation s).
  - intros Hop _ Hset.
    destruct (applyFix_assigns D f HD Hop Hne Hset) as (r & Hr & _ & Hread).
    fold s parts in Hread. rewrite Hdiff, Hr. simpl. rewrite Hread.
    do 3 f_equal. destruct existing; try done.
    by destruct (sg_operation s).
  - intros Hop _ fs Hparent Hnd.
    destruct (applyFix_deletes D f fs HD Hop Hne Hparent) as (r & Hr & Hread).
    fold s parts part in Hread. rewrite Hdiff, Hr, Hop. simpl.
    assert (getNestedValue r parts = VUndef) as ->.
    { rewrite Hparts, getNestedValue_app, Hread.
      rewrite getNestedValue_last by done. simpl.
      unfold field. by rewrite assoc_delete_field. }
    do 3 f_equal. by destruct existing.
  - intros Hop xs ps Hparent Hd.
    rewrite Hdiff, applyFix_remove by done. fold s parts.
    destruct (removeProperty_reads D (removelast parts) part
                (VArr xs ps) Hparent eq_refl
                (VArr (splice1 xs (parseInt part)) ps))
      as (r & Hr & Hread); [by rewrite Hd|].
    rewrite <-Hparts in Hr. rewrite Hr, Hop. simpl.
    assert (getNestedValue r parts = elem xs (S (parseInt part))) as ->.
    { rewrite Hparts, getNestedValue_app, Hread.
      rewrite getNestedValue_last by done. unfold indexed. rewrite Hd.
      by rewrite elem_splice1, Nat.ltb_irrefl. }
    do 3 f_equal. by destruct existing.
Qed.

Lemma generateDiff_contract_witness :
  generateDiff (suggest OpRemove "/a/b" VUndef (num 5)) doc_ab
  = Ok {| before := "1"; after := "(undefined)"; diff_path := "/a/b" |}
  ∧ generateDiff (suggest OpRemove "/xs/0" VUndef VUndef) doc_xs
    = Ok {| before := "1"; after := "2"; diff_path := "/xs/0" |}.
Proof.
  split.
  - destruct (generateDiff_contract (suggest OpRemove "/a/b" VUndef (num 5))
                doc_ab eq_refl) as (_ & _ & _ & H & _); [discriminate|].
    rewrite (H eq_refl eq_refl [("b", num 1); ("c", num 2)] eq_refl);
      [reflexivity|].
    repeat constructor; set_solver.
  - destruct (generateDiff_contract (suggest OpRemove "/xs/0" VUndef VUndef)
                doc_xs eq_refl) as (_ & _ & _ & _ & H & _); [discriminate|].
    rewrite (H eq_refl [num 1; num 2] [] eq_refl eq_refl). reflexivity.
Defined.

(** ** Applying a fix twice *)

Lemma modify_ext l : ∀ root f g,
  valid root l → f (read root l) = g (read root l) →
  modify root l f = modify root l g.
Proof.
  induction l as [|[i|k] l IH]; intros root f g Hv Hfg; simpl in *; [done| |].
  - destruct root as [| | | | |xs ps|]; try done. destruct Hv as [Hi Hv].
    by rewrite (IH _ f g Hv Hfg).
  - destruct root as [| | | | |xs ps|fs]; try done.
    + destruct Hv as (Hl & Hx & Hs & Hv). rewrite !get_named in Hfg by done.
      by rewrite (IH _ f g Hv Hfg).
    + destruct Hv as (Hs & Hv). by rewrite (IH _ f g Hv Hfg).
Qed.

(** The assignment of [setProperty] as one update of the document. *)
Lemma setProperty_modify D pp part v root l parent :
  getNestedObject D pp true = Ok (root, Some (l, parent)) →
  settable parent part →
  setProperty D (pp ++ [part]) v
  = modify root l (λ _, Ok (assigned parent part v)).
Proof.
  intros Hfound Hset. pose proof (settable_object _ _ Hset) as Hobj.
  destruct (getNestedObject_marks _ _ _ _ _ _ Hfound Hobj) as [Hm Hr].
  pose proof (marks_valid _ _ _ Hm) as Hv.
  rewrite setProperty_snoc, Hfound. simpl. rewrite Hobj.
  destruct parent as [| | | | |xs ps|fs]; try done; simpl in *.
  - destruct (test_digits part) eqn:Hd.
    + destruct (parseInt part <? length xs) eqn:Hlt; [done|].
      apply Nat.ltb_ge in Hlt.
      by rewrite (proj2 (Nat.eqb_eq _ _)) by lia.
    + apply modify_ext; [done|]. rewrite Hr. simpl.
      by rewrite (proj2 (String.eqb_neq _ _)), not_digits_index by done.
  - apply modify_ext; [done|]. by rewrite Hr.
Qed.

Lemma forallb_set_field (P : value → bool) k v fs :
  P v = true → forallb (λ kv, P kv.2) fs = true →
  forallb (λ kv : string * value, P kv.2) (set_field k v fs) = true.
Proof.
  intros Hv Hfs. rewrite forallb_forall in *. intros [k' x] Hin.
  apply list_elem_of_In in Hin. simpl.
  assert (x = v ∨ (k', x) ∈ fs) as [->|Hin']; [|done|].
  - unfold set_field in Hin. destruct (assoc k fs).
    + clear -Hin. induction fs as [|[k0 x0] fs IH]; simpl in *.
      * by apply elem_of_nil in Hin.
      * destruct (String.eqb k k0).
        -- apply elem_of_cons in Hin as [[= _ ->]|?]; [by left|].
           right. by right.
        -- apply elem_of_cons in Hin as [[= -> ->]|?]; [right; by left|].
           destruct IH as [?|?]; [done | by left | right; by right].
    + destruct (array_index k) as [i|].
      * clear -Hin. induction fs as [|[k0 x0] fs IH]; simpl in *.
        -- apply list_elem_of_singleton in Hin as [= _ ->]. by left.
        -- destruct (array_index k0) as [j|]; [destruct (i <? j)|].
           ++ apply elem_of_cons in Hin as [[= _ ->]|?]; [by left | by right].
           ++ apply elem_of_cons in Hin as [[= -> ->]|?]; [right; by left|].
              destruct IH as [?|?]; [done | by left | right; by right].
           ++ apply elem_of_cons in Hin as [[= _ ->]|?]; [by left | by right].
      * apply elem_of_app in Hin as [?|Hin]; [by right|].
        apply list_elem_of_singleton in Hin as [= _ ->]. by left.
  - apply (Hfs (k', x)). by apply list_elem_of_In.
Qed.

Lemma forallb_insert (P : value → bool) i v xs :
  P v = true → forallb P xs = true → forallb P (<[i:=v]> xs) = true.
Proof.
  intros Hv. revert i. induction xs as [|x xs IH]; intros [|i]; simpl;
    try done; rewrite !andb_true_iff; naive_solver.
Qed.

Lemma forallb_replace_field (P : value → bool) k v fs :
  P v = true → forallb (λ kv, P kv.2) fs = true →
  forallb (λ kv : string * value, P kv.2) (replace_field k v fs) = true.
Proof.
  intros Hv. induction fs as [|[k' x] fs IH]; simpl; [done|].
  rewrite andb_true_iff. intros [Hx Hfs].
  destruct (String.eqb k k'); simpl; rewrite andb_true_iff; auto.
Qed.

(** An update of a document by a document gives a document. *)
Lemma is_json_modify l : ∀ root y r,
  is_json root = true → valid root l → is_json y = true →
  modify root l (λ _, Ok y) = Ok r → is_json r = true.
Proof.
  induction l as [|[i|k] l IH]; intros root y r HD Hv Hy Hm; simpl in *.
  - by injection Hm as <-.
  - destruct root as [| | | | |xs ps|]; try done. destruct Hv as [Hi Hv].
    destruct (modify (elem xs i) l _) as [x|] eqn:E; [|done].
    simpl in Hm. injection Hm as <-.
    pose proof (IH _ _ _ (is_json_elem _ _ _ HD Hi) Hv Hy E) as Hx.
    simpl in *. apply andb_true_iff in HD as [Hxs Hps].
    rewrite Hps, andb_true_r. by apply forallb_insert.
  - destruct root as [| | | | |xs ps|fs]; try done.
    + destruct Hv as (_ & _ & Hs & _).
      apply is_json_props in HD as ->. by destruct Hs.
    + destruct Hv as (Hs & Hv).
      destruct (modify (field k fs) l _) as [x|] eqn:E; [|done].
      simpl in Hm. injection Hm as <-.
      pose proof (IH _ _ _ (is_json_assoc _ _ _ HD (field_Some _ _ Hs)) Hv Hy E)
        as Hx.
      simpl in *. by apply forallb_replace_field.
Qed.

(** Assigning a second time changes nothing. *)
Lemma assigned_twice parent part v :
  settable parent part →
  (isArray parent = true → test_digits part = true) →
  settable (assigned parent part v) part
  ∧ assigned (assigned parent part v) part v = assigned parent part v.
Proof.
  destruct parent as [| | | | |xs ps|fs]; try done; simpl.
  - intros Hset Hd. pose proof (Hd eq_refl) as Hd'.
    rewrite Hd' in Hset |- *. unfold settable, assigned. rewrite Hd'.
    destruct (parseInt part <? length xs) eqn:Hlt.
    + apply Nat.ltb_lt in Hlt. rewrite length_insert.
      rewrite (proj2 (Nat.ltb_lt _ _)) by done.
      split; [lia|]. by rewrite list_insert_insert_eq.
    + apply Nat.ltb_ge in Hlt. rewrite length_app. simpl.
      rewrite (proj2 (Nat.ltb_lt _ _)) by lia.
      split; [lia|]. f_equal.
      replace (parseInt part) with (length xs + 0) by lia.
      by rewrite insert_app_r.
  - intros _ _. split; [done|]. f_equal.
    unfold set_field at 1. rewrite assoc_set_field.
    apply replace_field_same, assoc_set_field.
Qed.

(** X30: applying an add, replace or set a second time changes
    nothing more: for a document and a fix whose value is a document,
    at a path whose parent container is in the document, a map, or a
    sequence with the final segment an index up to its length, the edit
    never throws, and applied to its own result it returns that
    result. *)
Theorem applyFix_twice D f :
  is_json D = true →
  is_json (sg_value (fix_suggestion f)) = true →
  sg_operation (fix_suggestion f) ≠ OpRemove →
  let parts := pathParts (sg_path (fix_suggestion f)) in
  let parent := getNestedValue D (removelast parts) in
  parts ≠ [] →
  settable parent (lastPart parts) →
  (isArray parent = true → test_digits (lastPart parts) = true) →
  ∃ r, applyFix D f = Ok r ∧ is_json r = true ∧ applyFix r f = Ok r.
Proof.
  intros HD Hjv Hop parts parent Hne Hset Harr.
  assert (getNestedValue D (removelast parts) = parent) as Eparent by done.
  clearbody parent.
  set (v := sg_value (fix_suggestion f)) in *.
  set (part := lastPart parts) in *. set (pp := removelast parts) in *.
  assert (parts = pp ++ [part]) as Hparts by by apply parts_snoc.
  pose proof (settable_object _ _ Hset) as Hobj.
  destruct (getNestedObject_loop_resolves pp D [] D true) as [l Hl];
    [by rewrite Eparent|].
  fold (getNestedObject D pp true) in Hl. rewrite Eparent in Hl.
  destruct (getNestedObject_marks _ _ _ _ _ _ Hl Hobj) as [Hm Hr].
  pose proof (marks_valid _ _ _ Hm) as Hv.
  assert (is_json parent = true) as Hjp.
  { rewrite <-Eparent. apply is_json_getNestedValue; [done|].
    rewrite Eparent. by destruct parent. }
  assert (is_json (assigned parent part v) = true) as Hja.
  { clear -Hjp Hjv Hset Harr.
    destruct parent as [| | | | |xs ps|fs]; try done; simpl in *.
    - rewrite (Harr eq_refl). apply andb_true_iff in Hjp as [Hxs Hps].
      simpl. rewrite Hps, andb_true_r.
      destruct (_ <? _); [by apply forallb_insert|].
      rewrite forallb_app. simpl. by rewrite Hxs, Hjv.
    - by apply forallb_set_field. }
  destruct (modify_marks pp l D (λ _, Ok (assigned parent part v)) _ Hm eq_refl)
    as (r & Hmod & Hread & Hm').
  assert (applyFix D f = Ok r) as Hr1.
  { rewrite applyFix_set by done. fold parts v. rewrite Hparts.
    by rewrite (setProperty_modify _ _ _ _ _ _ _ Hl Hset). }
  assert (is_json r = true) as Hjr
    by exact (is_json_modify l D _ r HD Hv Hja Hmod).
  exists r. split_and!; [done | done |].
  destruct (assigned_twice parent part v Hset Harr) as [Hset' Htwice].
  assert (getNestedValue r pp = assigned parent part v) as Hpp
    by by rewrite (marks_reads _ _ _ Hm').
  destruct (getNestedObject_loop_resolves pp r [] r true) as [l' Hl'].
  { rewrite Hpp. by eapply settable_object. }
  fold (getNestedObject r pp true) in Hl'. rewrite Hpp in Hl'.
  destruct (getNestedObject_marks _ _ _ _ _ _ Hl')
    as [Hm2 Hr2]; [by eapply settable_object|].
  rewrite applyFix_set by done. fold parts v. rewrite Hparts.
  rewrite (setProperty_modify _ _ _ _ _ _ _ Hl' Hset'), Htwice.
  apply modify_same; [by eapply marks_valid|]. by rewrite Hr2.
Qed.

Lemma applyFix_twice_witness :
  ∃ r, applyFix doc_xs (suggest OpAdd "/xs/2" (num 3) VUndef) = Ok r
       ∧ is_json r = true
       ∧ applyFix r (suggest OpAdd "/xs/2" (num 3) VUndef) = Ok r.
Proof.
  apply (applyFix_twice doc_xs (suggest OpAdd "/xs/2" (num 3) VUndef)).
  - reflexivity.
  - reflexivity.
  - discriminate.
  - discriminate.
  - vm_compute. lia.
  - reflexivity.
Defined.
